(** * LevelsQ: a shallow embedding of the universe-hopper demo

    The program is a single JavaScript module working on a handful of
    module-level variables ([levelData], [state], [player], [input], the hero
    frame arrays, [levelAssets], [lastT]).  The embedding gathers them in one
    record, [World.t], and turns every function of the source into a function
    from worlds to worlds.

    - JavaScript numbers that hold indices and counts are integers ([Z]);
      positions, times and zoom factors are rationals ([Q]).
    - An array read [a[i]] yields [undefined] outside the array: reads return
      an [option], and a value that may be [undefined] has type [jsnum].
    - [Math.random()] and [performance.now()] are inputs: the function that
      calls them takes the value they return as an argument.
    - The canvas is an output: drawing functions return the list of the
      calls they make on [ctx].
    - [console.warn] and [warnOnce] only write to the console and are left
      out.
    - The hero frames and the render footprint of the player are taken as
      the world has them: [loadSprites] is not part of the embedding. *)

From Stdlib Require Import String Ascii DecimalString.
From Stdlib Require Import ZArith QArith Qround Qminmax Qabs.
From Stdlib Require Import List Bool Lia Lqa FinFun.
Import ListNotations.

Open Scope Z_scope.

(** ** JavaScript values and arrays *)

(** A number or [undefined]. *)
Abbreviation jsnum := (option Z).

Definition jsnum_eqb (a b : jsnum) : bool :=
  match a, b with
  | Some x, Some y => x =? y
  | None, None => true
  | _, _ => false
  end.

(** [a.length] *)
Definition len {A} (a : list A) : Z := Z.of_nat (length a).

(** [a[i]], [None] when [i] is not an index of [a]. *)
Definition idx {A} (a : list A) (i : Z) : option A :=
  if i <? 0 then None else nth_error a (Z.to_nat i).

(** [a[i]] for an array of numbers: [undefined] outside the array. *)
Definition at_ (a : list jsnum) (i : Z) : jsnum :=
  match idx a i with Some v => v | None => None end.

(** [new Set(a).has(v)] *)
Definition has (a : list jsnum) (v : jsnum) : bool :=
  existsb (jsnum_eqb v) a.

(** [Math.round]: the nearest integer, halves upwards. *)
Definition Math_round (q : Q) : Z := Qfloor (q + (1 # 2))%Q.

(** ** Data model *)

Record Image := { src : string; width : Z; height : Z }.

Inductive Align := AlignBg | AlignScreen.

(** A resolved optional layer: [{ kind: "image", img, align }] or
    [{ kind: "frames", frames, fps, timer, frameIndex, align }]. *)
Inductive LayerAsset :=
| ImageLayer (img : Image) (align : Align)
| FramesLayer (frames : list Image) (fps timer : Q) (frameIndex : Z)
              (align : Align).

Module Assets.
Record t := { bgImg : Image; fgImg : option Image;
              l1 : option LayerAsset; l2 : option LayerAsset;
              l3 : option LayerAsset; l4 : option LayerAsset }.
End Assets.

(** A JSON value read where the program expects a string: a string, or a
    truthy value of another type (a number, [true], an array, an object),
    given by the string [String(v)] makes of it.  A falsy value of another
    type ([0], [false], [null]) reads as an absent one. *)
Inductive JsText :=
| Str (s : string)
| NonStr (shown : string).

(** An optional layer as the level file declares it. *)
Module LayerSpec.
Record t := { type : option JsText; align : option string;
              src : option string; folder : option string;
              count : Z; fps : option Q }.
End LayerSpec.

(** A level as the level file declares it; [isHome] is [true] exactly when
    the entry has [isHome === true]. *)
Module Level.
Record t := { id : option string;
              background : option string; foreground : option string;
              layer1 : option LayerSpec.t; layer2 : option LayerSpec.t;
              layer3 : option LayerSpec.t; layer4 : option LayerSpec.t;
              isHome : bool }.
End Level.

Inductive Edge := EdgeLeft | EdgeRight.
Inductive Anim := Idle | Walk.

Module State.
Record t := { levelIndex : jsnum;
              transitioning : bool;
              transitionUntil : Q;
              lastEdge : option Edge;
              carousel : list jsnum;
              carouselPos : Z;
              homeIndex : Z }.
End State.

Module Player.
Record t := { x : Q; speed : Q; visible : bool; facing : Z;
              anim : Anim; frameIndex : Z; frameTimer : Q;
              renderW : Z; renderH : Z }.
End Player.

Module Input.
Record t := { left : bool; right : bool }.
End Input.

Module World.
Record t := { levelData : list Level.t;
              heroIdleFrames : list Image;
              heroWalkFrames : list Image;
              levelAssets : list (option string * Assets.t);
              state : State.t;
              player : Player.t;
              input : Input.t;
              lastT : Q }.
End World.

Import World.

(** Assignments to the module-level variables. *)
Definition set_state (s : State.t) (w : World.t) : World.t :=
  {| levelData := levelData w; heroIdleFrames := heroIdleFrames w;
     heroWalkFrames := heroWalkFrames w; levelAssets := levelAssets w;
     state := s; player := player w; input := input w; lastT := lastT w |}.

Definition set_player (p : Player.t) (w : World.t) : World.t :=
  {| levelData := levelData w; heroIdleFrames := heroIdleFrames w;
     heroWalkFrames := heroWalkFrames w; levelAssets := levelAssets w;
     state := state w; player := p; input := input w; lastT := lastT w |}.

Definition set_levelData (l : list Level.t) (w : World.t) : World.t :=
  {| levelData := l; heroIdleFrames := heroIdleFrames w;
     heroWalkFrames := heroWalkFrames w; levelAssets := levelAssets w;
     state := state w; player := player w; input := input w;
     lastT := lastT w |}.

Definition set_levelAssets (m : list (option string * Assets.t)) (w : World.t)
  : World.t :=
  {| levelData := levelData w; heroIdleFrames := heroIdleFrames w;
     heroWalkFrames := heroWalkFrames w; levelAssets := m;
     state := state w; player := player w; input := input w;
     lastT := lastT w |}.

Definition set_lastT (t : Q) (w : World.t) : World.t :=
  {| levelData := levelData w; heroIdleFrames := heroIdleFrames w;
     heroWalkFrames := heroWalkFrames w; levelAssets := levelAssets w;
     state := state w; player := player w; input := input w; lastT := t |}.

(** Assignments to the fields of [state]. *)
Definition set_levelIndex (v : jsnum) (s : State.t) : State.t :=
  {| State.levelIndex := v;
     State.transitioning := State.transitioning s;
     State.transitionUntil := State.transitionUntil s;
     State.lastEdge := State.lastEdge s;
     State.carousel := State.carousel s;
     State.carouselPos := State.carouselPos s;
     State.homeIndex := State.homeIndex s |}.

Definition set_carousel (c : list jsnum) (p : Z) (s : State.t) : State.t :=
  {| State.levelIndex := State.levelIndex s;
     State.transitioning := State.transitioning s;
     State.transitionUntil := State.transitionUntil s;
     State.lastEdge := State.lastEdge s;
     State.carousel := c;
     State.carouselPos := p;
     State.homeIndex := State.homeIndex s |}.

Definition set_carouselPos (p : Z) (s : State.t) : State.t :=
  set_carousel (State.carousel s) p s.

Definition set_homeIndex (h : Z) (s : State.t) : State.t :=
  {| State.levelIndex := State.levelIndex s;
     State.transitioning := State.transitioning s;
     State.transitionUntil := State.transitionUntil s;
     State.lastEdge := State.lastEdge s;
     State.carousel := State.carousel s;
     State.carouselPos := State.carouselPos s;
     State.homeIndex := h |}.

(** ** Helpers *)

(** [clamp(v, min, max) = Math.max(min, Math.min(max, v))] *)
Definition clamp (v min max : Q) : Q := Qmax min (Qmin max v).

(** [randInt(min, maxInclusive)], with [u] the value of [Math.random()]. *)
Definition randInt (min maxInclusive : Z) (u : Q) : Z :=
  Qfloor (u * inject_Z (maxInclusive - min + 1))%Q + min.

(** [Math.random()] returns a number of the interval [[0, 1)]. *)
Definition unit_draw (u : Q) : Prop := (0 <= u /\ u < 1)%Q.

Definition isHomeIndex (w : World.t) (i : jsnum) : bool :=
  negb (State.homeIndex (state w) =? -1)
  && jsnum_eqb i (Some (State.homeIndex (state w))).

(** ** Carousel *)

(** The indices [0 .. levelData.length - 1], in order. *)
Definition indices (w : World.t) : list Z :=
  map Z.of_nat (seq 0 (length (levelData w))).

Definition nonHomeIndices (w : World.t) : list Z :=
  filter (fun i => negb (isHomeIndex w (Some i))) (indices w).

Definition usedNonHomeCount (w : World.t) : Z :=
  len (filter (fun i => negb (isHomeIndex w i)) (State.carousel (state w))).

Definition pickUnusedNonHomeLevelIndex (u : Q) (w : World.t) : jsnum :=
  let used := State.carousel (state w) in
  let pool := filter (fun i => negb (has used (Some i))) (nonHomeIndices w) in
  if len pool =? 0 then
    match idx (nonHomeIndices w) 0 with
    | Some v => Some v
    | None => Some 0
    end
  else idx pool (randInt 0 (len pool - 1) u).

Definition initCarouselWithHomeOrFallback (u : Q) (w : World.t) : World.t :=
  let s := state w in
  if negb (State.homeIndex s =? -1) then
    set_state
      (set_levelIndex (Some (State.homeIndex s))
         (set_carousel [Some (State.homeIndex s)] 0 s)) w
  else
    let startIdx := randInt 0 (len (levelData w) - 1) u in
    set_state
      (set_levelIndex (Some startIdx) (set_carousel [Some startIdx] 0 s)) w.

(** The remainder is JavaScript's [%] (sign of the dividend); the divisor
    is [carousel.length], which is positive whenever [allUsed] holds
    (lemma [allUsed_nonempty]). *)
Definition carouselMoveRight (u : Q) (w : World.t) : jsnum * World.t :=
  let s := state w in
  if len (levelData w) <=? 1 then (State.levelIndex s, w)
  else
    let nonHome := nonHomeIndices w in
    let allUsed := usedNonHomeCount w >=? len nonHome in
    if allUsed then
      let pos := Z.rem (State.carouselPos s + 1) (len (State.carousel s)) in
      (at_ (State.carousel s) pos, set_state (set_carouselPos pos s) w)
    else if State.carouselPos s <? len (State.carousel s) - 1 then
      let pos := State.carouselPos s + 1 in
      (at_ (State.carousel s) pos, set_state (set_carouselPos pos s) w)
    else
      let nextIdx := pickUnusedNonHomeLevelIndex u w in
      let c := State.carousel s ++ [nextIdx] in
      (nextIdx, set_state (set_carousel c (len c - 1) s) w).

Definition carouselMoveLeft (u : Q) (w : World.t) : jsnum * World.t :=
  let s := state w in
  if len (levelData w) <=? 1 then (State.levelIndex s, w)
  else
    let nonHome := nonHomeIndices w in
    let allUsed := usedNonHomeCount w >=? len nonHome in
    if allUsed then
      let pos := Z.rem (State.carouselPos s - 1 + len (State.carousel s))
                       (len (State.carousel s)) in
      (at_ (State.carousel s) pos, set_state (set_carouselPos pos s) w)
    else if State.carouselPos s >? 0 then
      let pos := State.carouselPos s - 1 in
      (at_ (State.carousel s) pos, set_state (set_carouselPos pos s) w)
    else
      let prevIdx := pickUnusedNonHomeLevelIndex u w in
      (prevIdx, set_state (set_carousel (prevIdx :: State.carousel s) 0 s) w).


(** ** Constants *)

Definition FLOOR_Y : Z := 600.
Definition SPRITES_idle_fps : Z := 6.
Definition SPRITES_walk_fps : Z := 12.
Definition SPRITE_SCALE : Q := 34 # 100.
Definition FEET_FUDGE_PX : Z := 0.
Definition WALK_BOB_PX : Z := 0.
Definition BG_ZOOM : Q := 105 # 100.
Definition FG_ZOOM : Q := 102 # 100.
Definition BG_FOLLOW : Q := 25 # 1000.
Definition FG_FOLLOW : Q := 55 # 100.
Definition MAX_PAN_PX : Q := 55.
Definition DEFAULT_LAYER_FPS : Q := 12.

(** ** Player *)

(** Assignments to the fields of [player]. *)
Definition set_x (v : Q) (p : Player.t) : Player.t :=
  {| Player.x := v; Player.speed := Player.speed p;
     Player.visible := Player.visible p; Player.facing := Player.facing p;
     Player.anim := Player.anim p; Player.frameIndex := Player.frameIndex p;
     Player.frameTimer := Player.frameTimer p;
     Player.renderW := Player.renderW p; Player.renderH := Player.renderH p |}.

Definition set_visible (v : bool) (p : Player.t) : Player.t :=
  {| Player.x := Player.x p; Player.speed := Player.speed p;
     Player.visible := v; Player.facing := Player.facing p;
     Player.anim := Player.anim p; Player.frameIndex := Player.frameIndex p;
     Player.frameTimer := Player.frameTimer p;
     Player.renderW := Player.renderW p; Player.renderH := Player.renderH p |}.

Definition set_facing (v : Z) (p : Player.t) : Player.t :=
  {| Player.x := Player.x p; Player.speed := Player.speed p;
     Player.visible := Player.visible p; Player.facing := v;
     Player.anim := Player.anim p; Player.frameIndex := Player.frameIndex p;
     Player.frameTimer := Player.frameTimer p;
     Player.renderW := Player.renderW p; Player.renderH := Player.renderH p |}.

Definition set_anim (v : Anim) (p : Player.t) : Player.t :=
  {| Player.x := Player.x p; Player.speed := Player.speed p;
     Player.visible := Player.visible p; Player.facing := Player.facing p;
     Player.anim := v; Player.frameIndex := Player.frameIndex p;
     Player.frameTimer := Player.frameTimer p;
     Player.renderW := Player.renderW p; Player.renderH := Player.renderH p |}.

Definition set_frameIndex (v : Z) (p : Player.t) : Player.t :=
  {| Player.x := Player.x p; Player.speed := Player.speed p;
     Player.visible := Player.visible p; Player.facing := Player.facing p;
     Player.anim := Player.anim p; Player.frameIndex := v;
     Player.frameTimer := Player.frameTimer p;
     Player.renderW := Player.renderW p; Player.renderH := Player.renderH p |}.

Definition set_frameTimer (v : Q) (p : Player.t) : Player.t :=
  {| Player.x := Player.x p; Player.speed := Player.speed p;
     Player.visible := Player.visible p; Player.facing := Player.facing p;
     Player.anim := Player.anim p; Player.frameIndex := Player.frameIndex p;
     Player.frameTimer := v;
     Player.renderW := Player.renderW p; Player.renderH := Player.renderH p |}.

Definition Anim_eqb (a b : Anim) : bool :=
  match a, b with
  | Idle, Idle | Walk, Walk => true
  | _, _ => false
  end.

Definition setAnim (next : Anim) (w : World.t) : World.t :=
  if Anim_eqb (Player.anim (player w)) next then w
  else
    set_player
      (set_frameTimer 0 (set_frameIndex 0 (set_anim next (player w)))) w.

(** Returns hero position normalized to [[-1, +1]]; [W] is [canvas.width]. *)
Definition getHeroNormalizedX (W : Z) (w : World.t) : Q :=
  let range := inject_Z (Z.max 1 (W - Player.renderW (player w))) in
  let t := clamp (Player.x (player w) / range) 0 1 in
  (t * 2 - 1)%Q.

(** ** Canvas *)

Inductive DrawCmd :=
| clearRect (x y w h : Q)
| drawImage (img : Image) (x y w h : Q)
| save
| restore
| translate (x y : Q)
| scale (x y : Q).

(** The local [maxPan] of [drawZoomPanFollow]. *)
Definition maxPan (W : Z) (zoom : Q) : Q :=
  let drawW := (inject_Z W * zoom)%Q in
  let maxFromZoom := ((drawW - inject_Z W) / 2)%Q in
  Qmin maxFromZoom MAX_PAN_PX.

(** The local [pan] of [drawZoomPanFollow]. *)
Definition pan (W : Z) (zoom followStrength : Q) (w : World.t) : Q :=
  let heroN := getHeroNormalizedX W w in
  clamp (heroN * maxPan W zoom * clamp followStrength 0 1)
        (- maxPan W zoom) (maxPan W zoom).

(** Zoom+pan draw (background, true foreground, bg-aligned layers); [W] and
    [H] are the canvas width and height. *)
Definition drawZoomPanFollow (W H : Z) (img : option Image)
    (zoom followStrength : Q) (w : World.t) : list DrawCmd :=
  match img with
  | None => []
  | Some img =>
      let drawW := (inject_Z W * zoom)%Q in
      let drawH := (inject_Z H * zoom)%Q in
      let x := (- (drawW - inject_Z W) / 2 + pan W zoom followStrength w)%Q in
      let y := (- (drawH - inject_Z H) / 2)%Q in
      [drawImage img x y drawW drawH]
  end.

(** ** Rendering *)

(** [levelAssets.get(k)] and [levelAssets.set(k, v)]; a key is a string or
    [undefined]. *)
Definition key_eqb (a b : option string) : bool :=
  match a, b with
  | Some x, Some y => String.eqb x y
  | None, None => true
  | _, _ => false
  end.

Fixpoint Map_get {V} (k : option string) (m : list (option string * V))
  : option V :=
  match m with
  | [] => None
  | (k', v) :: m' => if key_eqb k k' then Some v else Map_get k m'
  end.

Fixpoint Map_set {V} (k : option string) (v : V)
    (m : list (option string * V)) : list (option string * V) :=
  match m with
  | [] => [(k, v)]
  | (k', v') :: m' =>
      if key_eqb k k' then (k, v) :: m' else (k', v') :: Map_set k v m'
  end.

(** [levelData[state.levelIndex]] *)
Definition currentLevel (w : World.t) : option Level.t :=
  match State.levelIndex (state w) with
  | Some i => idx (levelData w) i
  | None => None
  end.

Definition currentLevelAssets (w : World.t) : option Assets.t :=
  match currentLevel w with
  | None => None
  | Some lvl => Map_get (Level.id lvl) (levelAssets w)
  end.

Definition drawBackground (W H : Z) (w : World.t) : list DrawCmd :=
  match currentLevelAssets w with
  | None => []
  | Some assets =>
      drawZoomPanFollow W H (Some (Assets.bgImg assets)) BG_ZOOM BG_FOLLOW w
  end.

Definition drawForeground (W H : Z) (w : World.t) : list DrawCmd :=
  match currentLevelAssets w with
  | None => []
  | Some assets =>
      match Assets.fgImg assets with
      | None => []
      | Some img => drawZoomPanFollow W H (Some img) FG_ZOOM FG_FOLLOW w
      end
  end.

(** The [while] loop of [drawOptionalLayerAsset]:
    [while (timer >= spf) { timer -= spf; frameIndex = (frameIndex + 1) % n }],
    unrolled at most [fuel] times.  Numbers are exact rationals here, where
    the program computes in doubles: when the timer is within a rounding
    error of a whole number of frame intervals, the program can take one
    turn more or one less than this loop.  The properties stated of the
    layers hold for any number of turns: the frame index is taken modulo
    [n] at every turn. *)
Fixpoint advanceFrames (fuel : nat) (spf : Q) (n : Z) (timer : Q)
    (frameIndex : Z) : Q * Z :=
  match fuel with
  | O => (timer, frameIndex)
  | S fuel' =>
      if Qle_bool spf timer then
        advanceFrames fuel' spf n (timer - spf)%Q (Z.rem (frameIndex + 1) n)
      else (timer, frameIndex)
  end.

(** Seconds per frame of a layer, [1 / Math.max(1, fps || DEFAULT_LAYER_FPS)]. *)
Definition layer_spf (fps : Q) : Q :=
  (1 / Qmax 1 (if Qeq_bool fps 0 then DEFAULT_LAYER_FPS else fps))%Q.

(** The number of turns the loop takes from [timer]: [spf] is positive, and
    every turn takes [spf] off the timer (lemma [advanceFrames_exits]). *)
Definition turns (spf timer : Q) : nat := Z.to_nat (Qfloor (timer / spf)).

(** Returns the layer with its animation advanced, and the draw calls. *)
Definition drawOptionalLayerAsset (W H : Z) (layerAsset : LayerAsset)
    (dt : Q) (w : World.t) : LayerAsset * list DrawCmd :=
  let place (img : option Image) (align : Align) :=
    match img with
    | None => []
    | Some img =>
        match align with
        | AlignBg => drawZoomPanFollow W H (Some img) BG_ZOOM BG_FOLLOW w
        | AlignScreen => [drawImage img 0 0 (inject_Z W) (inject_Z H)]
        end
    end in
  match layerAsset with
  | ImageLayer img align => (layerAsset, place (Some img) align)
  | FramesLayer frames fps timer frameIndex align =>
      if len frames =? 0 then (layerAsset, [])
      else
        let timer := (timer + dt)%Q in
        let spf := layer_spf fps in
        let '(timer, frameIndex) :=
          advanceFrames (turns spf timer) spf (len frames) timer frameIndex in
        (FramesLayer frames fps timer frameIndex align,
         place (idx frames frameIndex) align)
  end.

Inductive LayerKey := key_l1 | key_l2 | key_l3 | key_l4.

Definition get_layer (key : LayerKey) (a : Assets.t) : option LayerAsset :=
  match key with
  | key_l1 => Assets.l1 a
  | key_l2 => Assets.l2 a
  | key_l3 => Assets.l3 a
  | key_l4 => Assets.l4 a
  end.

Definition set_layer (key : LayerKey) (v : LayerAsset) (a : Assets.t)
  : Assets.t :=
  let pick k := if match key, k with
                   | key_l1, key_l1 | key_l2, key_l2
                   | key_l3, key_l3 | key_l4, key_l4 => true
                   | _, _ => false
                   end
                then Some v else get_layer k a in
  {| Assets.bgImg := Assets.bgImg a; Assets.fgImg := Assets.fgImg a;
     Assets.l1 := pick key_l1; Assets.l2 := pick key_l2;
     Assets.l3 := pick key_l3; Assets.l4 := pick key_l4 |}.

(** The layer object lives in the [levelAssets] entry of the current level
    and is advanced in place. *)
Definition drawLayerN (W H : Z) (key : LayerKey) (dt : Q) (w : World.t)
  : World.t * list DrawCmd :=
  match currentLevel w, currentLevelAssets w with
  | Some lvl, Some assets =>
      match get_layer key assets with
      | None => (w, [])
      | Some layerAsset =>
          let '(layerAsset', cmds) :=
            drawOptionalLayerAsset W H layerAsset dt w in
          (set_levelAssets
             (Map_set (Level.id lvl) (set_layer key layerAsset' assets)
                      (levelAssets w)) w,
           cmds)
      end
  | _, _ => (w, [])
  end.

Definition currentFrames (w : World.t) : list Image :=
  match Player.anim (player w) with
  | Walk => heroWalkFrames w
  | Idle => heroIdleFrames w
  end.

Definition currentFps (w : World.t) : Z :=
  match Player.anim (player w) with
  | Walk => SPRITES_walk_fps
  | Idle => SPRITES_idle_fps
  end.

(** [WALK_BOB_PX] is [0], which disables the walk bob: [walkBob] stays [0]. *)
Definition drawPlayer (w : World.t) : World.t * list DrawCmd :=
  if negb (Player.visible (player w)) then (w, [])
  else
    let frames := currentFrames w in
    if len frames =? 0 then (w, [])
    else
      let w :=
        set_player
          (set_frameIndex (Z.rem (Player.frameIndex (player w)) (len frames))
                          (player w)) w in
      match idx frames (Player.frameIndex (player w)) with
      | None => (w, [])
      | Some img =>
          let drawW := Math_round (inject_Z (width img) * SPRITE_SCALE) in
          let drawH := Math_round (inject_Z (height img) * SPRITE_SCALE) in
          let walkBob := 0 in
          let x := Math_round (Player.x (player w)) in
          let y :=
            Math_round (inject_Z (FLOOR_Y - drawH - FEET_FUDGE_PX + walkBob)) in
          (w,
           [save] ++
           (if Player.facing (player w) =? -1 then
              [translate (inject_Z (x + drawW)) 0; scale (-1) 1;
               drawImage img 0 (inject_Z y) (inject_Z drawW) (inject_Z drawH)]
            else
              [drawImage img (inject_Z x) (inject_Z y)
                         (inject_Z drawW) (inject_Z drawH)]) ++
           [restore])
      end.

(** ** Universe switching *)

Definition set_transition (tr : bool) (until : Q) (e : option Edge)
    (s : State.t) : State.t :=
  {| State.levelIndex := State.levelIndex s;
     State.transitioning := tr;
     State.transitionUntil := until;
     State.lastEdge := e;
     State.carousel := State.carousel s;
     State.carouselPos := State.carouselPos s;
     State.homeIndex := State.homeIndex s |}.

(** [now] is the value of [performance.now()]. *)
Definition triggerEdge (now : Q) (edge : Edge) (w : World.t) : World.t :=
  if State.transitioning (state w) then w
  else
    let w := set_state (set_transition true (now + 60) (Some edge) (state w)) w in
    set_player (set_visible false (player w)) w.

Definition isLeft (e : option Edge) : bool :=
  match e with Some EdgeLeft => true | _ => false end.

Definition finishTransition (W : Z) (u : Q) (w : World.t) : World.t :=
  let '(next, w) :=
    if isLeft (State.lastEdge (state w)) then carouselMoveLeft u w
    else carouselMoveRight u w in
  let w := set_state (set_levelIndex next (state w)) w in
  let w :=
    if isLeft (State.lastEdge (state w)) then
      set_player
        (set_facing (-1)
           (set_x (inject_Z (W - Player.renderW (player w) - 2)) (player w))) w
    else set_player (set_facing 1 (set_x 2 (player w))) w in
  let w := setAnim Idle w in
  let w := set_player (set_visible true (player w)) w in
  set_state
    (set_transition false (State.transitionUntil (state w))
                    (State.lastEdge (state w)) (state w)) w.

(** ** Loop *)

(** The body of [if (!state.transitioning) { ... }] in [loop], in its three
    steps.  First the input: velocity, facing and animation mode. *)
Definition held_vx (w : World.t) : Z :=
  let vx := 0 in
  let vx := if Input.left (input w) then vx - 1 else vx in
  let vx := if Input.right (input w) then vx + 1 else vx in
  vx.

Definition steady_input (w : World.t) : World.t :=
  let vx := held_vx w in
  let w :=
    if negb (vx =? 0) then
      set_player (set_facing (if vx >? 0 then 1 else -1) (player w)) w
    else w in
  setAnim (if vx =? 0 then Idle else Walk) w.

(** Then the position, clamped to the walkable range; reaching a bound
    triggers the edge.  [vx] is the velocity of the first step. *)
Definition steady_move (W : Z) (now dt : Q) (vx : Z) (w : World.t)
  : World.t :=
  let w :=
    set_player
      (set_x (Player.x (player w)
              + inject_Z vx * Player.speed (player w) * dt) (player w)) w in
  if Qle_bool (Player.x (player w)) 0 then
    triggerEdge now EdgeLeft (set_player (set_x 0 (player w)) w)
  else if Qle_bool (inject_Z (W - Player.renderW (player w)))
                   (Player.x (player w)) then
    triggerEdge now EdgeRight
      (set_player
         (set_x (inject_Z (W - Player.renderW (player w))) (player w)) w)
  else w.

(** Last the animation timer: one test, one frame at most. *)
Definition steady_animate (dt : Q) (w : World.t) : World.t :=
  let fps := currentFps w in
  let w :=
    set_player
      (set_frameTimer (Player.frameTimer (player w) + dt) (player w)) w in
  if Qle_bool (1 / inject_Z fps) (Player.frameTimer (player w)) then
    let w :=
      set_player
        (set_frameTimer (Player.frameTimer (player w) - 1 / inject_Z fps)
                        (player w)) w in
    let framesLen :=
      if len (currentFrames w) =? 0 then 1 else len (currentFrames w) in
    set_player
      (set_frameIndex (Z.rem (Player.frameIndex (player w) + 1) framesLen)
                      (player w)) w
  else w.

Definition loop_steady (W : Z) (now dt : Q) (w : World.t) : World.t :=
  steady_animate dt (steady_move W now dt (held_vx w) (steady_input w)).

(** The drawing part of [loop], back to front. *)
Definition loop_draw (W H : Z) (dt : Q) (w : World.t)
  : World.t * list DrawCmd :=
  let c0 := [clearRect 0 0 (inject_Z W) (inject_Z H)] in
  let c1 := drawBackground W H w in
  let '(w, c2) := drawLayerN W H key_l1 dt w in
  let '(w, c3) := drawPlayer w in
  let '(w, c4) := drawLayerN W H key_l2 dt w in
  let '(w, c5) := drawLayerN W H key_l3 dt w in
  let '(w, c6) := drawLayerN W H key_l4 dt w in
  let c7 := drawForeground W H w in
  (w, c0 ++ c1 ++ c2 ++ c3 ++ c4 ++ c5 ++ c6 ++ c7).

(** The elapsed time of a tick, in seconds, clamped to 33 ms. *)
Definition tick_dt (t lastT : Q) : Q := Qmin (33 # 1000) ((t - lastT) / 1000).

(** One animation frame.  [t] is the timestamp the browser passes, [now] the
    value of [performance.now()] and [u] the value of [Math.random()], should
    the tick ask for them.  Returns the world after the tick and the calls
    made on the canvas; [requestAnimationFrame(loop)] schedules the next. *)
Definition loop (W H : Z) (t now u : Q) (w : World.t)
  : World.t * list DrawCmd :=
  let dt := tick_dt t (lastT w) in
  let w := set_lastT t w in
  let w :=
    if negb (State.transitioning (state w)) then loop_steady W now dt w
    else if Qle_bool (State.transitionUntil (state w)) now then
      finishTransition W u w
    else w in
  loop_draw W H dt w.

(** ** Loaders *)

(** The outside world of the loaders: what [fetch("data/levels.json")]
    yields, and which images load. *)
Inductive Fetched :=
| NetworkError                          (* [fetch] rejects *)
| HttpError (status : Z)                (* [!res.ok] *)
| InvalidJson                           (* [res.json()] rejects *)
| Json (levels : option (list Level.t)).
    (* the parsed document; [None] when [json.levels] is missing or is not an
       array *)

Module Env.
Record t := { fetchLevels : Fetched;
              loadImage : string -> option Image }.
End Env.

Inductive LoadError :=
| FetchFailed
| FetchNotOk (status : Z)
| JsonFailed
| NoLevelList   (* "data/levels.json must contain { levels: [ ... ] } ..." *)
| NoValidLevels (* "No valid levels loaded. Check backgrounds." *).

Inductive Result (A : Type) :=
| Ok (a : A)
| Throw (e : LoadError).
Arguments Ok {A} a.
Arguments Throw {A} e.

(** [s.toLowerCase()], on ASCII. *)
Definition lower_ascii (c : ascii) : ascii :=
  let n := nat_of_ascii c in
  if (65 <=? n)%nat && (n <=? 90)%nat then ascii_of_nat (n + 32) else c.

Fixpoint toLowerCase (s : string) : string :=
  match s with
  | EmptyString => EmptyString
  | String c s' => String (lower_ascii c) (toLowerCase s')
  end.

(** [s || d] for an optional string: an absent and an empty string are
    falsy. *)
Definition orElse (s : option string) (d : string) : string :=
  match s with
  | Some v => if String.eqb v "" then d else v
  | None => d
  end.

(** [String(v || d)] for an optional JSON value. *)
Definition textOr (v : option JsText) (d : string) : string :=
  match v with
  | Some (Str s) => if String.eqb s "" then d else s
  | Some (NonStr shown) => shown
  | None => d
  end.

Definition truthy (s : option string) : bool :=
  match s with
  | Some v => negb (String.eqb v "")
  | None => false
  end.

(** [String(i).padStart(2, "0")] for a positive [i]. *)
Definition pad2 (i : nat) : string :=
  let d := NilEmpty.string_of_uint (Nat.to_uint i) in
  if (String.length d <? 2)%nat then String.append "0" d else d.

(** Count-based loader for level frame layers: every frame must load. *)
Definition loadFrameSequenceCounted (env : Env.t) (folder : string)
    (count : Z) : option (list Image) :=
  fold_right
    (fun i acc =>
       match Env.loadImage env
               (String.append folder
                  (String.append "/frame_" (String.append (pad2 i) ".png"))),
             acc with
       | Some img, Some frames => Some (img :: frames)
       | _, _ => None
       end)
    (Some []) (seq 1 (Z.to_nat count)).

Definition loadOptionalLayer (env : Env.t) (layerSpec : option LayerSpec.t)
  : option LayerAsset :=
  match layerSpec with
  | None => None
  | Some layerSpec =>
      let type := toLowerCase (textOr (LayerSpec.type layerSpec) "frames") in
      let align := toLowerCase (orElse (LayerSpec.align layerSpec) "screen") in
      let safeAlign := if String.eqb align "bg" then AlignBg else AlignScreen in
      if String.eqb type "image" then
        if negb (truthy (LayerSpec.src layerSpec)) then None
        else
          match Env.loadImage env (orElse (LayerSpec.src layerSpec) "") with
          | Some img => Some (ImageLayer img safeAlign)
          | None => None
          end
      else if String.eqb type "frames" then
        let count := LayerSpec.count layerSpec in
        if count =? 0 then None
        else
          let fps :=
            match LayerSpec.fps layerSpec with
            | Some f => if Qeq_bool f 0 then DEFAULT_LAYER_FPS else f
            | None => DEFAULT_LAYER_FPS
            end in
          if negb (truthy (LayerSpec.folder layerSpec)) then None
          else
            match loadFrameSequenceCounted env
                    (orElse (LayerSpec.folder layerSpec) "") count with
            | Some frames => Some (FramesLayer frames fps 0 0 safeAlign)
            | None => None
            end
      else None
  end.

(** [a.findIndex(p)] *)
Fixpoint findIndex_from {A} (p : A -> bool) (a : list A) (i : Z) : Z :=
  match a with
  | [] => -1
  | v :: a' => if p v then i else findIndex_from p a' (i + 1)
  end.

Definition findIndex {A} (p : A -> bool) (a : list A) : Z :=
  findIndex_from p a 0.

(** The body of the [for (const lvl of json.levels)] loop of [loadLevels];
    the accumulator holds [loadedLevels] and [levelAssets]. *)
Definition loadLevel (env : Env.t)
    (acc : list Level.t * list (option string * Assets.t)) (lvl : Level.t)
  : list Level.t * list (option string * Assets.t) :=
  let '(loadedLevels, assets) := acc in
  let id := orElse (Level.id lvl) "(missing id)" in
  if negb (truthy (Level.background lvl)) then acc
  else
    match Env.loadImage env (orElse (Level.background lvl) "") with
    | None => acc
    | Some bgImg =>
        let fgImg :=
          if truthy (Level.foreground lvl) then
            Env.loadImage env (orElse (Level.foreground lvl) "")
          else None in
        let l1 := loadOptionalLayer env (Level.layer1 lvl) in
        let l2 := loadOptionalLayer env (Level.layer2 lvl) in
        let l3 := loadOptionalLayer env (Level.layer3 lvl) in
        let l4 := loadOptionalLayer env (Level.layer4 lvl) in
        (loadedLevels ++ [lvl],
         Map_set (Some id)
           {| Assets.bgImg := bgImg; Assets.fgImg := fgImg;
              Assets.l1 := l1; Assets.l2 := l2;
              Assets.l3 := l3; Assets.l4 := l4 |} assets)
    end.

(** [u] is the value of [Math.random()], should the start be drawn. *)
Definition loadLevels (env : Env.t) (u : Q) (w : World.t) : Result World.t :=
  match Env.fetchLevels env with
  | NetworkError => Throw FetchFailed
  | HttpError status => Throw (FetchNotOk status)
  | InvalidJson => Throw JsonFailed
  | Json None => Throw NoLevelList
  | Json (Some levels) =>
      if len levels =? 0 then Throw NoLevelList
      else
        let '(loadedLevels, assets) :=
          fold_left (loadLevel env) levels ([], levelAssets w) in
        if len loadedLevels =? 0 then Throw NoValidLevels
        else
          let w := set_levelAssets assets w in
          let w := set_levelData loadedLevels w in
          let w :=
            set_state
              (set_homeIndex (findIndex Level.isHome (levelData w)) (state w))
              w in
          Ok (initCarouselWithHomeOrFallback u w)
  end.

(** ** The initial world

    The module-level variables as the file declares them; [now] is the
    value of [performance.now()] that [lastT] starts from. *)
Definition initial_state : State.t :=
  {| State.levelIndex := Some 0;
     State.transitioning := false;
     State.transitionUntil := 0;
     State.lastEdge := None;
     State.carousel := [];
     State.carouselPos := 0;
     State.homeIndex := -1 |}.

Definition initial_player (W : Z) : Player.t :=
  {| Player.x := inject_Z (W / 2); Player.speed := 90;
     Player.visible := true; Player.facing := 1; Player.anim := Idle;
     Player.frameIndex := 0; Player.frameTimer := 0;
     Player.renderW := 26; Player.renderH := 56 |}.

Definition initial_world (W : Z) (now : Q) : World.t :=
  {| levelData := []; heroIdleFrames := []; heroWalkFrames := [];
     levelAssets := [];
     state := initial_state;
     player := initial_player W;
     input := {| Input.left := false; Input.right := false |};
     lastT := now |}.

(** ** Specification vocabulary *)

(** [state.homeIndex] as [findIndex] leaves it: [-1], or an index of
    [levelData]. *)
Definition home_ok (w : World.t) : Prop :=
  State.homeIndex (state w) = -1
  \/ 0 <= State.homeIndex (state w) < len (levelData w).

(** The carousel invariant: no level index twice in the history, a history
    no longer than the pool, and a cursor inside the history. *)
Definition carousel_inv (w : World.t) : Prop :=
  NoDup (State.carousel (state w))
  /\ len (State.carousel (state w)) <= len (levelData w)
  /\ 0 <= State.carouselPos (state w) < len (State.carousel (state w)).

(** [l] holds non-home level indices only. *)
Definition nonHomeOnly (w : World.t) (l : list jsnum) : Prop :=
  forall v, In v l -> exists i, v = Some i /\ In i (nonHomeIndices w).

(** Successive calls of [carouselMoveRight], one draw for each. *)
Fixpoint moveRightN (us : list Q) (w : World.t) : World.t :=
  match us with
  | [] => w
  | u :: us' => moveRightN us' (snd (carouselMoveRight u w))
  end.

Definition jsnum_eq_dec (a b : jsnum) : {a = b} + {a <> b}.
Proof. decide equality. apply Z.eq_dec. Defined.

(** ** Sample worlds *)

Definition sample_level (home : bool) : Level.t :=
  {| Level.id := Some (if home then "home" else "away")%string;
     Level.background := Some "bg.png"%string;
     Level.foreground := None;
     Level.layer1 := None; Level.layer2 := None;
     Level.layer3 := None; Level.layer4 := None;
     Level.isHome := home |}.

Definition sample_state (home : Z) (c : list jsnum) (pos : Z) : State.t :=
  {| State.levelIndex := at_ c pos;
     State.transitioning := false;
     State.transitionUntil := 0;
     State.lastEdge := None;
     State.carousel := c;
     State.carouselPos := pos;
     State.homeIndex := home |}.

Definition sample_player : Player.t :=
  {| Player.x := 400; Player.speed := 90; Player.visible := true;
     Player.facing := 1; Player.anim := Idle; Player.frameIndex := 0;
     Player.frameTimer := 0; Player.renderW := 26; Player.renderH := 56 |}.

Definition sample_image (name : string) : Image :=
  {| src := name; width := 76; height := 164 |}.

Definition sample_world (levels : list Level.t) (s : State.t) : World.t :=
  {| levelData := levels;
     heroIdleFrames := map sample_image ["i1"; "i2"; "i3"; "i4"]%string;
     heroWalkFrames :=
       map sample_image ["w1"; "w2"; "w3"; "w4"; "w5"; "w6"]%string;
     levelAssets := [];
     state := s;
     player := sample_player;
     input := {| Input.left := false; Input.right := false |};
     lastT := 0 |}.

(** Three levels, the second one home; nothing visited yet. *)
Definition world_3 : World.t :=
  sample_world [sample_level false; sample_level true; sample_level false]
               (sample_state 1 [] 0).

(** Five levels, the first one home; three visited, the cursor in the
    middle. *)
Definition world_5 : World.t :=
  sample_world [sample_level true; sample_level false; sample_level false;
                sample_level false; sample_level false]
               (sample_state 0 [Some 3; Some 0; Some 1] 1).

(** One level, no home. *)
Definition world_1 : World.t :=
  sample_world [sample_level false] (sample_state (-1) [Some 0] 0).

(** A world in the middle of a transition: the left edge was hit, the player
    is hidden. *)
Definition world_transitioning : World.t :=
  set_player (set_visible false (set_x 0 sample_player))
    (set_state (set_transition true 1060 (Some EdgeLeft)
                  (state world_5))
               world_5).

(** A steady world on the home level: idle, first frame, timer at [0], four
    idle frames; [lastT] is [0]. *)
Definition world_idle : World.t :=
  sample_world [sample_level true; sample_level false; sample_level false]
               (sample_state 0 [Some 0] 0).

(** ** Vocabulary of the loader *)

(** A level passes background validation: it names a background, and the
    image loads. *)
Definition usable (env : Env.t) (lvl : Level.t) : bool :=
  truthy (Level.background lvl)
  && match Env.loadImage env (orElse (Level.background lvl) "") with
     | Some _ => true
     | None => false
     end.

(** The level list of a config document that is there, parses and holds at
    least one level. *)
Definition config_levels (env : Env.t) : option (list Level.t) :=
  match Env.fetchLevels env with
  | Json (Some (lvl :: levels)) => Some (lvl :: levels)
  | _ => None
  end.

(** A level file of three levels: the first has no background that loads,
    the second is home and fine, the third has a foreground and a layer that
    do not load. *)
Definition sample_levels : list Level.t :=
  [ {| Level.id := Some "broken"%string;
       Level.background := Some "missing.png"%string;
       Level.foreground := None;
       Level.layer1 := None; Level.layer2 := None;
       Level.layer3 := None; Level.layer4 := None;
       Level.isHome := false |};
    sample_level true;
    {| Level.id := Some "bare"%string;
       Level.background := Some "bg.png"%string;
       Level.foreground := Some "missing.png"%string;
       Level.layer1 :=
         Some {| LayerSpec.type := Some (Str "sparkles");
                 LayerSpec.align := None; LayerSpec.src := None;
                 LayerSpec.folder := None; LayerSpec.count := 0;
                 LayerSpec.fps := None |};
       Level.layer2 :=
         Some {| LayerSpec.type := Some (Str "frames");
                 LayerSpec.align := Some "bg"%string; LayerSpec.src := None;
                 LayerSpec.folder := Some "nowhere"%string;
                 LayerSpec.count := 3; LayerSpec.fps := None |};
       Level.layer3 := None; Level.layer4 := None;
       Level.isHome := false |} ].

(** Only ["bg.png"] loads. *)
Definition sample_env : Env.t :=
  {| Env.fetchLevels := Json (Some sample_levels);
     Env.loadImage :=
       fun s => if String.eqb s "bg.png" then Some (sample_image s)
                else None |}.

(** The world before the loaders run, on a canvas 800 wide. *)
Definition world_boot : World.t := initial_world 800 0.

(** ** The predecessor loader

    [src/main.js] holds an earlier version of the program: levels have two
    optional layers, of frames only and drawn on the screen, and there is no
    carousel: the start level is the debug override or a random index. *)
Module MainJs.

(** What a call of [loadOptionalLayer] comes to: the promise resolves, or the
    call throws a [TypeError]. *)
Inductive Settled (A : Type) :=
| Resolved (a : A)
| TypeError.
Arguments Resolved {A} a.
Arguments TypeError {A}.

(** [(layerSpec.type || "frames").toLowerCase()] is called on the value as
    it is: a truthy value that is not a string has no [toLowerCase], and the
    call throws. *)
Definition loadOptionalLayer (env : Env.t) (layerSpec : option LayerSpec.t)
  : Settled (option LayerAsset) :=
  match layerSpec with
  | None => Resolved None
  | Some layerSpec =>
      match LayerSpec.type layerSpec with
      | Some (NonStr _) => TypeError
      | _ =>
          let type :=
            toLowerCase (textOr (LayerSpec.type layerSpec) "frames") in
          if String.eqb type "frames" then
            let count := LayerSpec.count layerSpec in
            if count =? 0 then Resolved None
            else
              let fps :=
                match LayerSpec.fps layerSpec with
                | Some f => if Qeq_bool f 0 then DEFAULT_LAYER_FPS else f
                | None => DEFAULT_LAYER_FPS
                end in
              if negb (truthy (LayerSpec.folder layerSpec)) then Resolved None
              else
                match loadFrameSequenceCounted env
                        (orElse (LayerSpec.folder layerSpec) "") count with
                | Some frames =>
                    Resolved (Some (FramesLayer frames fps 0 0 AlignScreen))
                | None => Resolved None
                end
          else Resolved None
      end
  end.

(** [getDebugStartLevelIndex()]; [n] is the number [parseInt] reads from the
    [level] parameter of the URL, [None] when [debug] is not ["true"], the
    parameter is missing or it is not a number. *)
Definition getDebugStartLevelIndex (n : option Z) (w : World.t) : option Z :=
  match n with
  | None => None
  | Some n =>
      if n <? 1 then None
      else
        let idx := n - 1 in
        if idx >=? len (levelData w) then None else Some idx
  end.

Definition loadLevel (env : Env.t)
    (acc : list Level.t * list (option string * Assets.t)) (lvl : Level.t)
  : list Level.t * list (option string * Assets.t) :=
  let '(loadedLevels, assets) := acc in
  if negb (truthy (Level.background lvl)) then acc
  else
    match Env.loadImage env (orElse (Level.background lvl) "") with
    | None => acc
    | Some bgImg =>
        let fgImg :=
          if truthy (Level.foreground lvl) then
            Env.loadImage env (orElse (Level.foreground lvl) "")
          else None in
        (* the [catch] of the level takes what the layers throw *)
        match loadOptionalLayer env (Level.layer1 lvl) with
        | TypeError => acc
        | Resolved l1 =>
            match loadOptionalLayer env (Level.layer2 lvl) with
            | TypeError => acc
            | Resolved l2 =>
                (loadedLevels ++ [lvl],
                 Map_set (Level.id lvl)
                   {| Assets.bgImg := bgImg; Assets.fgImg := fgImg;
                      Assets.l1 := l1; Assets.l2 := l2;
                      Assets.l3 := None; Assets.l4 := None |} assets)
            end
        end
    end.

Definition loadLevels (env : Env.t) (debug : option Z) (u : Q) (w : World.t)
  : Result World.t :=
  match Env.fetchLevels env with
  | NetworkError => Throw FetchFailed
  | HttpError status => Throw (FetchNotOk status)
  | InvalidJson => Throw JsonFailed
  | Json None => Throw NoLevelList
  | Json (Some levels) =>
      if len levels =? 0 then Throw NoLevelList
      else
        let '(loadedLevels, assets) :=
          fold_left (loadLevel env) levels ([], levelAssets w) in
        if len loadedLevels =? 0 then Throw NoValidLevels
        else
          let w := set_levelAssets assets w in
          let w := set_levelData loadedLevels w in
          let debugIdx := getDebugStartLevelIndex debug w in
          Ok (set_state
                (set_levelIndex
                   (match debugIdx with
                    | Some i => Some i
                    | None => Some (randInt 0 (len (levelData w) - 1) u)
                    end) (state w)) w)
  end.

End MainJs.

(** [w'] has the pool and the carousel of [w]. *)
Definition same_carousel (w w' : World.t) : Prop :=
  levelData w' = levelData w
  /\ State.carousel (state w') = State.carousel (state w)
  /\ State.carouselPos (state w') = State.carouselPos (state w)
  /\ State.homeIndex (state w') = State.homeIndex (state w).

(** ** The hero sprites *)

Definition SPRITES_idle_folder : string := "assets/sprites/hero_idle".
Definition SPRITES_walk_folder : string := "assets/sprites/hero_walk".

Definition set_render (rw rh : Z) (p : Player.t) : Player.t :=
  {| Player.x := Player.x p; Player.speed := Player.speed p;
     Player.visible := Player.visible p; Player.facing := Player.facing p;
     Player.anim := Player.anim p; Player.frameIndex := Player.frameIndex p;
     Player.frameTimer := Player.frameTimer p;
     Player.renderW := rw; Player.renderH := rh |}.

Definition set_heroFrames (idle walk : list Image) (w : World.t) : World.t :=
  {| levelData := levelData w; heroIdleFrames := idle;
     heroWalkFrames := walk; levelAssets := levelAssets w;
     state := state w; player := player w; input := input w;
     lastT := lastT w |}.

(** [s.padStart(pad, "0")] *)
Fixpoint zeros (n : nat) (s : string) : string :=
  match n with
  | O => s
  | S n' => String "0" (zeros n' s)
  end.

Definition padStart (pad : nat) (s : string) : string :=
  zeros (pad - String.length s) s.

(** [`${folder}/${prefix}${String(i).padStart(pad, "0")}.png`] *)
Definition frameSrc (folder prefix : string) (pad i : nat) : string :=
  String.append folder
    (String.append "/"
       (String.append prefix
          (String.append
             (padStart pad (NilEmpty.string_of_uint (Nat.to_uint i)))
             ".png"))).

(** The state of a promise: fulfilled, rejected, or not settled yet. *)
Inductive Loaded (A : Type) :=
| Ready (a : A)
| Rejected
| Pending.
Arguments Ready {A} a.
Arguments Rejected {A}.
Arguments Pending {A}.

(** The [while (true)] loop of [loadFrameSequenceAuto]: frames [i], [i + 1],
    ... are loaded until one is missing; [None] when the loop has not left
    after [fuel] frames. *)
Fixpoint autoFrames (fuel : nat) (env : Env.t) (folder prefix : string)
    (pad i : nat) : option (list Image) :=
  match fuel with
  | O => None
  | S fuel' =>
      match Env.loadImage env (frameSrc folder prefix pad i) with
      | Some img =>
          match autoFrames fuel' env folder prefix pad (S i) with
          | Some frames => Some (img :: frames)
          | None => None
          end
      | None => Some []
      end
  end.

(** Auto-detect hero frames: [folder/frame_01.png], [frame_02.png], ...
    until missing; rejects when there is none. *)
Definition loadFrameSequenceAuto (fuel : nat) (env : Env.t)
    (folder prefix : string) (start pad : nat) : Loaded (list Image) :=
  match autoFrames fuel env folder prefix pad start with
  | None => Pending
  | Some frames => if len frames =? 0 then Rejected else Ready frames
  end.

(** [Promise.all] of the two sequences, then the render footprint from the
    first idle frame and the position clamped to the walkable range. *)
Definition loadSprites (fuel : nat) (env : Env.t) (W : Z) (w : World.t)
  : Loaded World.t :=
  match loadFrameSequenceAuto fuel env SPRITES_idle_folder "frame_" 1 2,
        loadFrameSequenceAuto fuel env SPRITES_walk_folder "frame_" 1 2 with
  | Rejected, _ | _, Rejected => Rejected
  | Ready idle, Ready walk =>
      let w := set_heroFrames idle walk w in
      match idx (heroIdleFrames w) 0 with
      | None => Rejected  (* [base.width] of [undefined] throws *)
      | Some base =>
          let rw := Math_round (inject_Z (width base) * SPRITE_SCALE) in
          let rh := Math_round (inject_Z (height base) * SPRITE_SCALE) in
          let w := set_player (set_render rw rh (player w)) w in
          Ready
            (set_player
               (set_x (clamp (Player.x (player w)) 0
                             (inject_Z (W - Player.renderW (player w))))
                      (player w)) w)
      end
  | _, _ => Pending
  end.

(** ** More of the predecessor: its transition *)

(** [finishTransition] of [src/main.js]: the next level is a random index,
    drawn with replacement. *)
Definition MainJs_finishTransition (W : Z) (u : Q) (w : World.t) : World.t :=
  let w :=
    set_state
      (set_levelIndex (Some (randInt 0 (len (levelData w) - 1) u)) (state w))
      w in
  let w :=
    if isLeft (State.lastEdge (state w)) then
      set_player
        (set_facing (-1)
           (set_x (inject_Z (W - Player.renderW (player w) - 2)) (player w))) w
    else set_player (set_facing 1 (set_x 2 (player w))) w in
  let w := setAnim Idle w in
  let w := set_player (set_visible true (player w)) w in
  set_state
    (set_transition false (State.transitionUntil (state w))
                    (State.lastEdge (state w)) (state w)) w.

(** ** More vocabulary *)

(** Every level of the pool but the home level is in the history. *)
Definition allUsed (w : World.t) : Prop :=
  usedNonHomeCount w >= len (nonHomeIndices w).

(** Successive calls of [carouselMoveLeft], one draw for each. *)
Fixpoint moveLeftN (us : list Q) (w : World.t) : World.t :=
  match us with
  | [] => w
  | u :: us' => moveLeftN us' (snd (carouselMoveLeft u w))
  end.

(** Every entry of the history is an index of the pool. *)
Definition entries_ok (w : World.t) : Prop :=
  forall v, In v (State.carousel (state w)) ->
            exists i, v = Some i /\ 0 <= i < len (levelData w).

(** The state of a running carousel: the home index is as [findIndex] leaves
    it, the carousel invariant holds, the history holds indices of the pool,
    and the current level is the entry under the cursor. *)
Definition run_ok (w : World.t) : Prop :=
  home_ok w /\ carousel_inv w /\ entries_ok w
  /\ State.levelIndex (state w)
     = at_ (State.carousel (state w)) (State.carouselPos (state w)).

(** Three levels, the second one home, all visited; the cursor at the
    end. *)
Definition world_ring : World.t :=
  sample_world [sample_level false; sample_level true; sample_level false]
               (sample_state 1 [Some 1; Some 2; Some 0] 2).

(** ** Runs *)

Definition set_input (i : Input.t) (w : World.t) : World.t :=
  {| levelData := levelData w; heroIdleFrames := heroIdleFrames w;
     heroWalkFrames := heroWalkFrames w; levelAssets := levelAssets w;
     state := state w; player := player w; input := i; lastT := lastT w |}.

(** What one animation frame gets from outside: the keys held when it
    starts (the key listeners write [input] between frames), its timestamp,
    the clock and the random draw. *)
Module Tick.
Record t := { keys : Input.t; time : Q; now : Q; draw : Q }.
End Tick.

(** The frames of a run, in order; the draw calls are dropped. *)
Fixpoint run (W H : Z) (ticks : list Tick.t) (w : World.t) : World.t :=
  match ticks with
  | [] => w
  | k :: ticks' =>
      run W H ticks'
          (fst (loop W H (Tick.time k) (Tick.now k) (Tick.draw k)
                     (set_input (Tick.keys k) w)))
  end.

(** The sample level file loaded into the initial world. *)
Definition world_loaded : World.t :=
  match loadLevels sample_env (1 # 2) world_boot with
  | Ok w => w
  | Throw _ => world_boot
  end.

(** Three frames: the right key held for two of them, then released. *)
Definition sample_ticks : list Tick.t :=
  [ {| Tick.keys := {| Input.left := false; Input.right := true |};
       Tick.time := 16; Tick.now := 16; Tick.draw := 1 # 2 |};
    {| Tick.keys := {| Input.left := false; Input.right := true |};
       Tick.time := 33; Tick.now := 33; Tick.draw := 1 # 3 |};
    {| Tick.keys := {| Input.left := false; Input.right := false |};
       Tick.time := 200; Tick.now := 200; Tick.draw := 0 |} ].

(** The idle world with the player one pixel from the right bound of a
    canvas 800 wide, the right key held. *)
Definition world_near_right : World.t :=
  set_input {| Input.left := false; Input.right := true |}
    (set_player (set_x 773 sample_player) world_idle).

(** ** More of the loaders' vocabulary *)

(** The URL of frame [i] of a counted sequence,
    [`${folder}/frame_${String(i).padStart(2, "0")}.png`]. *)
Definition countedSrc (folder : string) (i : nat) : string :=
  String.append folder
    (String.append "/frame_" (String.append (pad2 i) ".png")).

(** Two idle frames and one walk frame are on the server. *)
Definition sprite_env : Env.t :=
  {| Env.fetchLevels := Json (Some sample_levels);
     Env.loadImage :=
       fun s =>
         if String.eqb s "assets/sprites/hero_idle/frame_01.png"
            || String.eqb s "assets/sprites/hero_idle/frame_02.png"
            || String.eqb s "assets/sprites/hero_walk/frame_01.png"
         then Some (sample_image s) else None |}.

(** A server that answers every request with an image. *)
Definition generous_env : Env.t :=
  {| Env.fetchLevels := Json (Some sample_levels);
     Env.loadImage := fun s => Some (sample_image s) |}.

(** The key under which [loadLevels] files the assets of a level,
    [lvl.id || "(missing id)"]. *)
Definition assetKey (lvl : Level.t) : option string :=
  Some (orElse (Level.id lvl) "(missing id)").

(** Every entry of the asset map meets [P]. *)
Definition entries (P : option string -> Assets.t -> Prop)
    (m : list (option string * Assets.t)) : Prop :=
  forall k a, In (k, a) m -> P k a.

(** Every key of the asset map is a string that is not empty. *)
Definition keys_truthy (m : list (option string * Assets.t)) : Prop :=
  entries (fun k _ => truthy k = true) m.

(** The frame index of a frames layer is an index of its frames, when it has
    frames. *)
Definition layer_ok (l : LayerAsset) : Prop :=
  match l with
  | ImageLayer _ _ => True
  | FramesLayer frames _ _ frameIndex _ =>
      frames = [] \/ 0 <= frameIndex < len frames
  end.

Definition layers_ok (m : list (option string * Assets.t)) : Prop :=
  entries (fun _ a => forall key l, get_layer key a = Some l -> layer_ok l) m.

(** A level file whose only level has no id. *)
Definition anon_level : Level.t :=
  {| Level.id := None;
     Level.background := Some "bg.png"%string;
     Level.foreground := None;
     Level.layer1 := None; Level.layer2 := None;
     Level.layer3 := None; Level.layer4 := None;
     Level.isHome := true |}.

Definition anon_env : Env.t :=
  {| Env.fetchLevels := Json (Some [anon_level]);
     Env.loadImage := fun s => Some (sample_image s) |}.

(** A level file of one level with a layer of three frames, all there. *)
Definition layered_level : Level.t :=
  {| Level.id := Some "layered"%string;
     Level.background := Some "bg.png"%string;
     Level.foreground := None;
     Level.layer1 :=
       Some {| LayerSpec.type := None; LayerSpec.align := None;
               LayerSpec.src := None;
               LayerSpec.folder := Some "fx"%string;
               LayerSpec.count := 3; LayerSpec.fps := None |};
     Level.layer2 := None; Level.layer3 := None; Level.layer4 := None;
     Level.isHome := true |}.

Definition layered_env : Env.t :=
  {| Env.fetchLevels := Json (Some [layered_level]);
     Env.loadImage := fun s => Some (sample_image s) |}.

(** Every level the loop has kept has an entry under its key, with the
    background of a kept level of that key. *)
Definition filed (env : Env.t)
    (acc : list Level.t * list (option string * Assets.t)) : Prop :=
  forall lvl, In lvl (fst acc) ->
    exists a lvl2,
      Map_get (assetKey lvl) (snd acc) = Some a
      /\ In lvl2 (fst acc) /\ assetKey lvl2 = assetKey lvl
      /\ Env.loadImage env (orElse (Level.background lvl2) "")
         = Some (Assets.bgImg a).

(** ** Boot *)

(** [Promise.all([loadLevels(), loadSprites()])]: the loop starts when both
    loaders have resolved, the error screen is shown when one of them
    rejects.  The two loaders write different variables ([loadLevels] the
    pool, the asset map and the state, [loadSprites] the hero frames and the
    player), so they are run one after the other here; the order
    does not matter. *)
Definition boot (fuel : nat) (env : Env.t) (W : Z) (u : Q) (w : World.t)
  : Loaded World.t :=
  match loadLevels env u w with
  | Throw _ => Rejected
  | Ok w1 => loadSprites fuel env W w1
  end.

(** What every frame relies on: there is a current level, each animation
    mode has frames and the frame index of the player points at one, the
    frame timer is below the frame interval, the player stands inside the
    walkable range, which is two pixels wide or more, the frame index of
    every layer is inside its frames, and the keys of the asset map are
    strings that are not empty. *)
Definition safe (W : Z) (w : World.t) : Prop :=
  run_ok w
  /\ 0 < len (heroIdleFrames w) /\ 0 < len (heroWalkFrames w)
  /\ 0 <= Player.frameIndex (player w) < len (currentFrames w)
  /\ (Player.frameTimer (player w) < 1 / inject_Z (currentFps w))%Q
  /\ 2 <= W - Player.renderW (player w)
  /\ (0 <= Player.x (player w)
      /\ Player.x (player w) <= inject_Z (W - Player.renderW (player w)))%Q
  /\ layers_ok (levelAssets w)
  /\ keys_truthy (levelAssets w).

(** The sample level file, its background and three hero frames are on the
    server. *)
Definition boot_env : Env.t :=
  {| Env.fetchLevels := Env.fetchLevels sample_env;
     Env.loadImage :=
       fun s =>
         match Env.loadImage sample_env s with
         | Some img => Some img
         | None => Env.loadImage sprite_env s
         end |}.

(** The world the sample boot hands to the loop. *)
Definition world_booted : World.t :=
  match boot 3 boot_env 800 (1 # 2) (initial_world 800 0) with
  | Ready w => w
  | _ => initial_world 800 0
  end.

(** ** More of the predecessor: what it keeps *)



(** A level file of one level, whose background loads and whose first layer
    has the number [5] for a type. *)
Definition numeric_level : Level.t :=
  {| Level.id := Some "a"%string;
     Level.background := Some "bg.png"%string;
     Level.foreground := None;
     Level.layer1 :=
       Some {| LayerSpec.type := Some (NonStr "5");
               LayerSpec.align := None; LayerSpec.src := None;
               LayerSpec.folder := None; LayerSpec.count := 0;
               LayerSpec.fps := None |};
     Level.layer2 := None; Level.layer3 := None; Level.layer4 := None;
     Level.isHome := false |}.

Definition numeric_env : Env.t :=
  {| Env.fetchLevels := Json (Some [numeric_level]);
     Env.loadImage := Env.loadImage sample_env |}.

(** ** The first frame *)

(** The images of the [drawImage] calls, in the order of the calls. *)
Definition drawn (cmds : list DrawCmd) : list Image :=
  flat_map (fun c => match c with
                     | drawImage img _ _ _ _ => [img]
                     | _ => []
                     end) cmds.

(** A level file whose only level is home and has no id; its background and
    three hero frames are on the server. *)
Definition anon_boot_env : Env.t :=
  {| Env.fetchLevels := Json (Some [anon_level]);
     Env.loadImage := Env.loadImage boot_env |}.

(** The world that boot hands to the loop. *)
Definition world_anon : World.t :=
  match boot 3 anon_boot_env 800 (1 # 2) (initial_world 800 0) with
  | Ready w => w
  | _ => initial_world 800 0
  end.
(** * Properties *)

(** ** Arrays *)

Lemma len_nonneg {A} (a : list A) : 0 <= len a.
Proof. unfold len. lia. Qed.

Lemma len_app {A} (a b : list A) : len (a ++ b) = len a + len b.
Proof. unfold len. rewrite length_app. lia. Qed.

Lemma len_cons {A} (v : A) (a : list A) : len (v :: a) = len a + 1.
Proof. unfold len. simpl length. lia. Qed.

Lemma idx_Some_In {A} (a : list A) i v : idx a i = Some v -> In v a.
Proof.
  unfold idx. destruct (i <? 0); [discriminate|].
  apply nth_error_In.
Qed.

Lemma idx_in_range {A} (a : list A) i :
  0 <= i < len a -> exists v, idx a i = Some v.
Proof.
  unfold idx, len. intros Hi.
  destruct (Z.ltb_spec i 0) as [Hneg|_]; [lia|].
  destruct (nth_error a (Z.to_nat i)) as [v|] eqn:E; [now exists v|].
  apply nth_error_None in E. lia.
Qed.

Lemma at_In (a : list jsnum) i : 0 <= i < len a -> In (at_ a i) a.
Proof.
  intros Hi. unfold at_.
  destruct (idx_in_range a i Hi) as [v Hv]. rewrite Hv.
  eapply idx_Some_In; eauto.
Qed.

Lemma jsnum_eqb_eq a b : jsnum_eqb a b = true <-> a = b.
Proof.
  destruct a as [x|], b as [y|]; simpl; split; intros E;
    try discriminate; try reflexivity.
  - apply Z.eqb_eq in E. now subst.
  - injection E as ->. apply Z.eqb_refl.
Qed.

Lemma has_In a v : has a v = true <-> In v a.
Proof.
  unfold has. rewrite existsb_exists. split.
  - intros [y [Hy E]]. apply jsnum_eqb_eq in E. now subst.
  - intros Hv. exists v. split; [assumption|]. now apply jsnum_eqb_eq.
Qed.

Lemma has_false a v : has a v = false <-> ~ In v a.
Proof.
  rewrite <- has_In. destruct (has a v); split; congruence.
Qed.

(** ** Random draws *)

Lemma randInt_range n u :
  unit_draw u -> 0 < n -> 0 <= randInt 0 (n - 1) u < n.
Proof.
  intros [H0 H1] Hn. unfold randInt.
  replace (n - 1 - 0 + 1) with n by lia. rewrite Z.add_0_r.
  assert (Hq : (0 < inject_Z n)%Q).
  { replace 0%Q with (inject_Z 0) by reflexivity. now rewrite <- Zlt_Qlt. }
  split.
  - replace 0 with (Qfloor (inject_Z 0)) by apply Qfloor_Z.
    apply Qfloor_resp_le. simpl inject_Z.
    apply Qmult_le_0_compat; [assumption | now apply Qlt_le_weak].
  - assert (Hlt : (u * inject_Z n < inject_Z n)%Q).
    { rewrite <- (Qmult_1_l (inject_Z n)) at 2.
      apply Qmult_lt_compat_r; assumption. }
    pose proof (Qfloor_le (u * inject_Z n)) as Hfl.
    rewrite Zlt_Qlt. eapply Qle_lt_trans; eassumption.
Qed.

(** ** Lists *)

Section Filter.
Context {A : Type}.
Variable p : A -> bool.

Lemma filter_nil_all l :
  (forall y, In y l -> p y = false) -> filter p l = [].
Proof.
  induction l as [|a l IH]; intros Hall; simpl; [reflexivity|].
  rewrite (Hall a (or_introl eq_refl)). apply IH.
  intros y Hy. apply Hall. now right.
Qed.

Lemma filter_nil_inv l :
  filter p l = [] -> forall y, In y l -> p y = false.
Proof.
  intros E y Hy. destruct (p y) eqn:Ey; [|reflexivity].
  assert (Hin : In y (filter p l)) by (apply filter_In; now split).
  rewrite E in Hin. contradiction.
Qed.

Lemma filter_nil_existsb l : filter p l = [] <-> existsb p l = false.
Proof.
  induction l as [|a l IH]; simpl; [tauto|].
  destruct (p a); simpl; [split; discriminate | exact IH].
Qed.

Lemma filter_all_id l :
  (forall y, In y l -> p y = true) -> filter p l = l.
Proof.
  induction l as [|a l IH]; intros Hall; simpl; [reflexivity|].
  rewrite (Hall a (or_introl eq_refl)). f_equal. apply IH.
  intros y Hy. apply Hall. now right.
Qed.

(** In a duplicate-free list at most one element passes a test that only
    one value passes. *)
Lemma filter_single_le (v : A) l :
  NoDup l -> (forall y, In y l -> p y = true -> y = v) ->
  (length (filter p l) <= 1)%nat.
Proof.
  induction 1 as [|a l Hnotin Hnd IH]; intros Hone; simpl; [lia|].
  destruct (p a) eqn:Ea.
  - assert (a = v) by (apply Hone; [now left | assumption]). subst a.
    rewrite filter_nil_all; [simpl; lia|].
    intros y Hy. destruct (p y) eqn:Ey; [|reflexivity].
    assert (y = v) by (apply Hone; [now right | assumption]).
    subst y. contradiction.
  - apply IH. intros y Hy. apply Hone. now right.
Qed.

Lemma filter_single_eq (v : A) l :
  NoDup l -> (forall y, In y l -> p y = true -> y = v) ->
  In v l -> p v = true -> length (filter p l) = 1%nat.
Proof.
  intros Hnd Hone Hin Hp.
  pose proof (filter_single_le v l Hnd Hone) as Hle.
  assert (Hin' : In v (filter p l)) by (apply filter_In; now split).
  destruct (filter p l); [contradiction | simpl in *; lia].
Qed.

Lemma filter_ext_eq (q : A -> bool) l :
  (forall y, p y = q y) -> filter p l = filter q l.
Proof. intros E. apply filter_ext. exact E. Qed.

End Filter.





(** ** Level indices *)

Lemma indices_NoDup w : NoDup (indices w).
Proof.
  unfold indices. apply Injective_map_NoDup.
  - intros a b E. now apply Nat2Z.inj.
  - apply seq_NoDup.
Qed.

Lemma indices_In w i : In i (indices w) <-> 0 <= i < len (levelData w).
Proof.
  unfold indices, len. rewrite in_map_iff. split.
  - intros [n [E Hn]]. apply in_seq in Hn. lia.
  - intros Hi. exists (Z.to_nat i). split; [lia|]. apply in_seq. lia.
Qed.

Lemma indices_len w : len (indices w) = len (levelData w).
Proof. unfold indices, len. now rewrite length_map, length_seq. Qed.

Lemma nonHomeIndices_In w i :
  In i (nonHomeIndices w) <->
  0 <= i < len (levelData w) /\ isHomeIndex w (Some i) = false.
Proof.
  unfold nonHomeIndices. rewrite filter_In, indices_In, negb_true_iff.
  reflexivity.
Qed.

Lemma nonHomeIndices_NoDup w : NoDup (nonHomeIndices w).
Proof. apply NoDup_filter, indices_NoDup. Qed.

Lemma isHomeIndex_true w v :
  isHomeIndex w v = true <->
  State.homeIndex (state w) <> -1 /\ v = Some (State.homeIndex (state w)).
Proof.
  unfold isHomeIndex.
  rewrite andb_true_iff, negb_true_iff, Z.eqb_neq, jsnum_eqb_eq.
  reflexivity.
Qed.

Lemma isHomeIndex_no_home w v :
  State.homeIndex (state w) = -1 -> isHomeIndex w v = false.
Proof. intros E. unfold isHomeIndex. rewrite E. reflexivity. Qed.

(** With a home level in the pool, all levels but one are non-home; with
    none, all are. *)
Lemma nonHomeIndices_len_home w :
  0 <= State.homeIndex (state w) < len (levelData w) ->
  len (nonHomeIndices w) = len (levelData w) - 1.
Proof.
  intros Hh. unfold nonHomeIndices.
  pose proof (filter_length (fun i => isHomeIndex w (Some i)) (indices w))
    as Hsplit.
  assert (Hone : length (filter (fun i => isHomeIndex w (Some i)) (indices w))
                 = 1%nat).
  { apply filter_single_eq with (v := State.homeIndex (state w)).
    - apply indices_NoDup.
    - intros y _ Hy. apply isHomeIndex_true in Hy. destruct Hy as [_ E].
      now injection E.
    - now apply indices_In.
    - apply isHomeIndex_true. split; [lia | reflexivity]. }
  rewrite <- indices_len. unfold len in *. lia.
Qed.

Lemma nonHomeIndices_len_no_home w :
  State.homeIndex (state w) = -1 ->
  len (nonHomeIndices w) = len (levelData w).
Proof.
  intros Hh. unfold nonHomeIndices.
  rewrite (filter_ext_eq _ (fun _ => true)).
  - rewrite <- indices_len. f_equal.
    induction (indices w) as [|a l IH]; simpl; [reflexivity | now f_equal].
  - intros y. now rewrite isHomeIndex_no_home.
Qed.

Lemma nonHomeIndices_len_pos w :
  home_ok w -> 1 < len (levelData w) -> 0 < len (nonHomeIndices w).
Proof.
  intros [Hh|Hh] Hn.
  - rewrite nonHomeIndices_len_no_home by assumption. lia.
  - rewrite nonHomeIndices_len_home by assumption. lia.
Qed.

(** ** The pool of unused levels *)


(** As long as fewer entries of the history are non-home than there are
    non-home levels, some non-home level is not in the history. *)
Lemma pool_nonempty w :
  usedNonHomeCount w < len (nonHomeIndices w) ->
  filter (fun i => negb (has (State.carousel (state w)) (Some i)))
         (nonHomeIndices w) <> [].
Proof.
  intros Hlt Hnil.
  pose proof (filter_nil_inv _ _ Hnil) as Hall.
  assert (Hincl : incl (map Some (nonHomeIndices w))
                    (filter (fun i => negb (isHomeIndex w i))
                            (State.carousel (state w)))).
  { intros v Hv. apply in_map_iff in Hv. destruct Hv as [i [<- Hi]].
    apply filter_In. split.
    - apply has_In. specialize (Hall i Hi).
      now apply negb_false_iff in Hall.
    - apply nonHomeIndices_In in Hi. destruct Hi as [_ Hi]. now rewrite Hi. }
  apply NoDup_incl_length in Hincl.
  - rewrite length_map in Hincl. unfold usedNonHomeCount, len in Hlt. lia.
  - apply Injective_map_NoDup; [|apply nonHomeIndices_NoDup].
    intros a b E. now injection E.
Qed.

(** The draw is a non-home level that the history does not hold. *)
Lemma pickUnused_spec u w :
  unit_draw u ->
  usedNonHomeCount w < len (nonHomeIndices w) ->
  exists p, pickUnusedNonHomeLevelIndex u w = Some p
            /\ In p (nonHomeIndices w)
            /\ ~ In (Some p) (State.carousel (state w)).
Proof.
  intros Hu Hlt. unfold pickUnusedNonHomeLevelIndex.
  pose proof (pool_nonempty w Hlt) as Hne.
  set (pool := filter _ (nonHomeIndices w)) in *.
  assert (Hpos : 0 < len pool).
  { unfold len. destruct pool; [congruence | simpl; lia]. }
  destruct (Z.eqb_spec (len pool) 0) as [E|_]; [lia|].
  destruct (idx_in_range pool _ (randInt_range (len pool) u Hu Hpos))
    as [p Hp].
  exists p. split; [assumption|].
  apply idx_Some_In in Hp. unfold pool in Hp. apply filter_In in Hp.
  destruct Hp as [Hin Hhas]. split; [assumption|].
  apply has_false. now apply negb_true_iff.
Qed.

(** In the ring test [carousel.length] is not [0]: an empty history has
    used nothing, and a pool of two levels or more has a non-home level. *)
Lemma allUsed_nonempty w :
  home_ok w -> 1 < len (levelData w) ->
  usedNonHomeCount w >= len (nonHomeIndices w) ->
  0 < len (State.carousel (state w)).
Proof.
  intros Hh Hn Hused.
  pose proof (nonHomeIndices_len_pos w Hh Hn) as Hpos.
  unfold usedNonHomeCount in Hused.
  destruct (State.carousel (state w)) as [|v c].
  - simpl in Hused. unfold len in Hused at 1. simpl in Hused. lia.
  - rewrite len_cons. pose proof (len_nonneg c). lia.
Qed.

(** A duplicate-free history that has not used every non-home level is
    shorter than the pool. *)
Lemma carousel_room w :
  home_ok w -> NoDup (State.carousel (state w)) ->
  usedNonHomeCount w < len (nonHomeIndices w) ->
  len (State.carousel (state w)) < len (levelData w).
Proof.
  intros Hh Hnd Hlt. unfold usedNonHomeCount in Hlt.
  pose proof (filter_length (isHomeIndex w) (State.carousel (state w)))
    as Hsplit.
  destruct Hh as [Hh|Hh].
  - rewrite nonHomeIndices_len_no_home in Hlt by assumption.
    rewrite filter_nil_all in Hsplit
      by (intros y _; now apply isHomeIndex_no_home).
    unfold len in *. simpl in Hsplit. lia.
  - rewrite nonHomeIndices_len_home in Hlt by assumption.
    assert (Hle : (length (filter (isHomeIndex w) (State.carousel (state w)))
                   <= 1)%nat).
    { apply filter_single_le with (v := Some (State.homeIndex (state w)));
        [assumption|].
      intros y _ Hy. now apply isHomeIndex_true in Hy. }
    unfold len in *. lia.
Qed.

(** ** The four ways of a move *)

Lemma carouselMoveRight_single u w :
  len (levelData w) <= 1 ->
  carouselMoveRight u w = (State.levelIndex (state w), w).
Proof.
  intros Hn. unfold carouselMoveRight.
  destruct (Z.leb_spec (len (levelData w)) 1); [reflexivity | lia].
Qed.

Lemma carouselMoveRight_ring u w :
  1 < len (levelData w) ->
  usedNonHomeCount w >= len (nonHomeIndices w) ->
  let s := state w in
  let pos := Z.rem (State.carouselPos s + 1) (len (State.carousel s)) in
  carouselMoveRight u w
  = (at_ (State.carousel s) pos, set_state (set_carouselPos pos s) w).
Proof.
  intros Hn Hused. unfold carouselMoveRight.
  destruct (Z.leb_spec (len (levelData w)) 1); [lia|].
  destruct (Z.geb_spec (usedNonHomeCount w) (len (nonHomeIndices w)));
    [reflexivity | lia].
Qed.

Lemma carouselMoveRight_step u w :
  1 < len (levelData w) ->
  usedNonHomeCount w < len (nonHomeIndices w) ->
  State.carouselPos (state w) < len (State.carousel (state w)) - 1 ->
  let s := state w in
  let pos := State.carouselPos s + 1 in
  carouselMoveRight u w
  = (at_ (State.carousel s) pos, set_state (set_carouselPos pos s) w).
Proof.
  intros Hn Hused Hpos. unfold carouselMoveRight.
  destruct (Z.leb_spec (len (levelData w)) 1); [lia|].
  destruct (Z.geb_spec (usedNonHomeCount w) (len (nonHomeIndices w))); [lia|].
  destruct (Z.ltb_spec (State.carouselPos (state w))
                       (len (State.carousel (state w)) - 1));
    [reflexivity | lia].
Qed.

Lemma carouselMoveRight_append u w :
  1 < len (levelData w) ->
  usedNonHomeCount w < len (nonHomeIndices w) ->
  len (State.carousel (state w)) - 1 <= State.carouselPos (state w) ->
  let s := state w in
  let nextIdx := pickUnusedNonHomeLevelIndex u w in
  carouselMoveRight u w
  = (nextIdx,
     set_state (set_carousel (State.carousel s ++ [nextIdx])
                             (len (State.carousel s ++ [nextIdx]) - 1) s) w).
Proof.
  intros Hn Hused Hpos. unfold carouselMoveRight.
  destruct (Z.leb_spec (len (levelData w)) 1); [lia|].
  destruct (Z.geb_spec (usedNonHomeCount w) (len (nonHomeIndices w))); [lia|].
  destruct (Z.ltb_spec (State.carouselPos (state w))
                       (len (State.carousel (state w)) - 1));
    [lia | reflexivity].
Qed.

Lemma carouselMoveLeft_single u w :
  len (levelData w) <= 1 ->
  carouselMoveLeft u w = (State.levelIndex (state w), w).
Proof.
  intros Hn. unfold carouselMoveLeft.
  destruct (Z.leb_spec (len (levelData w)) 1); [reflexivity | lia].
Qed.

Lemma carouselMoveLeft_ring u w :
  1 < len (levelData w) ->
  usedNonHomeCount w >= len (nonHomeIndices w) ->
  let s := state w in
  let pos := Z.rem (State.carouselPos s - 1 + len (State.carousel s))
                   (len (State.carousel s)) in
  carouselMoveLeft u w
  = (at_ (State.carousel s) pos, set_state (set_carouselPos pos s) w).
Proof.
  intros Hn Hused. unfold carouselMoveLeft.
  destruct (Z.leb_spec (len (levelData w)) 1); [lia|].
  destruct (Z.geb_spec (usedNonHomeCount w) (len (nonHomeIndices w)));
    [reflexivity | lia].
Qed.

Lemma carouselMoveLeft_step u w :
  1 < len (levelData w) ->
  usedNonHomeCount w < len (nonHomeIndices w) ->
  0 < State.carouselPos (state w) ->
  let s := state w in
  let pos := State.carouselPos s - 1 in
  carouselMoveLeft u w
  = (at_ (State.carousel s) pos, set_state (set_carouselPos pos s) w).
Proof.
  intros Hn Hused Hpos. unfold carouselMoveLeft.
  destruct (Z.leb_spec (len (levelData w)) 1); [lia|].
  destruct (Z.geb_spec (usedNonHomeCount w) (len (nonHomeIndices w))); [lia|].
  destruct (Z.gtb_spec (State.carouselPos (state w)) 0); [reflexivity | lia].
Qed.

Lemma carouselMoveLeft_prepend u w :
  1 < len (levelData w) ->
  usedNonHomeCount w < len (nonHomeIndices w) ->
  State.carouselPos (state w) <= 0 ->
  let s := state w in
  let prevIdx := pickUnusedNonHomeLevelIndex u w in
  carouselMoveLeft u w
  = (prevIdx, set_state (set_carousel (prevIdx :: State.carousel s) 0 s) w).
Proof.
  intros Hn Hused Hpos. unfold carouselMoveLeft.
  destruct (Z.leb_spec (len (levelData w)) 1); [lia|].
  destruct (Z.geb_spec (usedNonHomeCount w) (len (nonHomeIndices w))); [lia|].
  destruct (Z.gtb_spec (State.carouselPos (state w)) 0); [lia | reflexivity].
Qed.

(** ** The carousel invariant *)

Lemma initCarousel_inv u w :
  1 <= len (levelData w) -> carousel_inv (initCarouselWithHomeOrFallback u w).
Proof.
  intros Hn. unfold initCarouselWithHomeOrFallback, carousel_inv.
  destruct (negb (State.homeIndex (state w) =? -1)); simpl;
    (split; [apply NoDup_cons; [simpl; tauto | apply NoDup_nil]
            | unfold len in *; simpl; lia]).
Qed.

Lemma carouselMoveRight_inv u w :
  home_ok w -> unit_draw u ->
  carousel_inv w -> carousel_inv (snd (carouselMoveRight u w)).
Proof.
  intros Hh Hu (Hnd & Hlen & Hpos).
  destruct (Z.le_gt_cases (len (levelData w)) 1) as [Hn|Hn].
  { rewrite carouselMoveRight_single by assumption. now repeat split. }
  destruct (Z.lt_ge_cases (usedNonHomeCount w) (len (nonHomeIndices w)))
    as [Hused|Hused].
  - destruct (Z.lt_ge_cases (State.carouselPos (state w))
                            (len (State.carousel (state w)) - 1)) as [Hp|Hp].
    + rewrite carouselMoveRight_step by assumption.
      unfold carousel_inv; simpl. repeat split; try assumption; lia.
    + rewrite carouselMoveRight_append by assumption.
      destruct (pickUnused_spec u w Hu Hused) as (p & -> & _ & Hfresh).
      pose proof (carousel_room w Hh Hnd Hused) as Hroom.
      unfold carousel_inv; simpl. rewrite len_app.
      change (len [Some p]) with 1. repeat split; try lia.
      apply NoDup_app; [assumption | repeat constructor; simpl; tauto |].
      intros a Ha [<-|[]]. contradiction.
  - rewrite carouselMoveRight_ring by lia.
    unfold carousel_inv; simpl. repeat split; try assumption.
    + apply Z.rem_nonneg; lia.
    + apply Z.rem_bound_pos; lia.
Qed.

Lemma carouselMoveLeft_inv u w :
  home_ok w -> unit_draw u ->
  carousel_inv w -> carousel_inv (snd (carouselMoveLeft u w)).
Proof.
  intros Hh Hu (Hnd & Hlen & Hpos).
  destruct (Z.le_gt_cases (len (levelData w)) 1) as [Hn|Hn].
  { rewrite carouselMoveLeft_single by assumption. now repeat split. }
  destruct (Z.lt_ge_cases (usedNonHomeCount w) (len (nonHomeIndices w)))
    as [Hused|Hused].
  - destruct (Z.lt_ge_cases 0 (State.carouselPos (state w))) as [Hp|Hp].
    + rewrite carouselMoveLeft_step by assumption.
      unfold carousel_inv; simpl. repeat split; try assumption; lia.
    + rewrite carouselMoveLeft_prepend by assumption.
      destruct (pickUnused_spec u w Hu Hused) as (p & -> & _ & Hfresh).
      pose proof (carousel_room w Hh Hnd Hused) as Hroom.
      unfold carousel_inv; simpl. rewrite len_cons.
      repeat split; try lia. now constructor.
  - rewrite carouselMoveLeft_ring by lia.
    unfold carousel_inv; simpl. repeat split; try assumption.
    + apply Z.rem_nonneg; lia.
    + apply Z.rem_bound_pos; lia.
Qed.

(** ** Filling the carousel from the home seed *)


Lemma usedNonHomeCount_seeded w l :
  0 <= State.homeIndex (state w) < len (levelData w) ->
  State.carousel (state w) = Some (State.homeIndex (state w)) :: l ->
  nonHomeOnly w l ->
  usedNonHomeCount w = len l.
Proof.
  intros Hh Hc Hl. unfold usedNonHomeCount. rewrite Hc. simpl.
  assert (Hhome : isHomeIndex w (Some (State.homeIndex (state w))) = true).
  { apply isHomeIndex_true. split; [lia | reflexivity]. }
  rewrite Hhome. simpl. f_equal. apply filter_all_id.
  intros y Hy. destruct (Hl y Hy) as (i & -> & Hi).
  apply nonHomeIndices_In in Hi. destruct Hi as [_ Hi]. now rewrite Hi.
Qed.

Lemma world_eta w :
  set_state (set_carousel (State.carousel (state w))
                          (State.carouselPos (state w)) (state w)) w = w.
Proof. destruct w as [ld hi hw la [] p i t]. reflexivity. Qed.

(** One rightward move at the end of a history that the home level seeded
    and that still misses a non-home level appends such a level. *)
Lemma moveRight_fill u w l :
  0 <= State.homeIndex (state w) < len (levelData w) -> unit_draw u ->
  State.carousel (state w) = Some (State.homeIndex (state w)) :: l ->
  State.carouselPos (state w) = len l ->
  nonHomeOnly w l ->
  len l < len (levelData w) - 1 ->
  exists p,
    In p (nonHomeIndices w) /\ ~ In (Some p) l
    /\ snd (carouselMoveRight u w)
       = set_state
           (set_carousel (Some (State.homeIndex (state w)) :: l ++ [Some p])
                         (len l + 1) (state w)) w.
Proof.
  intros Hh Hu Hc Hp Hl Hroom.
  pose proof (len_nonneg l) as Hl0.
  pose proof (usedNonHomeCount_seeded w l Hh Hc Hl) as Hused.
  pose proof (nonHomeIndices_len_home w Hh) as Hnh.
  assert (Hlt : usedNonHomeCount w < len (nonHomeIndices w)) by lia.
  rewrite carouselMoveRight_append; try lia.
  - destruct (pickUnused_spec u w Hu Hlt) as (p & -> & Hin & Hfresh).
    exists p. split; [assumption|]. split.
    + intros Hinl. apply Hfresh. rewrite Hc. now right.
    + simpl. rewrite Hc, len_app, len_cons. simpl app.
      change (len [Some p]) with 1. f_equal. f_equal. lia.
  - rewrite Hc, len_cons. lia.
Qed.

Lemma moveRightN_fill us : forall w l,
  0 <= State.homeIndex (state w) < len (levelData w) ->
  Forall unit_draw us ->
  State.carousel (state w) = Some (State.homeIndex (state w)) :: l ->
  State.carouselPos (state w) = len l ->
  NoDup l -> nonHomeOnly w l ->
  len l + len us <= len (levelData w) - 1 ->
  exists l',
    len l' = len l + len us /\ NoDup l' /\ nonHomeOnly w l'
    /\ moveRightN us w
       = set_state
           (set_carousel (Some (State.homeIndex (state w)) :: l')
                         (len l') (state w)) w.
Proof.
  induction us as [|u us IH]; intros w l Hh Hus Hc Hp Hnd Hl Hroom.
  - exists l. change (len (@nil Q)) with 0.
    split; [lia|]. split; [assumption|]. split; [assumption|].
    simpl. rewrite <- Hc, <- Hp. symmetry. apply world_eta.
  - rewrite len_cons in Hroom. pose proof (len_nonneg us) as Hus0.
    inversion Hus as [|? ? Hu Hus']; subst.
    destruct (moveRight_fill u w l Hh Hu Hc Hp Hl ltac:(lia))
      as (p & Hin & Hfresh & Hstep).
    simpl moveRightN. rewrite Hstep.
    set (w1 := set_state _ w).
    destruct (IH w1 (l ++ [Some p])) as (l' & Hlen & Hnd' & Hl' & Hrun).
    + exact Hh.
    + assumption.
    + reflexivity.
    + simpl. rewrite len_app. reflexivity.
    + apply NoDup_app; [assumption | |].
      * apply NoDup_cons; [simpl; tauto | apply NoDup_nil].
      * intros a Ha [<-|[]]. contradiction.
    + intros v Hv. apply in_app_or in Hv. destruct Hv as [Hv|[<-|[]]].
      * exact (Hl v Hv).
      * exists p. now split.
    + rewrite len_app. change (len [Some p]) with 1.
      change (len (levelData w1)) with (len (levelData w)). lia.
    + exists l'. rewrite len_app in Hlen. change (len [Some p]) with 1 in Hlen.
      rewrite len_cons. split; [lia|]. split; [assumption|].
      split; [assumption|]. exact Hrun.
Qed.

(** The home-seeded start and what [N] rightward moves make of it: the home
    index followed by every non-home index, once each, the cursor at the
    end. *)
Lemma seeded_run w us u0 :
  0 <= State.homeIndex (state w) < len (levelData w) ->
  len us = len (levelData w) - 1 ->
  Forall unit_draw us ->
  exists l,
    len l = len (levelData w) - 1 /\ NoDup l /\ nonHomeOnly w l
    /\ (forall i, In i (nonHomeIndices w) -> In (Some i) l)
    /\ moveRightN us (initCarouselWithHomeOrFallback u0 w)
       = set_state
           (set_carousel (Some (State.homeIndex (state w)) :: l) (len l)
              (set_levelIndex (Some (State.homeIndex (state w))) (state w)))
           w.
Proof.
  intros Hh Hlen Hus.
  assert (Hinit : initCarouselWithHomeOrFallback u0 w
                  = set_state
                      (set_levelIndex (Some (State.homeIndex (state w)))
                         (set_carousel [Some (State.homeIndex (state w))] 0
                                       (state w))) w).
  { unfold initCarouselWithHomeOrFallback.
    destruct (Z.eqb_spec (State.homeIndex (state w)) (-1)); [lia|].
    reflexivity. }
  rewrite Hinit. clear Hinit. set (w0 := set_state _ w).
  destruct (moveRightN_fill us w0 []) as (l & Hl & Hnd & Hnh & Hrun);
    try assumption; try reflexivity.
  - apply NoDup_nil.
  - intros v [].
  - change (len (@nil jsnum)) with 0.
    change (len (levelData w0)) with (len (levelData w)). lia.
  - change (len (@nil jsnum)) with 0 in Hl.
    exists l.
    split; [lia|]. split; [assumption|].
    split; [exact Hnh|]. split; [|exact Hrun].
    intros i Hi.
    assert (Hincl : incl (map Some (nonHomeIndices w)) l).
    { apply NoDup_length_incl; [assumption | |].
      - rewrite length_map.
        pose proof (nonHomeIndices_len_home w Hh) as Hn.
        unfold len in *. lia.
      - intros v Hv. destruct (Hnh v Hv) as (j & -> & Hj).
        now apply in_map. }
    apply Hincl. now apply in_map.
Qed.

(** C1 (carousel exhaustion).  In a pool of [N] non-home levels and one home
    level, [N] calls of [carouselMoveRight] from the home-seeded carousel
    leave a history in which every non-home index occurs exactly once (the
    history has [N + 1] entries), and the call after them inserts nothing:
    the history stays as it is and the cursor rotates to an index that the
    history already holds, the home index at position [0]. *)
Theorem carousel_exhaustion :
  forall (w : World.t) (us : list Q) (u0 u : Q),
    0 <= State.homeIndex (state w) < len (levelData w) ->
    len us = len (levelData w) - 1 ->
    Forall unit_draw us ->
    let home := State.homeIndex (state w) in
    let wN := moveRightN us (initCarouselWithHomeOrFallback u0 w) in
    let r := fst (carouselMoveRight u wN) in
    let w' := snd (carouselMoveRight u wN) in
    (forall i, 0 <= i < len (levelData w) -> i <> home ->
       count_occ jsnum_eq_dec (State.carousel (state wN)) (Some i) = 1%nat)
    /\ len (State.carousel (state wN)) = len (levelData w)
    /\ State.carousel (state w') = State.carousel (state wN)
    /\ In r (State.carousel (state wN))
    /\ r = at_ (State.carousel (state w')) (State.carouselPos (state w'))
    /\ r = Some home
    /\ State.carouselPos (state w') = 0.
Proof.
  intros w us u0 u Hh Hlen Hus home wN r w'.
  destruct (seeded_run w us u0 Hh Hlen Hus)
    as (l & Hl & Hnd & Hnh & Hall & Hrun).
  subst wN r w'. rewrite Hrun. clear Hrun.
  set (wN := set_state _ w).
  assert (HcN : State.carousel (state wN) = Some home :: l) by reflexivity.
  assert (Hfresh : ~ In (Some home) l).
  { intros Hin. destruct (Hnh _ Hin) as (j & E & Hj). injection E as <-.
    apply nonHomeIndices_In in Hj. destruct Hj as [_ Hj].
    assert (Ht : isHomeIndex w (Some home) = true)
      by (apply isHomeIndex_true; split; [unfold home; lia | reflexivity]).
    congruence. }
  assert (HndN : NoDup (Some home :: l)) by now constructor.
  split.
  { intros i Hi Hne. rewrite HcN.
    apply NoDup_count_occ'; [assumption|]. right. apply Hall.
    apply nonHomeIndices_In. split; [assumption|].
    destruct (isHomeIndex w (Some i)) eqn:E; [|reflexivity].
    apply isHomeIndex_true in E. destruct E as [_ E]. injection E as ->.
    now contradiction Hne. }
  split.
  { rewrite HcN, len_cons. lia. }
  assert (Hhd : at_ (Some home :: l) 0 = Some home) by reflexivity.
  destruct (Z.le_gt_cases (len (levelData w)) 1) as [Hn|Hn].
  - (* a home level alone: the move is a no-op on [[home]] *)
    rewrite carouselMoveRight_single
      by (change (len (levelData wN)) with (len (levelData w)); assumption).
    assert (El : l = []).
    { destruct l; [reflexivity|]. rewrite len_cons in Hl.
      pose proof (len_nonneg l). lia. }
    subst l. simpl fst; simpl snd.
    change (State.levelIndex (state wN)) with (Some home). rewrite HcN.
    repeat split; try reflexivity. now left.
  - (* the ring: the cursor wraps to position [0] *)
    assert (Hused : usedNonHomeCount wN = len l).
    { apply usedNonHomeCount_seeded; [exact Hh | reflexivity | exact Hnh]. }
    pose proof (nonHomeIndices_len_home w Hh) as Hnhl.
    rewrite carouselMoveRight_ring;
      [ | change (len (levelData wN)) with (len (levelData w)); assumption
        | change (nonHomeIndices wN) with (nonHomeIndices w); lia ].
    assert (Hpos : Z.rem (State.carouselPos (state wN) + 1)
                         (len (State.carousel (state wN))) = 0).
    { rewrite HcN, len_cons. change (State.carouselPos (state wN)) with (len l).
      apply Z.rem_same. pose proof (len_nonneg l). lia. }
    cbv zeta. rewrite Hpos. cbn [fst snd]. rewrite HcN, Hhd.
    repeat split; try reflexivity. now left.
Qed.

Lemma unit_draw_half : unit_draw (1 # 2).
Proof. split; unfold Qle, Qlt; simpl; lia. Defined.

Lemma carousel_exhaustion_witness :
  (0 <= State.homeIndex (state world_3) < len (levelData world_3))
  /\ len [1 # 2; 1 # 2] = len (levelData world_3) - 1
  /\ Forall unit_draw [1 # 2; 1 # 2]
  /\ len (State.carousel
            (state (moveRightN [1 # 2; 1 # 2]
                      (initCarouselWithHomeOrFallback 0 world_3))))
     = len (levelData world_3)
  /\ fst (carouselMoveRight 0
            (moveRightN [1 # 2; 1 # 2]
               (initCarouselWithHomeOrFallback 0 world_3)))
     = Some 1.
Proof.
  assert (H1 : 0 <= State.homeIndex (state world_3)
               < len (levelData world_3)) by (vm_compute; split; congruence).
  assert (H2 : len [1 # 2; 1 # 2] = len (levelData world_3) - 1)
    by reflexivity.
  assert (H3 : Forall unit_draw [1 # 2; 1 # 2])
    by (repeat constructor; apply unit_draw_half).
  pose proof (carousel_exhaustion world_3 [1 # 2; 1 # 2] 0 0 H1 H2 H3)
    as (_ & Hlen & _ & _ & _ & Hr & _).
  split; [exact H1|]. split; [exact H2|]. split; [exact H3|].
  split; [exact Hlen | exact Hr].
Defined.

(** C10 (carousel invariant).  The initial seeding of a non-empty pool
    establishes, and both moves preserve, the invariant: the history holds no
    level index twice, is no longer than the pool, and the cursor is an
    index of the history.  The home index is [-1] or an index of the pool,
    as [findIndex] leaves it, and the draw is a value of [Math.random()]. *)
Theorem carousel_invariant :
  forall (w : World.t) (u : Q),
    home_ok w -> unit_draw u ->
    (1 <= len (levelData w) ->
       carousel_inv (initCarouselWithHomeOrFallback u w))
    /\ (carousel_inv w -> carousel_inv (snd (carouselMoveRight u w)))
    /\ (carousel_inv w -> carousel_inv (snd (carouselMoveLeft u w))).
Proof.
  intros w u Hh Hu. split; [|split].
  - apply initCarousel_inv.
  - now apply carouselMoveRight_inv.
  - now apply carouselMoveLeft_inv.
Qed.

Lemma carousel_inv_world_5 : carousel_inv world_5.
Proof.
  unfold carousel_inv. simpl. split; [|split; [|split]].
  - repeat (apply NoDup_cons; [simpl; intuition congruence|]). apply NoDup_nil.
  - vm_compute. congruence.
  - lia.
  - reflexivity.
Defined.

Lemma home_ok_world_5 : home_ok world_5.
Proof. right. vm_compute. split; congruence. Defined.

Lemma carousel_invariant_witness :
  home_ok world_5 /\ unit_draw (1 # 2)
  /\ carousel_inv (initCarouselWithHomeOrFallback (1 # 2) world_5)
  /\ carousel_inv (snd (carouselMoveRight (1 # 2) world_5))
  /\ carousel_inv (snd (carouselMoveLeft (1 # 2) world_5)).
Proof.
  pose proof (carousel_invariant world_5 (1 # 2) home_ok_world_5
                unit_draw_half) as (Hi & Hr & Hl).
  split; [exact home_ok_world_5|]. split; [exact unit_draw_half|].
  split; [apply Hi; vm_compute; congruence|].
  split; [apply Hr | apply Hl]; exact carousel_inv_world_5.
Defined.

(** C4 (right then left).  In a state of the carousel (one that meets the
    carousel invariant) whose cursor is neither at the first nor at the last
    position of the history, [carouselMoveRight] followed by
    [carouselMoveLeft] returns the index the cursor started at, an entry of
    the history, and leaves the history, so its length, and the cursor as
    they were. *)
Theorem right_then_left_returns :
  forall (w : World.t) (u1 u2 : Q),
    carousel_inv w ->
    0 < State.carouselPos (state w) < len (State.carousel (state w)) - 1 ->
    let w1 := snd (carouselMoveRight u1 w) in
    let r := fst (carouselMoveLeft u2 w1) in
    let w2 := snd (carouselMoveLeft u2 w1) in
    r = at_ (State.carousel (state w)) (State.carouselPos (state w))
    /\ In r (State.carousel (state w))
    /\ len (State.carousel (state w2)) = len (State.carousel (state w))
    /\ State.carousel (state w2) = State.carousel (state w)
    /\ State.carouselPos (state w2) = State.carouselPos (state w).
Proof.
  intros w u1 u2 (_ & Hlen & _) Hpos w1 r w2.
  assert (Hn : 1 < len (levelData w)) by lia.
  assert (Hin : In (at_ (State.carousel (state w))
                        (State.carouselPos (state w)))
                   (State.carousel (state w))) by (apply at_In; lia).
  assert (Hw1 : w1 = set_state
                       (set_carouselPos (State.carouselPos (state w) + 1)
                                        (state w)) w).
  { unfold w1.
    destruct (Z.lt_ge_cases (usedNonHomeCount w) (len (nonHomeIndices w))).
    - now rewrite carouselMoveRight_step by lia.
    - rewrite carouselMoveRight_ring by lia. cbv zeta.
      now rewrite Z.rem_small by lia. }
  assert (Hleft : carouselMoveLeft u2 w1
                  = (at_ (State.carousel (state w))
                         (State.carouselPos (state w)),
                     set_state
                       (set_carouselPos (State.carouselPos (state w))
                                        (state w)) w)).
  { rewrite Hw1. clear w1 r w2 Hw1. set (w1 := set_state _ w).
    destruct (Z.lt_ge_cases (usedNonHomeCount w1) (len (nonHomeIndices w1))).
    - rewrite carouselMoveLeft_step; try assumption; [|simpl; lia].
      cbv zeta. simpl.
      now replace (State.carouselPos (state w) + 1 - 1)
        with (State.carouselPos (state w)) by lia.
    - rewrite carouselMoveLeft_ring; try assumption; try lia.
      cbv zeta. simpl.
      replace (State.carouselPos (state w) + 1 - 1
               + len (State.carousel (state w)))
        with (State.carouselPos (state w)
              + 1 * len (State.carousel (state w))) by lia.
      rewrite Z.rem_add by nia. now rewrite Z.rem_small by lia. }
  unfold r, w2. rewrite Hleft. simpl. now repeat split.
Qed.

Lemma right_then_left_returns_witness :
  carousel_inv world_5
  /\ 0 < State.carouselPos (state world_5)
       < len (State.carousel (state world_5)) - 1
  /\ fst (carouselMoveLeft 0 (snd (carouselMoveRight 0 world_5))) = Some 0
  /\ State.carousel
       (state (snd (carouselMoveLeft 0 (snd (carouselMoveRight 0 world_5)))))
     = State.carousel (state world_5).
Proof.
  assert (Hpos : 0 < State.carouselPos (state world_5)
                   < len (State.carousel (state world_5)) - 1)
    by (vm_compute; split; reflexivity).
  pose proof (right_then_left_returns world_5 0 0 carousel_inv_world_5 Hpos)
    as (Hr & _ & _ & Hc & _).
  split; [exact carousel_inv_world_5|]. split; [exact Hpos|].
  split; [exact Hr | exact Hc].
Defined.

(** C8 (a single level).  With exactly one level in the pool, both moves
    return the current level index and change nothing: the history and the
    cursor stay as they are. *)
Theorem single_level_moves_noop :
  forall (w : World.t) (u : Q),
    len (levelData w) = 1 ->
    carouselMoveRight u w = (State.levelIndex (state w), w)
    /\ carouselMoveLeft u w = (State.levelIndex (state w), w).
Proof.
  intros w u Hn. split.
  - apply carouselMoveRight_single. lia.
  - apply carouselMoveLeft_single. lia.
Qed.

Lemma single_level_moves_noop_witness :
  len (levelData world_1) = 1
  /\ carouselMoveRight 0 world_1 = (Some 0, world_1)
  /\ carouselMoveLeft 0 world_1 = (Some 0, world_1).
Proof.
  split; [reflexivity|].
  exact (single_level_moves_noop world_1 0 eq_refl).
Defined.

(** ** Transitions *)

(** C5 (edge trigger while transitioning).  While the state machine is
    transitioning, [triggerEdge] changes nothing, whichever edge and clock
    value it gets: [transitionUntil], [lastEdge], [transitioning] and the
    player's visibility stay as they are, and so does the rest of the
    world. *)
Theorem triggerEdge_noop_while_transitioning :
  forall (now : Q) (edge : Edge) (w : World.t),
    State.transitioning (state w) = true ->
    let w' := triggerEdge now edge w in
    State.transitionUntil (state w') = State.transitionUntil (state w)
    /\ State.lastEdge (state w') = State.lastEdge (state w)
    /\ State.transitioning (state w') = State.transitioning (state w)
    /\ Player.visible (player w') = Player.visible (player w)
    /\ w' = w.
Proof.
  intros now edge w Htr w'. unfold w', triggerEdge. rewrite Htr.
  now repeat split.
Qed.

Lemma triggerEdge_noop_while_transitioning_witness :
  State.transitioning (state world_transitioning) = true
  /\ triggerEdge 1070 EdgeRight world_transitioning = world_transitioning.
Proof.
  split; [reflexivity|].
  exact (proj2 (proj2 (proj2 (proj2
    (triggerEdge_noop_while_transitioning 1070 EdgeRight world_transitioning
       eq_refl))))).
Defined.

(** A second trigger never restarts the timer: the first one leaves the
    machine transitioning. *)
Lemma triggerEdge_idempotent now1 edge1 now2 edge2 w :
  triggerEdge now2 edge2 (triggerEdge now1 edge1 w) = triggerEdge now1 edge1 w.
Proof.
  unfold triggerEdge. destruct (State.transitioning (state w)) eqn:E.
  - now rewrite E.
  - reflexivity.
Qed.

Lemma carouselMoveRight_frame u w :
  exists c pos,
    snd (carouselMoveRight u w) = set_state (set_carousel c pos (state w)) w.
Proof.
  unfold carouselMoveRight.
  repeat match goal with
         | |- context [if ?b then _ else _] => destruct b
         end; simpl; eexists; eexists;
    try reflexivity; symmetry; apply world_eta.
Qed.

Lemma carouselMoveLeft_frame u w :
  exists c pos,
    snd (carouselMoveLeft u w) = set_state (set_carousel c pos (state w)) w.
Proof.
  unfold carouselMoveLeft.
  repeat match goal with
         | |- context [if ?b then _ else _] => destruct b
         end; simpl; eexists; eexists;
    try reflexivity; symmetry; apply world_eta.
Qed.

Lemma setAnim_anim a w : Player.anim (player (setAnim a w)) = a.
Proof.
  unfold setAnim.
  destruct (Anim_eqb (Player.anim (player w)) a) eqn:E; [|reflexivity].
  destruct (Player.anim (player w)), a; simpl in E; congruence.
Qed.

Lemma setAnim_keeps a w :
  let p := player w in
  let p' := player (setAnim a w) in
  Player.x p' = Player.x p /\ Player.facing p' = Player.facing p
  /\ Player.visible p' = Player.visible p
  /\ Player.renderW p' = Player.renderW p
  /\ state (setAnim a w) = state w.
Proof.
  unfold setAnim. destruct (Anim_eqb (Player.anim (player w)) a);
    now repeat split.
Qed.

(** C6 (the player after a transition).  [finishTransition] puts the player
    two pixels inside the edge opposite the one that triggered, facing away
    from that entry edge: after a left trigger at [W - renderW - 2] (the
    right bound is [W - renderW]) facing [-1], after a right trigger at [2]
    (the left bound is [0]) facing [1].  The animation is idle, the player
    is visible, and the machine is steady again. *)
Theorem finishTransition_places_player :
  forall (W : Z) (u : Q) (w : World.t),
    let p := player w in
    let p' := player (finishTransition W u w) in
    match State.lastEdge (state w) with
    | Some EdgeLeft =>
        (Player.x p' == inject_Z W - inject_Z (Player.renderW p) - 2)%Q
        /\ Player.facing p' = -1
        /\ (Qabs (Player.x p' - inject_Z (W - Player.renderW p)) <= 2)%Q
    | Some EdgeRight | None =>
        (Player.x p' == 2)%Q
        /\ Player.facing p' = 1
        /\ (Qabs (Player.x p' - 0) <= 2)%Q
    end
    /\ Player.anim p' = Idle
    /\ Player.visible p' = true
    /\ State.transitioning (state (finishTransition W u w)) = false.
Proof.
  intros W u w p p'. subst p p'. unfold finishTransition.
  assert (Hmove :
    exists r c pos,
      (if isLeft (State.lastEdge (state w)) then carouselMoveLeft u w
       else carouselMoveRight u w)
      = (r, set_state (set_carousel c pos (state w)) w)).
  { destruct (isLeft (State.lastEdge (state w))).
    - destruct (carouselMoveLeft_frame u w) as (c & pos & E).
      destruct (carouselMoveLeft u w) as [r w1]. simpl in E. subst w1.
      now exists r, c, pos.
    - destruct (carouselMoveRight_frame u w) as (c & pos & E).
      destruct (carouselMoveRight u w) as [r w1]. simpl in E. subst w1.
      now exists r, c, pos. }
  destruct Hmove as (r & c & pos & ->).
  cbv zeta.
  cbn [State.lastEdge state set_state set_levelIndex set_carousel set_player].
  assert (Hidle : forall a, Anim_eqb a Idle = true -> a = Idle)
    by (intros [|]; simpl; congruence).
  destruct (State.lastEdge (state w)) as [[|]|]; cbn [isLeft];
    unfold setAnim; cbn [player set_player Player.anim set_facing set_x];
    destruct (Anim_eqb _ Idle) eqn:Ea; cbn;
    try apply Hidle in Ea;
    repeat split; try assumption; try reflexivity;
    unfold Qeq, Qle; simpl; lia.
Qed.

(** ** Pan follow *)

Lemma half_eq (q : Q) : (q / 2 == q * (1 # 2))%Q.
Proof. reflexivity. Qed.

Lemma clamp_sym_bounds (v m : Q) :
  (0 <= m -> - m <= clamp v (- m) m /\ clamp v (- m) m <= m)%Q.
Proof.
  intros Hm. unfold clamp. split.
  - apply Q.le_max_l.
  - apply Q.max_lub; [lra | apply Q.le_min_l].
Qed.

(** With an inverted range the lower bound wins: [Math.max] is applied
    last. *)
Lemma clamp_inverted (v m : Q) : (m < 0 -> clamp v (- m) m == - m)%Q.
Proof.
  intros Hm. unfold clamp. apply Q.max_l.
  apply Qle_trans with m; [apply Q.le_min_l | lra].
Qed.

Lemma maxFromZoom_nonneg (W : Z) (zoom : Q) :
  0 <= W -> (1 <= zoom)%Q ->
  (0 <= (inject_Z W * zoom - inject_Z W) / 2)%Q.
Proof.
  intros HW Hz. rewrite half_eq.
  assert (Hw : (0 <= inject_Z W)%Q).
  { replace 0%Q with (inject_Z 0) by reflexivity. now rewrite <- Zle_Qle. }
  assert (Hprod : (0 <= inject_Z W * (zoom - 1))%Q)
    by (apply Qmult_le_0_compat; lra).
  lra.
Qed.

Lemma maxPan_nonneg (W : Z) (zoom : Q) :
  0 <= W -> (1 <= zoom)%Q -> (0 <= maxPan W zoom)%Q.
Proof.
  intros HW Hz. unfold maxPan. apply Q.min_glb.
  - now apply maxFromZoom_nonneg.
  - discriminate.
Qed.

Lemma maxPan_le_zoom (W : Z) (zoom : Q) :
  (maxPan W zoom <= (inject_Z W * zoom - inject_Z W) / 2)%Q.
Proof. unfold maxPan. apply Q.le_min_l. Qed.

(** C3 (pan bound).  A zoom factor scales the image up: it is above [1]
    ([BG_ZOOM] and [FG_ZOOM] are the two the program has).  For every image,
    every zoom factor of [1] or more, every follow strength and every player
    position, on a canvas of width and height [0] or more, the pan of
    [drawZoomPanFollow] is at most [min((zoom * W - W) / 2, MAX_PAN_PX)] in
    magnitude, and the image it draws covers the canvas: its left and top
    edges are at or before [0], its right and bottom edges at or after [W]
    and [H], so no edge of the image is exposed. *)
Theorem pan_bound :
  forall (W H : Z) (img : Image) (zoom followStrength : Q) (w : World.t),
    0 <= W -> 0 <= H -> (1 <= zoom)%Q ->
    (Qabs (pan W zoom followStrength w)
     <= Qmin ((zoom * inject_Z W - inject_Z W) / 2) MAX_PAN_PX)%Q
    /\ exists x y dw dh,
         drawZoomPanFollow W H (Some img) zoom followStrength w
         = [drawImage img x y dw dh]
         /\ (x <= 0 /\ inject_Z W <= x + dw)%Q
         /\ (y <= 0 /\ inject_Z H <= y + dh)%Q.
Proof.
  intros W H img zoom fs w HW HH Hz.
  pose proof (maxPan_nonneg W zoom HW Hz) as Hm.
  pose proof (maxPan_le_zoom W zoom) as Hmz.
  pose proof (clamp_sym_bounds
                (getHeroNormalizedX W w * maxPan W zoom * clamp fs 0 1)
                (maxPan W zoom) Hm) as [Hlo Hhi].
  fold (pan W zoom fs w) in Hlo, Hhi.
  split.
  - apply Qabs_Qle_condition.
    assert (E : (Qmin ((zoom * inject_Z W - inject_Z W) / 2) MAX_PAN_PX
                 == maxPan W zoom)%Q).
    { unfold maxPan. apply Q.min_compat; [|reflexivity].
      rewrite !half_eq. ring. }
    rewrite E. split; assumption.
  - unfold drawZoomPanFollow. do 4 eexists. split; [reflexivity|].
    pose proof (maxFromZoom_nonneg H zoom HH Hz) as Hv.
    rewrite half_eq in Hmz, Hv.
    unfold Qdiv. change (/ 2)%Q with (1 # 2)%Q.
    repeat split; lra.
Qed.

Lemma pan_bound_witness :
  0 <= 800 /\ 0 <= 600 /\ (1 <= BG_ZOOM)%Q
  /\ (Qabs (pan 800 BG_ZOOM BG_FOLLOW world_5)
      <= Qmin ((BG_ZOOM * inject_Z 800 - inject_Z 800) / 2) MAX_PAN_PX)%Q.
Proof.
  assert (HW : 0 <= 800) by discriminate.
  assert (HH : 0 <= 600) by discriminate.
  assert (Hz : (1 <= BG_ZOOM)%Q) by discriminate.
  split; [exact HW|]. split; [exact HH|]. split; [exact Hz|].
  exact (proj1 (pan_bound 800 600 (sample_image "bg") BG_ZOOM BG_FOLLOW
                  world_5 HW HH Hz)).
Defined.

(** ** The animation timer of the player *)

Lemma Qle_bool_comp (a b b' : Q) :
  (b == b')%Q -> Qle_bool a b = Qle_bool a b'.
Proof.
  intros E. destruct (Qle_bool a b) eqn:E1, (Qle_bool a b') eqn:E2;
    try reflexivity.
  - apply Qle_bool_iff in E1. rewrite E in E1. apply Qle_bool_iff in E1.
    congruence.
  - apply Qle_bool_iff in E2. rewrite <- E in E2. apply Qle_bool_iff in E2.
    congruence.
Qed.

Lemma Qle_bool_false (a b : Q) : Qle_bool a b = false <-> (b < a)%Q.
Proof.
  split.
  - intros E. apply Qnot_le_lt. intros Hle. apply Qle_bool_iff in Hle.
    congruence.
  - intros Hlt. destruct (Qle_bool a b) eqn:E; [|reflexivity].
    apply Qle_bool_iff in E. apply Qlt_not_le in Hlt. contradiction.
Qed.

(** An elapsed time of ten frame intervals is clamped to 33 ms. *)
Lemma tick_dt_clamped (t lastT : Q) (fps : Z) :
  0 < fps <= 30 ->
  ((t - lastT) / 1000 == 10 * (1 / inject_Z fps))%Q ->
  (tick_dt t lastT == 33 # 1000)%Q.
Proof.
  intros Hfps E. unfold tick_dt. rewrite E. apply Q.min_l.
  assert (Hpos : (0 < inject_Z fps)%Q).
  { replace 0%Q with (inject_Z 0) by reflexivity. rewrite <- Zlt_Qlt. lia. }
  assert (Hle : (inject_Z fps <= 30)%Q).
  { replace 30%Q with (inject_Z 30) by reflexivity. rewrite <- Zle_Qle. lia. }
  setoid_replace (10 * (1 / inject_Z fps))%Q with (10 / inject_Z fps)%Q
    by (field; lra).
  apply Qle_shift_div_l; [assumption|]. lra.
Qed.

Lemma drawLayerN_frame W H key dt w :
  exists m, fst (drawLayerN W H key dt w) = set_levelAssets m w.
Proof.
  unfold drawLayerN.
  assert (Eta : w = set_levelAssets (levelAssets w) w) by now destruct w.
  destruct (currentLevel w); [|now exists (levelAssets w)].
  destruct (currentLevelAssets w) as [a|]; [|now exists (levelAssets w)].
  destruct (get_layer key a); [|now exists (levelAssets w)].
  destruct (drawOptionalLayerAsset W H _ dt w). now eexists.
Qed.

(** [drawPlayer] brings the frame index into the frame array when it draws. *)
Lemma drawPlayer_player w :
  player (fst (drawPlayer w))
  = if Player.visible (player w) && negb (len (currentFrames w) =? 0) then
      set_frameIndex
        (Z.rem (Player.frameIndex (player w)) (len (currentFrames w)))
        (player w)
    else player w.
Proof.
  unfold drawPlayer.
  destruct (Player.visible (player w)); simpl; [|reflexivity].
  destruct (len (currentFrames w) =? 0); simpl; [reflexivity|].
  destruct (idx _ _); reflexivity.
Qed.

Lemma drawPlayer_frames w :
  heroIdleFrames (fst (drawPlayer w)) = heroIdleFrames w
  /\ heroWalkFrames (fst (drawPlayer w)) = heroWalkFrames w.
Proof.
  unfold drawPlayer.
  destruct (negb (Player.visible (player w))); [now split|].
  destruct (len (currentFrames w) =? 0); [now split|].
  destruct (idx _ _); now split.
Qed.

(** The layers do not touch the player: after the drawing, the player is as
    [drawPlayer] leaves it. *)
Lemma loop_draw_player W H dt w :
  player (fst (loop_draw W H dt w)) = player (fst (drawPlayer w)).
Proof.
  unfold loop_draw.
  destruct (drawLayerN_frame W H key_l1 dt w) as [m1 E1].
  destruct (drawLayerN W H key_l1 dt w) as [w1 c1]. simpl in E1. subst w1.
  assert (Ep : player (fst (drawPlayer (set_levelAssets m1 w)))
               = player (fst (drawPlayer w))) by now rewrite !drawPlayer_player.
  destruct (drawPlayer (set_levelAssets m1 w)) as [w2 c2]. simpl in Ep.
  destruct (drawLayerN_frame W H key_l2 dt w2) as [m2 E2].
  destruct (drawLayerN W H key_l2 dt w2) as [w3 c3]. simpl in E2. subst w3.
  destruct (drawLayerN_frame W H key_l3 dt (set_levelAssets m2 w2))
    as [m3 E3].
  destruct (drawLayerN W H key_l3 dt (set_levelAssets m2 w2)) as [w4 c4].
  simpl in E3. subst w4.
  destruct (drawLayerN_frame W H key_l4 dt
              (set_levelAssets m3 (set_levelAssets m2 w2))) as [m4 E4].
  destruct (drawLayerN W H key_l4 dt
              (set_levelAssets m3 (set_levelAssets m2 w2))) as [w5 c5].
  simpl in E4. subst w5. simpl. exact Ep.
Qed.


(** The animation mode the input asks for. *)
Lemma steady_input_player w :
  let mode :=
    if Bool.eqb (Input.left (input w)) (Input.right (input w)) then Idle
    else Walk in
  let same := Anim_eqb (Player.anim (player w)) mode in
  let p1 := player (steady_input w) in
  Player.anim p1 = mode
  /\ Player.frameIndex p1 = (if same then Player.frameIndex (player w) else 0)
  /\ Player.frameTimer p1
     = (if same then Player.frameTimer (player w) else 0%Q)
  /\ heroIdleFrames (steady_input w) = heroIdleFrames w
  /\ heroWalkFrames (steady_input w) = heroWalkFrames w.
Proof.
  unfold steady_input, held_vx.
  destruct (Input.left (input w)), (Input.right (input w));
    cbn [Bool.eqb Z.eqb Z.add Z.sub Z.opp Z.gtb Z.compare negb Z.pos_sub];
    unfold setAnim; cbn [player set_player Player.anim set_facing];
    destruct (Player.anim (player w)) eqn:Ea; cbn; rewrite ?Ea;
    now repeat split.
Qed.

Lemma triggerEdge_keeps now edge w :
  let p := player w in
  let p' := player (triggerEdge now edge w) in
  Player.anim p' = Player.anim p
  /\ Player.frameIndex p' = Player.frameIndex p
  /\ Player.frameTimer p' = Player.frameTimer p
  /\ heroIdleFrames (triggerEdge now edge w) = heroIdleFrames w
  /\ heroWalkFrames (triggerEdge now edge w) = heroWalkFrames w.
Proof.
  unfold triggerEdge. destruct (State.transitioning (state w));
    now repeat split.
Qed.

(** Closes a goal about [triggerEdge n e a] with the lemma [lem] at these
    arguments. *)
Ltac at_trigger lem :=
  match goal with
  | |- context [triggerEdge ?n ?e ?a] => exact (lem n e a)
  end.

Lemma steady_move_keeps W now dt vx w :
  let p := player w in
  let p' := player (steady_move W now dt vx w) in
  Player.anim p' = Player.anim p
  /\ Player.frameIndex p' = Player.frameIndex p
  /\ Player.frameTimer p' = Player.frameTimer p
  /\ heroIdleFrames (steady_move W now dt vx w) = heroIdleFrames w
  /\ heroWalkFrames (steady_move W now dt vx w) = heroWalkFrames w.
Proof.
  unfold steady_move. cbv zeta.
  destruct (Qle_bool _ 0); [at_trigger triggerEdge_keeps|].
  destruct (Qle_bool _ _); [at_trigger triggerEdge_keeps | now repeat split].
Qed.

Lemma steady_animate_player dt w :
  let p := player w in
  let p' := player (steady_animate dt w) in
  let framesLen :=
    if len (currentFrames w) =? 0 then 1 else len (currentFrames w) in
  Player.anim p' = Player.anim p
  /\ Player.visible p' = Player.visible p
  /\ Player.frameIndex p'
     = (if Qle_bool (1 / inject_Z (currentFps w)) (Player.frameTimer p + dt)
        then Z.rem (Player.frameIndex p + 1) framesLen
        else Player.frameIndex p)
  /\ heroIdleFrames (steady_animate dt w) = heroIdleFrames w
  /\ heroWalkFrames (steady_animate dt w) = heroWalkFrames w.
Proof.
  unfold steady_animate. cbv zeta.
  cbn [player set_player Player.frameTimer set_frameTimer].
  destruct (Qle_bool _ _); now repeat split.
Qed.

(** The steady part of a tick sets the animation mode the input asks for
    and then takes one look at the timer: the frame index moves by one
    frame or stays. *)
Lemma loop_steady_player W now dt w :
  let mode :=
    if Bool.eqb (Input.left (input w)) (Input.right (input w)) then Idle
    else Walk in
  let same := Anim_eqb (Player.anim (player w)) mode in
  let i0 := if same then Player.frameIndex (player w) else 0 in
  let t0 := if same then Player.frameTimer (player w) else 0%Q in
  let frames :=
    match mode with Walk => heroWalkFrames w | Idle => heroIdleFrames w end in
  let fps :=
    match mode with Walk => SPRITES_walk_fps | Idle => SPRITES_idle_fps end in
  let framesLen := if len frames =? 0 then 1 else len frames in
  let w1 := loop_steady W now dt w in
  Player.anim (player w1) = mode
  /\ Player.frameIndex (player w1)
     = (if Qle_bool (1 / inject_Z fps) (t0 + dt) then Z.rem (i0 + 1) framesLen
        else i0)
  /\ heroIdleFrames w1 = heroIdleFrames w
  /\ heroWalkFrames w1 = heroWalkFrames w.
Proof.
  intros mode same i0 t0 frames fps framesLen w1.
  pose proof (steady_input_player w) as (Ha1 & Hi1 & Ht1 & Hf1 & Hg1).
  pose proof (steady_move_keeps W now dt (held_vx w) (steady_input w))
    as (Ha2 & Hi2 & Ht2 & Hf2 & Hg2).
  pose proof (steady_animate_player dt
                (steady_move W now dt (held_vx w) (steady_input w)))
    as (Ha3 & _ & Hi3 & Hf3 & Hg3).
  fold (loop_steady W now dt w) in Ha3, Hi3, Hf3, Hg3. fold w1 in Ha3, Hi3, Hf3, Hg3.
  fold mode in Ha1. fold mode same in Hi1, Ht1. fold i0 in Hi1. fold t0 in Ht1.
  assert (Hmode : Player.anim
                    (player (steady_move W now dt (held_vx w)
                               (steady_input w))) = mode) by congruence.
  split; [congruence|]. split; [|split; congruence].
  rewrite Hi3, Hi2, Ht2, Hi1, Ht1.
  unfold currentFps, currentFrames. rewrite Hmode, Hf2, Hg2, Hf1, Hg1.
  subst fps framesLen frames. destruct mode; reflexivity.
Qed.

(** A steady tick, whatever time has elapsed: the frame index of the player
    moves by one frame when the timer, with the clamped time step added,
    has reached the frame interval, and stays otherwise.  [i0] and [t0] are
    the frame index and the timer the tick starts from: those of the
    player, or [0] when the input changes the mode. *)
Lemma loop_player_frame W H t now u w :
  let mode :=
    if Bool.eqb (Input.left (input w)) (Input.right (input w)) then Idle
    else Walk in
  let same := Anim_eqb (Player.anim (player w)) mode in
  let i0 := if same then Player.frameIndex (player w) else 0 in
  let t0 := if same then Player.frameTimer (player w) else 0%Q in
  let n :=
    len (match mode with
         | Walk => heroWalkFrames w
         | Idle => heroIdleFrames w
         end) in
  let fps :=
    inject_Z (match mode with
              | Walk => SPRITES_walk_fps
              | Idle => SPRITES_idle_fps
              end) in
  State.transitioning (state w) = false ->
  0 <= i0 < n ->
  let w' := fst (loop W H t now u w) in
  Player.anim (player w') = mode
  /\ Player.frameIndex (player w')
     = (if Qle_bool (1 / fps) (t0 + tick_dt t (lastT w))
        then Z.rem (i0 + 1) n else i0).
Proof.
  intros mode same i0 t0 n fps Htr Hi w'.
  assert (Hloop : w' = fst (loop_draw W H (tick_dt t (lastT w))
                              (loop_steady W now (tick_dt t (lastT w))
                                           (set_lastT t w)))).
  { unfold w', loop. cbn [state set_lastT]. now rewrite Htr. }
  pose proof (loop_steady_player W now (tick_dt t (lastT w)) (set_lastT t w))
    as (Ha & Hidx & Hf & Hg).
  cbn [input player set_lastT heroIdleFrames heroWalkFrames] in Ha, Hidx, Hf, Hg.
  fold mode in Ha, Hidx. fold same in Hidx. fold i0 t0 in Hidx.
  set (w1 := loop_steady W now (tick_dt t (lastT w)) (set_lastT t w)) in *.
  assert (Hn : len (currentFrames w1) = n).
  { unfold currentFrames. rewrite Ha, Hf, Hg. reflexivity. }
  assert (Hn0 : (n =? 0) = false) by (apply Z.eqb_neq; lia).
  assert (Hstep : Player.frameIndex (player w1)
                  = (if Qle_bool (1 / fps) (t0 + tick_dt t (lastT w))
                     then Z.rem (i0 + 1) n else i0)).
  { rewrite Hidx. fold n. rewrite Hn0. subst fps.
    destruct mode; reflexivity. }
  assert (Hrange : 0 <= Player.frameIndex (player w1) < n).
  { rewrite Hstep.
    destruct (Qle_bool (1 / fps) (t0 + tick_dt t (lastT w))); [|assumption].
    split; [apply Z.rem_nonneg | apply Z.rem_bound_pos]; lia. }
  rewrite Hloop, loop_draw_player, drawPlayer_player, Hn.
  destruct (Player.visible (player w1) && negb (n =? 0)).
  - cbn [Player.anim Player.frameIndex set_frameIndex].
    rewrite Z.rem_small by assumption. now split.
  - now split.
Qed.

(** With the time step of a tick, a timer below the frame interval is below
    it again after the test: at 6 and 12 frames a second one step a tick
    keeps up with the clock. *)
Lemma steady_animate_keeps_up dt w :
  (dt <= 33 # 1000)%Q ->
  (Player.frameTimer (player w) < 1 / inject_Z (currentFps w))%Q ->
  (Player.frameTimer (player (steady_animate dt w))
   < 1 / inject_Z (currentFps w))%Q.
Proof.
  intros Hdt Ht. unfold steady_animate. cbv zeta.
  cbn [player set_player Player.frameTimer set_frameTimer].
  destruct (Qle_bool _ _) eqn:E.
  - cbn [player set_player Player.frameTimer set_frameTimer set_frameIndex].
    revert Ht. unfold currentFps.
    destruct (Player.anim (player w)); unfold SPRITES_idle_fps,
      SPRITES_walk_fps; [change (1 / inject_Z 6)%Q with (1 # 6)%Q
                        | change (1 / inject_Z 12)%Q with (1 # 12)%Q];
      intros Ht; lra.
  - now apply Qle_bool_false in E.
Qed.

Lemma tick_dt_le t lastT : (tick_dt t lastT <= 33 # 1000)%Q.
Proof. apply Q.le_min_l. Qed.

(** C2, as the code has it (one frame a tick).  In a steady tick whose
    elapsed time is ten frame intervals of the mode in force, the time step
    is the 33 ms it is clamped to, and the timer is tested once: the frame
    index of the player advances by exactly one frame, modulo the frame
    count, when the timer has reached the frame interval, and stays
    otherwise.  [i0] and [t0] are the frame index and the timer the tick
    starts from: those of the player, or [0] when the input changes the
    mode. *)
Theorem player_frame_single_step :
  forall (W H : Z) (t now u : Q) (w : World.t),
    let mode :=
      if Bool.eqb (Input.left (input w)) (Input.right (input w)) then Idle
      else Walk in
    let same := Anim_eqb (Player.anim (player w)) mode in
    let i0 := if same then Player.frameIndex (player w) else 0 in
    let t0 := if same then Player.frameTimer (player w) else 0%Q in
    let n :=
      len (match mode with
           | Walk => heroWalkFrames w
           | Idle => heroIdleFrames w
           end) in
    let fps :=
      inject_Z (match mode with
                | Walk => SPRITES_walk_fps
                | Idle => SPRITES_idle_fps
                end) in
    State.transitioning (state w) = false ->
    ((t - lastT w) / 1000 == 10 * (1 / fps))%Q ->
    0 <= i0 < n ->
    let w' := fst (loop W H t now u w) in
    Player.anim (player w') = mode
    /\ Player.frameIndex (player w')
       = (if Qle_bool (1 / fps) (t0 + (33 # 1000)) then Z.rem (i0 + 1) n
          else i0).
Proof.
  intros W H t now u w mode same i0 t0 n fps Htr Hel Hi w'.
  assert (Hdt : (tick_dt t (lastT w) == 33 # 1000)%Q).
  { destruct mode; [apply (tick_dt_clamped t (lastT w) SPRITES_idle_fps)
                   | apply (tick_dt_clamped t (lastT w) SPRITES_walk_fps)];
      try exact Hel; unfold SPRITES_idle_fps, SPRITES_walk_fps; lia. }
  destruct (loop_player_frame W H t now u w Htr Hi) as [Ha Hidx].
  split; [exact Ha|]. unfold w'. rewrite Hidx.
  fold mode same. fold t0 i0 n fps.
  now rewrite (Qle_bool_comp _ (t0 + tick_dt t (lastT w))
                 (t0 + (33 # 1000))) by now rewrite Hdt.
Qed.

Lemma player_frame_single_step_witness :
  State.transitioning (state world_idle) = false
  /\ (((10000 # 6) - lastT world_idle) / 1000 == 10 * (1 / inject_Z 6))%Q
  /\ 0 <= Player.frameIndex (player world_idle)
       < len (heroIdleFrames world_idle)
  /\ Player.frameIndex
       (player (fst (loop 800 600 (10000 # 6) 0 0 world_idle))) = 0.
Proof.
  assert (Hel : (((10000 # 6) - lastT world_idle) / 1000
                 == 10 * (1 / inject_Z 6))%Q) by reflexivity.
  assert (Hi : 0 <= Player.frameIndex (player world_idle)
               < len (heroIdleFrames world_idle))
    by (split; [discriminate | reflexivity]).
  split; [reflexivity|]. split; [exact Hel|]. split; [exact Hi|].
  exact (proj2 (player_frame_single_step 800 600 (10000 # 6) 0 0 world_idle
                  eq_refl Hel Hi)).
Defined.

(** C2, as stated, fails: idle on the first of four frames with the timer at
    [0], a tick that delivers ten frame intervals (ten sixths of a second)
    leaves the frame index at [0], where an advance by ten frames would make
    it [2]. *)
Lemma player_frame_no_catch_up :
  State.transitioning (state world_idle) = false
  /\ Player.anim (player world_idle) = Idle
  /\ len (heroIdleFrames world_idle) = 4
  /\ (((10000 # 6) - lastT world_idle) / 1000
      == 10 * (1 / inject_Z SPRITES_idle_fps))%Q
  /\ Player.frameIndex
       (player (fst (loop 800 600 (10000 # 6) 0 0 world_idle))) = 0
  /\ Z.rem (Player.frameIndex (player world_idle) + 10)
           (len (heroIdleFrames world_idle)) = 2
  /\ Player.frameIndex
       (player (fst (loop 800 600 (10000 # 6) 0 0 world_idle)))
     <> Z.rem (Player.frameIndex (player world_idle) + 10)
              (len (heroIdleFrames world_idle)).
Proof.
  repeat split; try reflexivity. vm_compute. discriminate.
Qed.

(** ** Loading the levels *)

Lemma findIndex_from_none {A} (p : A -> bool) a i :
  existsb p a = false -> findIndex_from p a i = -1.
Proof.
  revert i. induction a as [|v a IH]; intros i E; simpl in *; [reflexivity|].
  apply orb_false_iff in E. destruct E as [-> E]. now apply IH.
Qed.

Lemma findIndex_from_some {A} (p : A -> bool) a i :
  existsb p a = true ->
  exists (k : nat) v,
    findIndex_from p a i = i + Z.of_nat k
    /\ nth_error a k = Some v /\ p v = true
    /\ forall j v', (j < k)%nat -> nth_error a j = Some v' -> p v' = false.
Proof.
  revert i. induction a as [|v a IH]; intros i E; simpl in *; [discriminate|].
  destruct (p v) eqn:Ev.
  - exists 0%nat, v. repeat split; try assumption; [lia|]. intros j v' Hj. lia.
  - simpl in E. destruct (IH (i + 1) E) as (k & v0 & Hf & Hn & Hp & Hfirst).
    exists (S k), v0. repeat split; try assumption; [lia|].
    intros [|j] v' Hj Hnth; simpl in Hnth.
    + injection Hnth as <-. assumption.
    + apply (Hfirst j); [lia | assumption].
Qed.

Lemma findIndex_range {A} (p : A -> bool) a :
  findIndex p a = -1 \/ 0 <= findIndex p a < len a.
Proof.
  unfold findIndex. destruct (existsb p a) eqn:E.
  - right. destruct (findIndex_from_some p a 0 E) as (k & v & -> & Hn & _).
    assert (k < length a)%nat by (apply nth_error_Some; congruence).
    unfold len. lia.
  - left. now apply findIndex_from_none.
Qed.

Lemma loadLevel_levels env acc lvl :
  fst (loadLevel env acc lvl)
  = fst acc ++ (if usable env lvl then [lvl] else []).
Proof.
  unfold loadLevel, usable. destruct acc as [loaded assets]. simpl fst.
  destruct (truthy (Level.background lvl)); simpl;
    [|now rewrite app_nil_r].
  destruct (Env.loadImage env _); simpl; [reflexivity | now rewrite app_nil_r].
Qed.

(** The loop keeps the levels whose background loads, in the order of the
    level file. *)
Lemma loadLevel_fold env levels : forall acc,
  fst (fold_left (loadLevel env) levels acc)
  = fst acc ++ filter (usable env) levels.
Proof.
  induction levels as [|lvl levels IH]; intros acc; simpl.
  - now rewrite app_nil_r.
  - rewrite IH, loadLevel_levels, <- app_assoc.
    now destruct (usable env lvl).
Qed.


Lemma config_levels_Some env levels :
  config_levels env = Some levels <->
  Env.fetchLevels env = Json (Some levels) /\ levels <> [].
Proof.
  unfold config_levels.
  destruct (Env.fetchLevels env) as [| | |[[|l ls]|]]; split;
    try discriminate; try (intros [E Hne]; try discriminate;
                           injection E as <-; congruence).
  intros E. injection E as <-. split; [reflexivity | discriminate].
Qed.

(** What [loadLevels] does with a usable level list. *)
Lemma loadLevels_run env u w levels :
  config_levels env = Some levels ->
  loadLevels env u w
  = if existsb (usable env) levels then
      let assets := snd (fold_left (loadLevel env) levels
                                   ([], levelAssets w)) in
      let w := set_levelAssets assets w in
      let w := set_levelData (filter (usable env) levels) w in
      let w :=
        set_state
          (set_homeIndex (findIndex Level.isHome (levelData w)) (state w))
          w in
      Ok (initCarouselWithHomeOrFallback u w)
    else Throw NoValidLevels.
Proof.
  intros Hc. apply config_levels_Some in Hc. destruct Hc as [Hf Hne].
  unfold loadLevels. rewrite Hf.
  destruct (Z.eqb_spec (len levels) 0) as [E|_].
  { destruct levels; [congruence|]. rewrite len_cons in E.
    pose proof (len_nonneg levels). lia. }
  pose proof (loadLevel_fold env levels ([], levelAssets w)) as Hfold.
  destruct (fold_left (loadLevel env) levels ([], levelAssets w))
    as [loaded assets].
  simpl in Hfold. subst loaded.
  destruct (existsb (usable env) levels) eqn:Ex.
  - destruct (Z.eqb_spec (len (filter (usable env) levels)) 0) as [E|_];
      [|reflexivity].
    assert (Hnil : filter (usable env) levels = []).
    { destruct (filter (usable env) levels); [reflexivity|].
      rewrite len_cons in E. pose proof (len_nonneg l). lia. }
    apply filter_nil_existsb in Hnil. congruence.
  - apply filter_nil_existsb in Ex. rewrite Ex. reflexivity.
Qed.

Lemma loadLevels_no_config env u w :
  config_levels env = None -> exists e, loadLevels env u w = Throw e.
Proof.
  unfold config_levels, loadLevels.
  destruct (Env.fetchLevels env) as [| | |[[|l ls]|]]; intros E;
    try discriminate; eexists; reflexivity.
Qed.











(** C9 (fatal load failure), where [src/main.js] departs from it.  A level
    file of one level whose background loads and whose first layer has the
    number [5] for a type: the loader of [src/main.js] drops the level and
    throws for want of a level, the loader of [src/unnamed/part_000], which
    reads the type through [String(...)], keeps the level. *)
Theorem MainJs_loadLevels_type_error :
  usable numeric_env numeric_level = true
  /\ MainJs.loadOptionalLayer numeric_env (Level.layer1 numeric_level)
     = MainJs.TypeError
  /\ MainJs.loadLevels numeric_env None (1 # 2) world_boot
     = Throw NoValidLevels
  /\ exists w',
       loadLevels numeric_env (1 # 2) world_boot = Ok w'
       /\ levelData w' = [numeric_level].
Proof.
  split; [reflexivity|]. split; [reflexivity|]. split; [reflexivity|].
  eexists. split; reflexivity.
Qed.

(** The sample level file loads: the level without a background is left
    out, the level whose foreground and layers fail is kept. *)
Example loadLevels_sample :
  exists w',
    loadLevels sample_env (1 # 2) world_boot = Ok w'
    /\ map Level.id (levelData w') = [Some "home"; Some "bare"]%string
    /\ State.carousel (state w') = [Some 0].
Proof. eexists. split; [reflexivity|]. split; reflexivity. Qed.

(** The seed of the carousel, from a pool and the home index [findIndex]
    finds in it. *)
Lemma initCarousel_seed u w :
  unit_draw u -> 1 <= len (levelData w) ->
  State.homeIndex (state w) = findIndex Level.isHome (levelData w) ->
  let w' := initCarouselWithHomeOrFallback u w in
  exists i lvl,
    State.carousel (state w') = [Some i]
    /\ State.carouselPos (state w') = 0
    /\ State.levelIndex (state w') = Some i
    /\ idx (levelData w) i = Some lvl
    /\ levelData w' = levelData w
    /\ (existsb Level.isHome (levelData w) = true ->
        Level.isHome lvl = true
        /\ forall j lvl', 0 <= j < i -> idx (levelData w) j = Some lvl' ->
                          Level.isHome lvl' = false).
Proof.
  intros Hu Hn Hh w'. subst w'. unfold initCarouselWithHomeOrFallback.
  destruct (existsb Level.isHome (levelData w)) eqn:Ex.
  - destruct (findIndex_from_some Level.isHome (levelData w) 0 Ex)
      as (k & lvl & Hk & Hnth & Hp & Hfirst).
    fold (findIndex Level.isHome (levelData w)) in Hk. rewrite <- Hh in Hk.
    destruct (Z.eqb_spec (State.homeIndex (state w)) (-1)) as [E|_]; [lia|].
    simpl. exists (State.homeIndex (state w)), lvl.
    repeat split; try assumption.
    + unfold idx. destruct (Z.ltb_spec (State.homeIndex (state w)) 0); [lia|].
      now replace (Z.to_nat (State.homeIndex (state w))) with k by lia.
    + intros j lvl' Hj Hidx. unfold idx in Hidx.
      destruct (Z.ltb_spec j 0); [lia|].
      apply (Hfirst (Z.to_nat j)); [lia | assumption].
  - rewrite Hh. unfold findIndex. rewrite findIndex_from_none by assumption.
    simpl.
    pose proof (randInt_range (len (levelData w)) u Hu ltac:(lia)) as Hr.
    destruct (idx_in_range (levelData w) _ Hr) as [lvl Hlvl].
    exists (randInt 0 (len (levelData w) - 1) u), lvl.
    repeat split; try assumption; discriminate.
Qed.

Lemma randInt_floor n u : randInt 0 (n - 1) u = Qfloor (u * inject_Z n).
Proof.
  unfold randInt. replace (n - 1 - 0 + 1) with n by lia. apply Z.add_0_r.
Qed.

Lemma randInt_reach n k :
  0 <= k < n -> exists u, unit_draw u /\ randInt 0 (n - 1) u = k.
Proof.
  intros Hk.
  assert (Hq : (0 < inject_Z n)%Q).
  { change 0%Q with (inject_Z 0). rewrite <- Zlt_Qlt. lia. }
  assert (Hk0 : (0 <= inject_Z k)%Q).
  { change 0%Q with (inject_Z 0). rewrite <- Zle_Qle. lia. }
  assert (Hk1 : (inject_Z k < inject_Z n)%Q) by (rewrite <- Zlt_Qlt; lia).
  exists (inject_Z k / inject_Z n)%Q. split; [split|].
  - apply Qle_shift_div_l; [exact Hq | lra].
  - apply Qlt_shift_div_r; [exact Hq | lra].
  - rewrite randInt_floor.
    assert (E : (inject_Z k / inject_Z n * inject_Z n == inject_Z k)%Q).
    { field. intros E0. rewrite E0 in Hq. discriminate. }
    rewrite E. apply Qfloor_Z.
Qed.

(** X29 (the seed of the carousel).  After a successful [loadLevels] the
    carousel holds exactly one index, the cursor is on it, and it is the
    current level index, the index of a level of the pool.  When a level of
    the pool is flagged home, it is the index of the first such level; when
    none is, it is the index [floor(u * n)] that the draw [u] of
    [Math.random()] gives in a pool of [n] levels, and every index of the
    pool is the seed for some draw. *)
Theorem startup_seed :
  forall (env : Env.t) (u : Q) (w w' : World.t),
    unit_draw u ->
    loadLevels env u w = Ok w' ->
    exists i lvl,
      State.carousel (state w') = [Some i]
      /\ State.carouselPos (state w') = 0
      /\ State.levelIndex (state w') = Some i
      /\ currentLevel w' = Some lvl
      /\ 0 <= i < len (levelData w')
      /\ (existsb Level.isHome (levelData w') = true ->
          Level.isHome lvl = true
          /\ i = findIndex Level.isHome (levelData w')
          /\ forall j lvl', 0 <= j < i -> idx (levelData w') j = Some lvl' ->
                            Level.isHome lvl' = false)
      /\ (existsb Level.isHome (levelData w') = false ->
          i = Qfloor (u * inject_Z (len (levelData w')))
          /\ forall k, 0 <= k < len (levelData w') ->
               exists u' w'',
                 unit_draw u'
                 /\ loadLevels env u' w = Ok w''
                 /\ levelData w'' = levelData w'
                 /\ State.carousel (state w'') = [Some k]
                 /\ State.levelIndex (state w'') = Some k).
Proof.
  intros env u w w' Hu Hload.
  destruct (config_levels env) as [levels|] eqn:Hc.
  2:{ destruct (loadLevels_no_config env u w Hc) as [e He]. congruence. }
  rewrite (loadLevels_run env u w levels Hc) in Hload.
  destruct (existsb (usable env) levels) eqn:Ex; [|discriminate].
  cbv zeta in Hload. injection Hload as Hw'.
  set (w0 := set_state _ _) in Hw'.
  assert (Hn : 1 <= len (levelData w0)).
  { cbn. destruct (filter (usable env) levels) eqn:Ef.
    - apply filter_nil_existsb in Ef. congruence.
    - rewrite len_cons. pose proof (len_nonneg l). lia. }
  destruct (initCarousel_seed u w0 Hu Hn eq_refl)
    as (i & lvl & Hcar & Hpos & Hli & Hidx & Hld & Hhome).
  rewrite Hw' in Hcar, Hpos, Hli, Hld.
  exists i, lvl. rewrite Hld.
  split; [assumption|]. split; [assumption|]. split; [assumption|].
  split; [unfold currentLevel; now rewrite Hli, Hld|].
  assert (Hi : 0 <= i < len (levelData w0)).
  { unfold idx in Hidx. destruct (Z.ltb_spec i 0); [discriminate|].
    assert (Z.to_nat i < length (levelData w0))%nat
      by (apply nth_error_Some; congruence).
    unfold len. lia. }
  split; [assumption|]. split.
  - intros Hex. destruct (Hhome Hex) as [Hp Hfirst].
    split; [assumption|]. split; [|assumption].
    subst w'. unfold initCarouselWithHomeOrFallback in Hli.
    destruct (findIndex_from_some Level.isHome (levelData w0) 0 Hex)
      as (k & _ & Hk & _).
    fold (findIndex Level.isHome (levelData w0)) in Hk.
    change (State.homeIndex (state w0))
      with (findIndex Level.isHome (levelData w0)) in Hli.
    destruct (Z.eqb_spec (findIndex Level.isHome (levelData w0)) (-1));
      [lia|].
    simpl in Hli. injection Hli as <-. reflexivity.
  - intros Hnone. split.
    + subst w'. unfold initCarouselWithHomeOrFallback in Hli.
      change (State.homeIndex (state w0))
        with (findIndex Level.isHome (levelData w0)) in Hli.
      unfold findIndex in Hli.
      rewrite findIndex_from_none in Hli by assumption.
      simpl in Hli. injection Hli as <-. apply randInt_floor.
    + intros k Hk.
      destruct (randInt_reach (len (levelData w0)) k Hk) as (u' & Hu' & Hr).
      exists u', (initCarouselWithHomeOrFallback u' w0).
      split; [exact Hu'|]. split.
      { rewrite (loadLevels_run env u' w levels Hc), Ex. reflexivity. }
      unfold initCarouselWithHomeOrFallback.
      change (State.homeIndex (state w0))
        with (findIndex Level.isHome (levelData w0)).
      unfold findIndex. rewrite findIndex_from_none by assumption.
      rewrite Hr. now repeat split.
Qed.

Lemma startup_seed_witness :
  unit_draw (1 # 2)
  /\ (exists w', loadLevels sample_env (1 # 2) world_boot = Ok w')
  /\ exists w' i,
       loadLevels sample_env (1 # 2) world_boot = Ok w'
       /\ State.carousel (state w') = [Some i]
       /\ State.levelIndex (state w') = Some i.
Proof.
  split; [exact unit_draw_half|]. split; [eexists; reflexivity|].
  destruct (startup_seed sample_env (1 # 2) world_boot _ unit_draw_half
              eq_refl) as (i & lvl & Hc & _ & Hli & _).
  eexists. exists i. split; [reflexivity|]. split; assumption.
Defined.

(** ** The animation timer of a layer *)

Lemma layer_spf_pos fps : (0 < layer_spf fps)%Q.
Proof.
  unfold layer_spf. apply Qlt_shift_div_l.
  - apply Qlt_le_trans with 1%Q; [reflexivity | apply Q.le_max_l].
  - rewrite Qmult_0_l. reflexivity.
Qed.

(** The loop leaves when the timer is below the frame interval: with a
    timer below [(k + 1) * spf], [k] turns are enough. *)
Lemma advanceFrames_below (spf : Q) (n : Z) (k : nat) : forall timer i,
  (timer < inject_Z (Z.of_nat k + 1) * spf)%Q ->
  Qle_bool spf (fst (advanceFrames k spf n timer i)) = false.
Proof.
  induction k as [|k IH]; intros timer i Hlt.
  - simpl. apply Qle_bool_false. simpl in Hlt. now rewrite Qmult_1_l in Hlt.
  - simpl advanceFrames. destruct (Qle_bool spf timer) eqn:E.
    + apply IH. rewrite Nat2Z.inj_succ in Hlt.
      replace (Z.succ (Z.of_nat k) + 1) with (Z.of_nat k + 1 + 1) in Hlt by lia.
      rewrite (inject_Z_plus (Z.of_nat k + 1) 1) in Hlt.
      change (inject_Z 1) with 1%Q in Hlt. lra.
    + exact E.
Qed.

(** The unrolling that [drawOptionalLayerAsset] takes runs the loop to its
    end. *)
Lemma advanceFrames_exits (spf : Q) (n : Z) (timer : Q) (i : Z) :
  (0 < spf)%Q ->
  Qle_bool spf (fst (advanceFrames (turns spf timer) spf n timer i)) = false.
Proof.
  intros Hspf. apply advanceFrames_below. unfold turns.
  pose proof (Qlt_floor (timer / spf)) as Hfl.
  assert (Hle : (inject_Z (Qfloor (timer / spf) + 1)
                 <= inject_Z (Z.of_nat (Z.to_nat (Qfloor (timer / spf))) + 1))%Q).
  { rewrite <- Zle_Qle. lia. }
  assert (Hdiv : (timer / spf
                  < inject_Z (Z.of_nat (Z.to_nat (Qfloor (timer / spf))) + 1))%Q)
    by (eapply Qlt_le_trans; eassumption).
  setoid_replace timer with (timer / spf * spf)%Q at 1
    by (field; intros E; rewrite E in Hspf; discriminate).
  apply Qmult_lt_compat_r; assumption.
Qed.

(** The loop takes as many turns as the timer asks for, where the player's
    timer takes one: a layer of four frames at 12 frames a second that gets
    0.3 s in one draw moves three frames on. *)
Example layer_steps_sample :
  exists timer',
    fst (drawOptionalLayerAsset 800 600
           (FramesLayer (map sample_image ["a"; "b"; "c"; "d"]%string)
                        12 0 0 AlignScreen) (3 # 10) world_idle)
    = FramesLayer (map sample_image ["a"; "b"; "c"; "d"]%string)
                  12 timer' 3 AlignScreen.
Proof. eexists. vm_compute. reflexivity. Qed.

(** ** The invariant along a run *)

Lemma same_carousel_refl w : same_carousel w w.
Proof. now repeat split. Qed.

Lemma same_carousel_trans w1 w2 w3 :
  same_carousel w1 w2 -> same_carousel w2 w3 -> same_carousel w1 w3.
Proof.
  intros (A1 & A2 & A3 & A4) (B1 & B2 & B3 & B4).
  repeat split; congruence.
Qed.

Lemma same_carousel_inv w w' :
  same_carousel w w' ->
  (home_ok w -> home_ok w') /\ (carousel_inv w -> carousel_inv w').
Proof.
  intros (E1 & E2 & E3 & E4). unfold home_ok, carousel_inv.
  rewrite E1, E2, E3, E4. tauto.
Qed.

Lemma carouselMoveRight_home_ok u w :
  home_ok w -> home_ok (snd (carouselMoveRight u w)).
Proof.
  destruct (carouselMoveRight_frame u w) as (c & pos & ->). exact id.
Qed.

Lemma carouselMoveLeft_home_ok u w :
  home_ok w -> home_ok (snd (carouselMoveLeft u w)).
Proof.
  destruct (carouselMoveLeft_frame u w) as (c & pos & ->). exact id.
Qed.

(** A successful load leaves a world that meets the invariant. *)
Lemma loadLevels_establishes env u w w' :
  loadLevels env u w = Ok w' -> home_ok w' /\ carousel_inv w'.
Proof.
  intros Hload.
  destruct (config_levels env) as [levels|] eqn:Hc.
  2:{ destruct (loadLevels_no_config env u w Hc) as [e He]. congruence. }
  rewrite (loadLevels_run env u w levels Hc) in Hload.
  destruct (existsb (usable env) levels) eqn:Ex; [|discriminate].
  cbv zeta in Hload. injection Hload as <-.
  set (w0 := set_state _ _).
  assert (Hn : 1 <= len (levelData w0)).
  { cbn. destruct (filter (usable env) levels) eqn:Ef.
    - apply filter_nil_existsb in Ef. congruence.
    - rewrite len_cons. pose proof (len_nonneg l). lia. }
  split; [|now apply initCarousel_inv].
  assert (Hh : home_ok w0) by apply findIndex_range.
  unfold initCarouselWithHomeOrFallback. now destruct (negb _).
Qed.

Lemma finishTransition_same W u w :
  same_carousel
    (snd (if isLeft (State.lastEdge (state w)) then carouselMoveLeft u w
          else carouselMoveRight u w))
    (finishTransition W u w).
Proof.
  unfold finishTransition.
  destruct (if isLeft (State.lastEdge (state w)) then carouselMoveLeft u w
            else carouselMoveRight u w) as [r w1].
  cbv zeta.
  cbn [State.lastEdge state set_state set_levelIndex set_carousel set_player
       snd].
  destruct (isLeft (State.lastEdge (state w1))); unfold setAnim;
    cbn [player set_player Player.anim set_facing set_x];
    destruct (Anim_eqb _ Idle); now repeat split.
Qed.

Lemma finishTransition_inv W u w :
  home_ok w -> unit_draw u -> carousel_inv w ->
  home_ok (finishTransition W u w) /\ carousel_inv (finishTransition W u w).
Proof.
  intros Hh Hu Hinv.
  destruct (same_carousel_inv _ _ (finishTransition_same W u w)) as [H1 H2].
  destruct (isLeft (State.lastEdge (state w))).
  - split; [apply H1, carouselMoveLeft_home_ok
           | apply H2, carouselMoveLeft_inv]; assumption.
  - split; [apply H1, carouselMoveRight_home_ok
           | apply H2, carouselMoveRight_inv]; assumption.
Qed.

Lemma triggerEdge_same now edge w : same_carousel w (triggerEdge now edge w).
Proof.
  unfold triggerEdge. destruct (State.transitioning (state w));
    now repeat split.
Qed.

Lemma loop_steady_same W now dt w : same_carousel w (loop_steady W now dt w).
Proof.
  unfold loop_steady.
  apply same_carousel_trans with (steady_input w).
  { unfold steady_input. destruct (negb _); unfold setAnim;
      destruct (Anim_eqb _ _); now repeat split. }
  apply same_carousel_trans
    with (steady_move W now dt (held_vx w) (steady_input w)).
  { unfold steady_move. cbv zeta.
    destruct (Qle_bool _ 0); [at_trigger triggerEdge_same|].
    destruct (Qle_bool _ _); [at_trigger triggerEdge_same|].
    now repeat split. }
  unfold steady_animate. cbv zeta. destruct (Qle_bool _ _); now repeat split.
Qed.

Lemma drawPlayer_same w : same_carousel w (fst (drawPlayer w)).
Proof.
  unfold drawPlayer. destruct (negb _); [now repeat split|].
  destruct (len (currentFrames w) =? 0); [now repeat split|].
  destruct (idx _ _); now repeat split.
Qed.

Lemma drawLayerN_same W H key dt w :
  same_carousel w (fst (drawLayerN W H key dt w)).
Proof.
  destruct (drawLayerN_frame W H key dt w) as [m ->]. now repeat split.
Qed.

Lemma loop_draw_same W H dt w : same_carousel w (fst (loop_draw W H dt w)).
Proof.
  unfold loop_draw.
  pose proof (drawLayerN_same W H key_l1 dt w) as S1.
  destruct (drawLayerN W H key_l1 dt w) as [w1 c1]. simpl in S1.
  pose proof (drawPlayer_same w1) as S2.
  destruct (drawPlayer w1) as [w2 c2]. simpl in S2.
  pose proof (drawLayerN_same W H key_l2 dt w2) as S3.
  destruct (drawLayerN W H key_l2 dt w2) as [w3 c3]. simpl in S3.
  pose proof (drawLayerN_same W H key_l3 dt w3) as S4.
  destruct (drawLayerN W H key_l3 dt w3) as [w4 c4]. simpl in S4.
  pose proof (drawLayerN_same W H key_l4 dt w4) as S5.
  destruct (drawLayerN W H key_l4 dt w4) as [w5 c5]. simpl in S5.
  simpl. eauto using same_carousel_trans.
Qed.

(** Every tick keeps the invariant: all the worlds of a run that starts
    from a successful load meet it. *)
Lemma loop_inv W H t now u w :
  home_ok w -> unit_draw u -> carousel_inv w ->
  home_ok (fst (loop W H t now u w))
  /\ carousel_inv (fst (loop W H t now u w)).
Proof.
  intros Hh Hu Hinv. unfold loop. cbv zeta.
  match goal with
  | |- context [loop_draw W H ?dt ?w1] =>
      destruct (same_carousel_inv _ _ (loop_draw_same W H dt w1)) as [H1 H2];
      assert (Hw1 : home_ok w1 /\ carousel_inv w1)
  end.
  { assert (S0 : same_carousel w (set_lastT t w)) by now repeat split.
    destruct (same_carousel_inv _ _ S0) as [A1 A2].
    destruct (negb _).
    - destruct (same_carousel_inv _ _
                  (loop_steady_same W now (tick_dt t (lastT w))
                     (set_lastT t w))) as [B1 B2].
      split; [apply B1, A1 | apply B2, A2]; assumption.
    - destruct (Qle_bool _ _).
      + apply finishTransition_inv; auto.
      + split; auto. }
  destruct Hw1. split; auto.
Qed.

(** * More of the code *)

(** ** The ring *)

Lemma ring_right u w :
  1 < len (levelData w) -> allUsed w ->
  0 <= State.carouselPos (state w) < len (State.carousel (state w)) ->
  carouselMoveRight u w
  = (at_ (State.carousel (state w))
         ((State.carouselPos (state w) + 1)
          mod len (State.carousel (state w))),
     set_state
       (set_carouselPos
          ((State.carouselPos (state w) + 1)
           mod len (State.carousel (state w))) (state w)) w).
Proof.
  intros Hn Hall Hpos. rewrite carouselMoveRight_ring by assumption.
  cbv zeta. now rewrite Z.rem_mod_nonneg by lia.
Qed.

Lemma ring_left u w :
  1 < len (levelData w) -> allUsed w ->
  0 <= State.carouselPos (state w) < len (State.carousel (state w)) ->
  carouselMoveLeft u w
  = (at_ (State.carousel (state w))
         ((State.carouselPos (state w) - 1)
          mod len (State.carousel (state w))),
     set_state
       (set_carouselPos
          ((State.carouselPos (state w) - 1)
           mod len (State.carousel (state w))) (state w)) w).
Proof.
  intros Hn Hall Hpos. rewrite carouselMoveLeft_ring by assumption.
  cbv zeta. rewrite Z.rem_mod_nonneg by lia.
  replace (State.carouselPos (state w) - 1 + len (State.carousel (state w)))
    with (State.carouselPos (state w) - 1
          + 1 * len (State.carousel (state w))) by lia.
  now rewrite Z.mod_add by lia.
Qed.

(** X1 (the ring is a ring).  Once every non-home level is in the history
    of a pool of two levels or more, right and left are inverse at every
    cursor position, the two ends included: right then left, and left then
    right, give back the world they started from, and the second move
    returns the entry the cursor started on. *)
Theorem ring_moves_inverse :
  forall (w : World.t) (u1 u2 : Q),
    1 < len (levelData w) -> allUsed w ->
    0 <= State.carouselPos (state w) < len (State.carousel (state w)) ->
    carouselMoveLeft u2 (snd (carouselMoveRight u1 w))
    = (at_ (State.carousel (state w)) (State.carouselPos (state w)), w)
    /\ carouselMoveRight u2 (snd (carouselMoveLeft u1 w))
       = (at_ (State.carousel (state w)) (State.carouselPos (state w)), w).
Proof.
  intros w u1 u2 Hn Hall Hpos.
  set (c := State.carousel (state w)) in *.
  set (p := State.carouselPos (state w)) in *.
  assert (Hback : forall q, q = p -> set_state (set_carouselPos q (state w)) w = w).
  { intros q ->. apply world_eta. }
  split.
  - rewrite (ring_right u1 w Hn Hall Hpos). fold c p. cbn [snd].
    set (w1 := set_state _ w).
    assert (Hp1 : 0 <= (p + 1) mod len c < len c)
      by (apply Z.mod_pos_bound; lia).
    rewrite (ring_left u2 w1 Hn Hall Hp1).
    change (State.carousel (state w1)) with c.
    change (State.carouselPos (state w1)) with ((p + 1) mod len c).
    assert (E : ((p + 1) mod len c - 1) mod len c = p).
    { rewrite Zminus_mod_idemp_l. replace (p + 1 - 1) with p by lia.
      apply Z.mod_small. lia. }
    rewrite E. f_equal. unfold w1. apply (Hback p eq_refl).
  - rewrite (ring_left u1 w Hn Hall Hpos). fold c p. cbn [snd].
    set (w1 := set_state _ w).
    assert (Hp1 : 0 <= (p - 1) mod len c < len c)
      by (apply Z.mod_pos_bound; lia).
    rewrite (ring_right u2 w1 Hn Hall Hp1).
    change (State.carousel (state w1)) with c.
    change (State.carouselPos (state w1)) with ((p - 1) mod len c).
    assert (E : ((p - 1) mod len c + 1) mod len c = p).
    { rewrite Zplus_mod_idemp_l. replace (p - 1 + 1) with p by lia.
      apply Z.mod_small. lia. }
    rewrite E. f_equal. unfold w1. apply (Hback p eq_refl).
Qed.

Lemma allUsed_world_ring : allUsed world_ring.
Proof. vm_compute. discriminate. Defined.

Lemma ring_moves_inverse_witness :
  1 < len (levelData world_ring) /\ allUsed world_ring
  /\ 0 <= State.carouselPos (state world_ring)
       < len (State.carousel (state world_ring))
  /\ carouselMoveLeft 0 (snd (carouselMoveRight 0 world_ring))
     = (Some 0, world_ring).
Proof.
  assert (Hn : 1 < len (levelData world_ring)) by reflexivity.
  assert (Hp : 0 <= State.carouselPos (state world_ring)
               < len (State.carousel (state world_ring)))
    by (split; [discriminate | reflexivity]).
  split; [exact Hn|]. split; [exact allUsed_world_ring|]. split; [exact Hp|].
  exact (proj1 (ring_moves_inverse world_ring 0 0 Hn allUsed_world_ring Hp)).
Defined.

Lemma ring_moveRightN us : forall w,
  1 < len (levelData w) -> allUsed w ->
  0 <= State.carouselPos (state w) < len (State.carousel (state w)) ->
  moveRightN us w
  = set_state
      (set_carouselPos
         ((State.carouselPos (state w) + len us)
          mod len (State.carousel (state w))) (state w)) w.
Proof.
  induction us as [|u us IH]; intros w Hn Hall Hpos.
  - change (len (@nil Q)) with 0. rewrite Z.add_0_r, Z.mod_small by assumption.
    symmetry. apply world_eta.
  - simpl moveRightN. rewrite (ring_right u w Hn Hall Hpos). cbn [snd].
    set (L := len (State.carousel (state w))) in *.
    set (p := State.carouselPos (state w)) in *.
    set (w1 := set_state _ w).
    assert (Hp1 : 0 <= (p + 1) mod L < L) by (apply Z.mod_pos_bound; lia).
    rewrite (IH w1 Hn Hall Hp1).
    change (State.carousel (state w1)) with (State.carousel (state w)).
    change (State.carouselPos (state w1)) with ((p + 1) mod L).
    fold L. rewrite len_cons, Zplus_mod_idemp_l.
    replace (p + 1 + len us) with (p + (len us + 1)) by lia. reflexivity.
Qed.

Lemma ring_moveLeftN us : forall w,
  1 < len (levelData w) -> allUsed w ->
  0 <= State.carouselPos (state w) < len (State.carousel (state w)) ->
  moveLeftN us w
  = set_state
      (set_carouselPos
         ((State.carouselPos (state w) - len us)
          mod len (State.carousel (state w))) (state w)) w.
Proof.
  induction us as [|u us IH]; intros w Hn Hall Hpos.
  - change (len (@nil Q)) with 0. rewrite Z.sub_0_r, Z.mod_small by assumption.
    symmetry. apply world_eta.
  - simpl moveLeftN. rewrite (ring_left u w Hn Hall Hpos). cbn [snd].
    set (L := len (State.carousel (state w))) in *.
    set (p := State.carouselPos (state w)) in *.
    set (w1 := set_state _ w).
    assert (Hp1 : 0 <= (p - 1) mod L < L) by (apply Z.mod_pos_bound; lia).
    rewrite (IH w1 Hn Hall Hp1).
    change (State.carousel (state w1)) with (State.carousel (state w)).
    change (State.carouselPos (state w1)) with ((p - 1) mod L).
    fold L. rewrite len_cons, Zminus_mod_idemp_l.
    replace (p - 1 - len us) with (p - (len us + 1)) by lia. reflexivity.
Qed.

(** X2 (once round the ring).  Once every non-home level is in the history
    of a pool of two levels or more, [k] moves to the right put the cursor
    [k] positions on, round the history, and [k] moves to the left [k]
    positions back; the history stays as it is.  As many moves as the
    history has entries, in either direction, give back the world they
    started from. *)
Theorem ring_full_cycle :
  forall (w : World.t) (us : list Q),
    1 < len (levelData w) -> allUsed w ->
    0 <= State.carouselPos (state w) < len (State.carousel (state w)) ->
    let L := len (State.carousel (state w)) in
    let p := State.carouselPos (state w) in
    State.carousel (state (moveRightN us w)) = State.carousel (state w)
    /\ State.carouselPos (state (moveRightN us w)) = (p + len us) mod L
    /\ State.carousel (state (moveLeftN us w)) = State.carousel (state w)
    /\ State.carouselPos (state (moveLeftN us w)) = (p - len us) mod L
    /\ (len us = L -> moveRightN us w = w /\ moveLeftN us w = w).
Proof.
  intros w us Hn Hall Hpos L p.
  rewrite (ring_moveRightN us w Hn Hall Hpos),
          (ring_moveLeftN us w Hn Hall Hpos).
  fold L p. cbn [state set_state State.carousel State.carouselPos
                 set_carouselPos set_carousel].
  split; [reflexivity|]. split; [reflexivity|].
  split; [reflexivity|]. split; [reflexivity|].
  intros HL. rewrite HL. split.
  - replace (p + L) with (p + 1 * L) by lia.
    rewrite Z.mod_add, Z.mod_small by lia. apply world_eta.
  - replace (p - L) with (p + (-1) * L) by lia.
    rewrite Z.mod_add, Z.mod_small by lia. apply world_eta.
Qed.

Lemma ring_full_cycle_witness :
  1 < len (levelData world_ring) /\ allUsed world_ring
  /\ 0 <= State.carouselPos (state world_ring)
       < len (State.carousel (state world_ring))
  /\ State.carouselPos (state (moveRightN [0; 0] world_ring))%Q = 1
  /\ State.carouselPos (state (moveLeftN [0; 0] world_ring))%Q = 0.
Proof.
  assert (Hn : 1 < len (levelData world_ring)) by reflexivity.
  assert (Hp : 0 <= State.carouselPos (state world_ring)
               < len (State.carousel (state world_ring)))
    by (split; [discriminate | reflexivity]).
  destruct (ring_full_cycle world_ring [0; 0]%Q Hn allUsed_world_ring Hp)
    as (_ & Hr & _ & Hl & _).
  split; [exact Hn|]. split; [exact allUsed_world_ring|]. split; [exact Hp|].
  split; [exact Hr | exact Hl].
Defined.

(** ** Filling the carousel to the left *)

Lemma usedNonHomeCount_seeded_left w l :
  0 <= State.homeIndex (state w) < len (levelData w) ->
  State.carousel (state w) = l ++ [Some (State.homeIndex (state w))] ->
  nonHomeOnly w l ->
  usedNonHomeCount w = len l.
Proof.
  intros Hh Hc Hl. unfold usedNonHomeCount. rewrite Hc, filter_app. simpl.
  assert (Hhome : isHomeIndex w (Some (State.homeIndex (state w))) = true).
  { apply isHomeIndex_true. split; [lia | reflexivity]. }
  rewrite Hhome. simpl. rewrite app_nil_r. f_equal. apply filter_all_id.
  intros y Hy. destruct (Hl y Hy) as (i & -> & Hi).
  apply nonHomeIndices_In in Hi. destruct Hi as [_ Hi]. now rewrite Hi.
Qed.

Lemma moveLeft_fill u w l :
  0 <= State.homeIndex (state w) < len (levelData w) -> unit_draw u ->
  State.carousel (state w) = l ++ [Some (State.homeIndex (state w))] ->
  State.carouselPos (state w) = 0 ->
  nonHomeOnly w l ->
  len l < len (levelData w) - 1 ->
  exists p,
    In p (nonHomeIndices w) /\ ~ In (Some p) l
    /\ snd (carouselMoveLeft u w)
       = set_state
           (set_carousel
              ((Some p :: l) ++ [Some (State.homeIndex (state w))]) 0
              (state w)) w.
Proof.
  intros Hh Hu Hc Hp Hl Hroom.
  pose proof (len_nonneg l) as Hl0.
  pose proof (usedNonHomeCount_seeded_left w l Hh Hc Hl) as Hused.
  pose proof (nonHomeIndices_len_home w Hh) as Hnh.
  assert (Hlt : usedNonHomeCount w < len (nonHomeIndices w)) by lia.
  rewrite carouselMoveLeft_prepend; try lia.
  destruct (pickUnused_spec u w Hu Hlt) as (p & -> & Hin & Hfresh).
  exists p. split; [assumption|]. split.
  - intros Hinl. apply Hfresh. rewrite Hc. apply in_or_app. now left.
  - simpl. now rewrite Hc.
Qed.

Lemma moveLeftN_fill us : forall w l,
  0 <= State.homeIndex (state w) < len (levelData w) ->
  Forall unit_draw us ->
  State.carousel (state w) = l ++ [Some (State.homeIndex (state w))] ->
  State.carouselPos (state w) = 0 ->
  NoDup l -> nonHomeOnly w l ->
  len l + len us <= len (levelData w) - 1 ->
  exists l',
    len l' = len l + len us /\ NoDup l' /\ nonHomeOnly w l'
    /\ moveLeftN us w
       = set_state
           (set_carousel (l' ++ [Some (State.homeIndex (state w))]) 0
                         (state w)) w.
Proof.
  induction us as [|u us IH]; intros w l Hh Hus Hc Hp Hnd Hl Hroom.
  - exists l. change (len (@nil Q)) with 0.
    split; [lia|]. split; [assumption|]. split; [assumption|].
    simpl. rewrite <- Hc, <- Hp. symmetry. apply world_eta.
  - rewrite len_cons in Hroom. pose proof (len_nonneg us) as Hus0.
    inversion Hus as [|? ? Hu Hus']; subst.
    destruct (moveLeft_fill u w l Hh Hu Hc Hp Hl ltac:(lia))
      as (p & Hin & Hfresh & Hstep).
    simpl moveLeftN. rewrite Hstep.
    set (w1 := set_state _ w).
    destruct (IH w1 (Some p :: l)) as (l' & Hlen & Hnd' & Hl' & Hrun).
    + exact Hh.
    + assumption.
    + reflexivity.
    + reflexivity.
    + now constructor.
    + intros v [<-|Hv]; [exists p; now split | exact (Hl v Hv)].
    + rewrite len_cons.
      change (len (levelData w1)) with (len (levelData w)). lia.
    + exists l'. rewrite len_cons in Hlen. rewrite len_cons.
      split; [lia|]. split; [assumption|]. split; [assumption|]. exact Hrun.
Qed.

(** X3 (carousel exhaustion, to the left).  The mirror of the run to the
    right: in a pool of [N] non-home levels and one home level, [N] calls of
    [carouselMoveLeft] from the home-seeded carousel leave a history of
    [N + 1] entries in which every non-home index occurs exactly once, the
    home index last and the cursor at position [0]; the call after them
    inserts nothing and rotates the cursor to the last position, the home
    index. *)
Theorem carousel_exhaustion_left :
  forall (w : World.t) (us : list Q) (u0 u : Q),
    0 <= State.homeIndex (state w) < len (levelData w) ->
    len us = len (levelData w) - 1 ->
    Forall unit_draw us ->
    let home := State.homeIndex (state w) in
    let wN := moveLeftN us (initCarouselWithHomeOrFallback u0 w) in
    let r := fst (carouselMoveLeft u wN) in
    let w' := snd (carouselMoveLeft u wN) in
    (forall i, 0 <= i < len (levelData w) -> i <> home ->
       count_occ jsnum_eq_dec (State.carousel (state wN)) (Some i) = 1%nat)
    /\ len (State.carousel (state wN)) = len (levelData w)
    /\ State.carouselPos (state wN) = 0
    /\ State.carousel (state w') = State.carousel (state wN)
    /\ r = at_ (State.carousel (state w')) (State.carouselPos (state w'))
    /\ r = Some home
    /\ State.carouselPos (state w') = len (levelData w) - 1.
Proof.
  intros w us u0 u Hh Hlen Hus home wN r w'.
  assert (Hinit : initCarouselWithHomeOrFallback u0 w
                  = set_state
                      (set_levelIndex (Some home)
                         (set_carousel [Some home] 0 (state w))) w).
  { unfold initCarouselWithHomeOrFallback, home.
    destruct (Z.eqb_spec (State.homeIndex (state w)) (-1)); [lia|].
    reflexivity. }
  subst wN r w'. rewrite Hinit. clear Hinit. set (w0 := set_state _ w).
  destruct (moveLeftN_fill us w0 []) as (l & Hl & Hnd & Hnh & Hrun);
    try assumption; try reflexivity.
  { apply NoDup_nil. }
  { intros v []. }
  { change (len (@nil jsnum)) with 0.
    change (len (levelData w0)) with (len (levelData w)). lia. }
  change (len (@nil jsnum)) with 0 in Hl.
  change (State.homeIndex (state w0)) with home in Hrun.
  rewrite Hrun. clear Hrun. set (wN := set_state _ w0).
  assert (HcN : State.carousel (state wN) = l ++ [Some home]) by reflexivity.
  assert (Hlast : at_ (l ++ [Some home]) (len l) = Some home).
  { unfold at_, idx. pose proof (len_nonneg l).
    destruct (Z.ltb_spec (len l) 0); [lia|].
    unfold len. rewrite Nat2Z.id, nth_error_app2, Nat.sub_diag by lia.
    reflexivity. }
  assert (Hfresh : ~ In (Some home) l).
  { intros Hin. destruct (Hnh _ Hin) as (j & E & Hj). injection E as <-.
    apply nonHomeIndices_In in Hj. destruct Hj as [_ Hj].
    assert (Ht : isHomeIndex w (Some home) = true)
      by (apply isHomeIndex_true; split; [unfold home; lia | reflexivity]).
    change (isHomeIndex w0 (Some home)) with (isHomeIndex w (Some home)) in Hj.
    congruence. }
  assert (HndN : NoDup (l ++ [Some home])).
  { apply NoDup_app; [assumption | |].
    - apply NoDup_cons; [simpl; tauto | apply NoDup_nil].
    - intros a Ha [<-|[]]. contradiction. }
  assert (Hall : forall i, In i (nonHomeIndices w) -> In (Some i) l).
  { intros i Hi.
    assert (Hincl : incl (map Some (nonHomeIndices w)) l).
    { apply NoDup_length_incl; [assumption | |].
      - rewrite length_map.
        pose proof (nonHomeIndices_len_home w Hh) as Hn.
        unfold len in *. lia.
      - intros v Hv. destruct (Hnh v Hv) as (j & -> & Hj). now apply in_map. }
    apply Hincl. now apply in_map. }
  split.
  { intros i Hi Hne. rewrite HcN.
    apply NoDup_count_occ'; [assumption|]. apply in_or_app. left. apply Hall.
    apply nonHomeIndices_In. split; [assumption|].
    destruct (isHomeIndex w (Some i)) eqn:E; [|reflexivity].
    apply isHomeIndex_true in E. destruct E as [_ E]. injection E as ->.
    now contradiction Hne. }
  split.
  { rewrite HcN, len_app. change (len [Some home]) with 1. lia. }
  split; [reflexivity|].
  destruct (Z.le_gt_cases (len (levelData w)) 1) as [Hn|Hn].
  - rewrite carouselMoveLeft_single
      by (change (len (levelData wN)) with (len (levelData w)); assumption).
    assert (El : l = []).
    { destruct l; [reflexivity|]. rewrite len_cons in Hl.
      pose proof (len_nonneg l). lia. }
    subst l. cbn [fst snd].
    change (State.levelIndex (state wN)) with (Some home). rewrite HcN.
    change (len (@nil jsnum)) with 0 in Hl.
    repeat split; try reflexivity.
    change (State.carouselPos (state wN)) with 0. lia.
  - assert (Hused : usedNonHomeCount wN = len l).
    { apply usedNonHomeCount_seeded_left;
        [exact Hh | reflexivity | exact Hnh]. }
    pose proof (nonHomeIndices_len_home w Hh) as Hnhl.
    pose proof (len_nonneg l) as Hl0.
    rewrite carouselMoveLeft_ring;
      [ | change (len (levelData wN)) with (len (levelData w)); assumption
        | change (nonHomeIndices wN) with (nonHomeIndices w); lia ].
    assert (Hpos : Z.rem (State.carouselPos (state wN) - 1
                          + len (State.carousel (state wN)))
                         (len (State.carousel (state wN))) = len l).
    { rewrite HcN, len_app. change (len [Some home]) with 1.
      change (State.carouselPos (state wN)) with 0.
      replace (0 - 1 + (len l + 1)) with (len l) by lia.
      apply Z.rem_small. lia. }
    cbv zeta. rewrite Hpos. cbn [fst snd]. rewrite HcN.
    cbn [state set_state State.carousel State.carouselPos set_carouselPos
         set_carousel].
    rewrite Hlast. repeat split; try reflexivity; [|lia].
    rewrite HcN. now rewrite Hlast.
Qed.

Lemma carousel_exhaustion_left_witness :
  (0 <= State.homeIndex (state world_3) < len (levelData world_3))
  /\ len [1 # 2; 1 # 2] = len (levelData world_3) - 1
  /\ Forall unit_draw [1 # 2; 1 # 2]
  /\ fst (carouselMoveLeft 0
            (moveLeftN [1 # 2; 1 # 2]
               (initCarouselWithHomeOrFallback 0 world_3)))
     = Some 1
  /\ State.carouselPos
       (state (snd (carouselMoveLeft 0
                      (moveLeftN [1 # 2; 1 # 2]
                         (initCarouselWithHomeOrFallback 0 world_3)))))
     = len (levelData world_3) - 1.
Proof.
  assert (H1 : 0 <= State.homeIndex (state world_3)
               < len (levelData world_3)) by (vm_compute; split; congruence).
  assert (H2 : len [1 # 2; 1 # 2] = len (levelData world_3) - 1)
    by reflexivity.
  assert (H3 : Forall unit_draw [1 # 2; 1 # 2])
    by (repeat constructor; apply unit_draw_half).
  pose proof (carousel_exhaustion_left world_3 [1 # 2; 1 # 2] 0 0 H1 H2 H3)
    as (_ & _ & _ & _ & _ & Hr & Hp).
  split; [exact H1|]. split; [exact H2|]. split; [exact H3|].
  split; [exact Hr | exact Hp].
Defined.

(** ** The level on show *)

Lemma at_last (c : list jsnum) v : at_ (c ++ [v]) (len (c ++ [v]) - 1) = v.
Proof.
  rewrite len_app. change (len [v]) with 1.
  replace (len c + 1 - 1) with (len c) by lia.
  unfold at_, idx. pose proof (len_nonneg c).
  destruct (Z.ltb_spec (len c) 0); [lia|].
  unfold len. rewrite Nat2Z.id, nth_error_app2, Nat.sub_diag by lia.
  reflexivity.
Qed.

(** With two levels or more, a move returns the entry under the cursor it
    leaves. *)
Lemma carouselMoveRight_returns u w :
  1 < len (levelData w) ->
  fst (carouselMoveRight u w)
  = at_ (State.carousel (state (snd (carouselMoveRight u w))))
        (State.carouselPos (state (snd (carouselMoveRight u w)))).
Proof.
  intros Hn. unfold carouselMoveRight.
  destruct (Z.leb_spec (len (levelData w)) 1); [lia|].
  destruct (usedNonHomeCount w >=? len (nonHomeIndices w)); [reflexivity|].
  destruct (State.carouselPos (state w) <? _); [reflexivity|].
  cbn. now rewrite at_last.
Qed.

Lemma carouselMoveLeft_returns u w :
  1 < len (levelData w) ->
  fst (carouselMoveLeft u w)
  = at_ (State.carousel (state (snd (carouselMoveLeft u w))))
        (State.carouselPos (state (snd (carouselMoveLeft u w)))).
Proof.
  intros Hn. unfold carouselMoveLeft.
  destruct (Z.leb_spec (len (levelData w)) 1); [lia|].
  destruct (usedNonHomeCount w >=? len (nonHomeIndices w)); [reflexivity|].
  destruct (State.carouselPos (state w) >? 0); reflexivity.
Qed.

Lemma nonHome_is_index w p :
  In p (nonHomeIndices w) -> 0 <= p < len (levelData w).
Proof. intros Hp. now apply nonHomeIndices_In in Hp. Qed.

Lemma carouselMoveRight_entries u w :
  unit_draw u -> entries_ok w -> entries_ok (snd (carouselMoveRight u w)).
Proof.
  intros Hu Hok.
  destruct (Z.le_gt_cases (len (levelData w)) 1) as [Hn|Hn].
  { now rewrite carouselMoveRight_single. }
  destruct (Z.lt_ge_cases (usedNonHomeCount w) (len (nonHomeIndices w)))
    as [Hused|Hused].
  - destruct (Z.lt_ge_cases (State.carouselPos (state w))
                            (len (State.carousel (state w)) - 1)) as [Hp|Hp].
    + now rewrite carouselMoveRight_step.
    + rewrite carouselMoveRight_append by assumption.
      destruct (pickUnused_spec u w Hu Hused) as (p & -> & Hin & _).
      intros v Hv. cbn in Hv. apply in_app_or in Hv.
      destruct Hv as [Hv|[<-|[]]]; [now apply Hok|].
      exists p. split; [reflexivity | now apply nonHome_is_index].
  - now rewrite carouselMoveRight_ring by lia.
Qed.

Lemma carouselMoveLeft_entries u w :
  unit_draw u -> entries_ok w -> entries_ok (snd (carouselMoveLeft u w)).
Proof.
  intros Hu Hok.
  destruct (Z.le_gt_cases (len (levelData w)) 1) as [Hn|Hn].
  { now rewrite carouselMoveLeft_single. }
  destruct (Z.lt_ge_cases (usedNonHomeCount w) (len (nonHomeIndices w)))
    as [Hused|Hused].
  - destruct (Z.lt_ge_cases 0 (State.carouselPos (state w))) as [Hp|Hp].
    + now rewrite carouselMoveLeft_step.
    + rewrite carouselMoveLeft_prepend by assumption.
      destruct (pickUnused_spec u w Hu Hused) as (p & -> & Hin & _).
      intros v [<-|Hv]; [|now apply Hok].
      exists p. split; [reflexivity | now apply nonHome_is_index].
  - now rewrite carouselMoveLeft_ring by lia.
Qed.

(** What [finishTransition] makes of the state: the state of the move, with
    the level index it returned, steady. *)
Lemma finishTransition_state W u w :
  let m := if isLeft (State.lastEdge (state w)) then carouselMoveLeft u w
           else carouselMoveRight u w in
  state (finishTransition W u w)
  = set_transition false (State.transitionUntil (state (snd m)))
      (State.lastEdge (state (snd m)))
      (set_levelIndex (fst m) (state (snd m)))
  /\ levelData (finishTransition W u w) = levelData (snd m).
Proof.
  cbv zeta. unfold finishTransition.
  destruct (if isLeft (State.lastEdge (state w)) then carouselMoveLeft u w
            else carouselMoveRight u w) as [r w1].
  cbv zeta.
  cbn [State.lastEdge state set_state set_levelIndex set_carousel set_player
       fst snd].
  destruct (isLeft (State.lastEdge (state w1))); unfold setAnim;
    cbn [player set_player Player.anim set_facing set_x];
    destruct (Anim_eqb _ Idle); now split.
Qed.

Lemma finishTransition_run_ok W u w :
  unit_draw u -> run_ok w -> run_ok (finishTransition W u w).
Proof.
  intros Hu (Hh & Hinv & Hent & Hli).
  destruct (finishTransition_inv W u w Hh Hu Hinv) as [Hh' Hinv'].
  destruct (finishTransition_state W u w) as [Hst Hld].
  split; [assumption|]. split; [assumption|]. split.
  - unfold entries_ok. rewrite Hst, Hld. cbn.
    destruct (isLeft (State.lastEdge (state w)));
      [now apply carouselMoveLeft_entries
      | now apply carouselMoveRight_entries].
  - rewrite Hst. cbn.
    destruct (Z.le_gt_cases (len (levelData w)) 1) as [Hn|Hn].
    + destruct (isLeft (State.lastEdge (state w)));
        [rewrite carouselMoveLeft_single | rewrite carouselMoveRight_single];
        assumption.
    + destruct (isLeft (State.lastEdge (state w)));
        [now apply carouselMoveLeft_returns
        | now apply carouselMoveRight_returns].
Qed.

(** The steady part of a tick touches the transition fields of the state
    only; the drawing leaves the state alone. *)
Lemma triggerEdge_state now edge w :
  exists tr until e,
    state (triggerEdge now edge w) = set_transition tr until e (state w)
    /\ levelData (triggerEdge now edge w) = levelData w.
Proof.
  unfold triggerEdge. destruct (State.transitioning (state w)).
  - exists (State.transitioning (state w)),
           (State.transitionUntil (state w)), (State.lastEdge (state w)).
    now destruct (state w).
  - now do 3 eexists.
Qed.

Lemma set_transition_eta (s : State.t) :
  set_transition (State.transitioning s) (State.transitionUntil s)
                 (State.lastEdge s) s = s.
Proof. now destruct s. Qed.

Lemma loop_steady_state W now dt w :
  exists tr until e,
    state (loop_steady W now dt w) = set_transition tr until e (state w)
    /\ levelData (loop_steady W now dt w) = levelData w.
Proof.
  unfold loop_steady.
  assert (H1 : state (steady_input w) = state w
               /\ levelData (steady_input w) = levelData w).
  { unfold steady_input. destruct (negb _); unfold setAnim;
      destruct (Anim_eqb _ _); now split. }
  destruct H1 as [E1 L1].
  assert (H2 : exists tr until e,
             state (steady_move W now dt (held_vx w) (steady_input w))
             = set_transition tr until e (state w)
             /\ levelData (steady_move W now dt (held_vx w) (steady_input w))
                = levelData w).
  { rewrite <- E1, <- L1. unfold steady_move. cbv zeta.
    destruct (Qle_bool _ 0); [at_trigger triggerEdge_state|].
    destruct (Qle_bool _ _); [at_trigger triggerEdge_state|].
    do 3 eexists. split; [|reflexivity]. symmetry. cbn [state set_player].
    apply set_transition_eta. }
  destruct H2 as (tr & until & e & E2 & L2).
  exists tr, until, e. rewrite <- E2, <- L2.
  unfold steady_animate. cbv zeta. destruct (Qle_bool _ _); now split.
Qed.

Lemma drawLayerN_state W H key dt w :
  state (fst (drawLayerN W H key dt w)) = state w.
Proof. destruct (drawLayerN_frame W H key dt w) as [m ->]. reflexivity. Qed.

Lemma drawPlayer_state w : state (fst (drawPlayer w)) = state w.
Proof.
  unfold drawPlayer. destruct (negb _); [reflexivity|].
  destruct (len (currentFrames w) =? 0); [reflexivity|].
  destruct (idx _ _); reflexivity.
Qed.

Lemma loop_draw_state W H dt w : state (fst (loop_draw W H dt w)) = state w.
Proof.
  unfold loop_draw.
  pose proof (drawLayerN_state W H key_l1 dt w) as S1.
  destruct (drawLayerN W H key_l1 dt w) as [w1 c1]. simpl in S1.
  pose proof (drawPlayer_state w1) as S2.
  destruct (drawPlayer w1) as [w2 c2]. simpl in S2.
  pose proof (drawLayerN_state W H key_l2 dt w2) as S3.
  destruct (drawLayerN W H key_l2 dt w2) as [w3 c3]. simpl in S3.
  pose proof (drawLayerN_state W H key_l3 dt w3) as S4.
  destruct (drawLayerN W H key_l3 dt w3) as [w4 c4]. simpl in S4.
  pose proof (drawLayerN_state W H key_l4 dt w4) as S5.
  destruct (drawLayerN W H key_l4 dt w4) as [w5 c5]. simpl in S5.
  simpl. congruence.
Qed.

Lemma run_ok_transfer w w' :
  levelData w' = levelData w ->
  (exists tr until e, state w' = set_transition tr until e (state w)) ->
  run_ok w -> run_ok w'.
Proof.
  intros Hld (tr & until & e & Hst).
  unfold run_ok, home_ok, carousel_inv, entries_ok.
  rewrite Hst, Hld. cbn. tauto.
Qed.

Lemma loop_run_ok W H t now u w :
  unit_draw u -> run_ok w -> run_ok (fst (loop W H t now u w)).
Proof.
  intros Hu Hok. unfold loop. cbv zeta.
  match goal with
  | |- run_ok (fst (loop_draw W H ?dt ?w1)) =>
      assert (Hw1 : run_ok w1);
      [| apply (run_ok_transfer w1);
         [ exact (proj1 (loop_draw_same W H dt w1))
         | exists (State.transitioning (state w1)),
                  (State.transitionUntil (state w1)),
                  (State.lastEdge (state w1));
           rewrite loop_draw_state; symmetry; apply set_transition_eta
         | exact Hw1 ] ]
  end.
  assert (H0 : run_ok (set_lastT t w)) by exact Hok.
  destruct (negb _).
  - destruct (loop_steady_state W now (tick_dt t (lastT w)) (set_lastT t w))
      as (tr & until & e & Hst & Hld).
    apply (run_ok_transfer (set_lastT t w)); [assumption | | assumption].
    now exists tr, until, e.
  - destruct (Qle_bool _ _); [now apply finishTransition_run_ok | assumption].
Qed.

Lemma run_ok_current w :
  run_ok w ->
  exists i lvl,
    State.levelIndex (state w) = Some i /\ 0 <= i < len (levelData w)
    /\ currentLevel w = Some lvl /\ idx (levelData w) i = Some lvl.
Proof.
  intros (_ & (_ & _ & Hpos) & Hent & Hli).
  destruct (Hent _ (at_In _ _ Hpos)) as (i & Hi & Hrange).
  destruct (idx_in_range (levelData w) i Hrange) as [lvl Hlvl].
  exists i, lvl. unfold currentLevel. rewrite Hli, Hi. now repeat split.
Qed.

Lemma loadLevels_run_ok env u w w' :
  unit_draw u -> loadLevels env u w = Ok w' -> run_ok w'.
Proof.
  intros Hu Hload.
  destruct (loadLevels_establishes env u w w' Hload) as [Hh Hinv].
  destruct (config_levels env) as [levels|] eqn:Hc.
  2:{ destruct (loadLevels_no_config env u w Hc) as [e He]. congruence. }
  rewrite (loadLevels_run env u w levels Hc) in Hload.
  destruct (existsb (usable env) levels) eqn:Ex; [|discriminate].
  cbv zeta in Hload. injection Hload as Hw'.
  set (w0 := set_state _ _) in Hw'.
  assert (Hn : 1 <= len (levelData w0)).
  { cbn. destruct (filter (usable env) levels) eqn:Ef.
    - apply filter_nil_existsb in Ef. congruence.
    - rewrite len_cons. pose proof (len_nonneg l). lia. }
  destruct (initCarousel_seed u w0 Hu Hn eq_refl)
    as (i & lvl & Hcar & Hpos & Hli & Hidx & Hld & _).
  rewrite Hw' in Hcar, Hpos, Hli, Hld.
  split; [assumption|]. split; [assumption|]. split.
  - intros v Hv. rewrite Hcar in Hv. destruct Hv as [<-|[]].
    exists i. split; [reflexivity|]. rewrite Hld.
    unfold idx in Hidx. destruct (Z.ltb_spec i 0); [discriminate|].
    assert (Z.to_nat i < length (levelData w0))%nat
      by (apply nth_error_Some; congruence).
    unfold len. lia.
  - now rewrite Hli, Hcar, Hpos.
Qed.

Lemma set_input_run_ok i w : run_ok w -> run_ok (set_input i w).
Proof. exact id. Qed.

Lemma run_run_ok W H ticks : forall w,
  Forall (fun k => unit_draw (Tick.draw k)) ticks ->
  run_ok w -> run_ok (run W H ticks w).
Proof.
  induction ticks as [|k ticks IH]; intros w Hus Hok; [assumption|].
  inversion Hus as [|? ? Hu Hus']; subst. simpl. apply IH; [assumption|].
  apply loop_run_ok; [assumption | now apply set_input_run_ok].
Qed.

(** X4 (the level on show).  Whatever the keys, the clock and the draws of
    the frames that follow a successful [loadLevels], after every frame the
    current level index is an index of the pool, the entry of the history
    under the cursor, so there is a current level to draw; the carousel
    invariant holds and the history holds indices of the pool only. *)
Theorem run_shows_a_level :
  forall (env : Env.t) (W H : Z) (u : Q) (ticks : list Tick.t)
         (w w' : World.t),
    unit_draw u ->
    Forall (fun k => unit_draw (Tick.draw k)) ticks ->
    loadLevels env u w = Ok w' ->
    let w'' := run W H ticks w' in
    run_ok w''
    /\ exists i lvl,
         State.levelIndex (state w'') = Some i
         /\ 0 <= i < len (levelData w'')
         /\ State.levelIndex (state w'')
            = at_ (State.carousel (state w''))
                  (State.carouselPos (state w''))
         /\ currentLevel w'' = Some lvl.
Proof.
  intros env W H u ticks w w' Hu Hus Hload w''.
  assert (Hok : run_ok w'').
  { apply run_run_ok; [assumption|]. eapply loadLevels_run_ok; eassumption. }
  split; [assumption|].
  destruct (run_ok_current w'' Hok) as (i & lvl & Hi & Hr & Hcur & _).
  exists i, lvl. destruct Hok as (_ & _ & _ & Hli). now repeat split.
Qed.

Lemma unit_draw_third : unit_draw (1 # 3).
Proof. split; unfold Qle, Qlt; simpl; lia. Defined.

Lemma unit_draw_zero : unit_draw 0.
Proof. split; unfold Qle, Qlt; simpl; lia. Defined.

Lemma sample_ticks_draws :
  Forall (fun k => unit_draw (Tick.draw k)) sample_ticks.
Proof.
  repeat constructor;
    [apply unit_draw_half | apply unit_draw_third | apply unit_draw_zero].
Defined.

Lemma world_loaded_eq :
  loadLevels sample_env (1 # 2) world_boot = Ok world_loaded.
Proof. reflexivity. Defined.

Lemma run_shows_a_level_witness :
  unit_draw (1 # 2)
  /\ Forall (fun k => unit_draw (Tick.draw k)) sample_ticks
  /\ loadLevels sample_env (1 # 2) world_boot = Ok world_loaded
  /\ run_ok (run 800 600 sample_ticks world_loaded).
Proof.
  split; [exact unit_draw_half|]. split; [exact sample_ticks_draws|].
  split; [exact world_loaded_eq|].
  exact (proj1 (run_shows_a_level sample_env 800 600 (1 # 2) sample_ticks
                  world_boot world_loaded unit_draw_half sample_ticks_draws
                  world_loaded_eq)).
Defined.

(** ** The first transition *)

Lemma first_move_from_seed u w :
  unit_draw u ->
  0 <= State.homeIndex (state w) < len (levelData w) ->
  1 < len (levelData w) ->
  State.carousel (state w) = [Some (State.homeIndex (state w))] ->
  State.carouselPos (state w) = 0 ->
  exists p,
    In p (nonHomeIndices w)
    /\ fst (carouselMoveRight u w) = Some p
    /\ fst (carouselMoveLeft u w) = Some p.
Proof.
  intros Hu Hh Hn Hc Hp.
  assert (Hused : usedNonHomeCount w = 0).
  { rewrite (usedNonHomeCount_seeded w []); try assumption; [reflexivity|].
    intros v []. }
  pose proof (nonHomeIndices_len_home w Hh) as Hnh.
  assert (Hlt : usedNonHomeCount w < len (nonHomeIndices w)) by lia.
  destruct (pickUnused_spec u w Hu Hlt) as (p & Hpick & Hin & _).
  exists p. split; [assumption|].
  rewrite carouselMoveRight_append, carouselMoveLeft_prepend;
    try assumption; try lia.
  - cbn [fst]. now split.
  - rewrite Hc, Hp. reflexivity.
Qed.

Lemma startup_seed_facts env u w w' :
  unit_draw u -> loadLevels env u w = Ok w' ->
  exists i,
    State.carousel (state w') = [Some i]
    /\ State.carouselPos (state w') = 0
    /\ State.levelIndex (state w') = Some i
    /\ 0 <= i < len (levelData w')
    /\ State.homeIndex (state w') = findIndex Level.isHome (levelData w')
    /\ (existsb Level.isHome (levelData w') = true ->
        i = findIndex Level.isHome (levelData w')).
Proof.
  intros Hu Hload.
  destruct (config_levels env) as [levels|] eqn:Hc.
  2:{ destruct (loadLevels_no_config env u w Hc) as [e He]. congruence. }
  rewrite (loadLevels_run env u w levels Hc) in Hload.
  destruct (existsb (usable env) levels) eqn:Ex; [|discriminate].
  cbv zeta in Hload. injection Hload as <-.
  set (w0 := set_state _ _).
  assert (Hn : 1 <= len (levelData w0)).
  { cbn. destruct (filter (usable env) levels) eqn:Ef.
    - apply filter_nil_existsb in Ef. congruence.
    - rewrite len_cons. pose proof (len_nonneg l). lia. }
  assert (Hpre : levelData (initCarouselWithHomeOrFallback u w0)
                 = levelData w0
                 /\ State.homeIndex
                      (state (initCarouselWithHomeOrFallback u w0))
                    = State.homeIndex (state w0)).
  { unfold initCarouselWithHomeOrFallback. now destruct (negb _). }
  destruct Hpre as [Hld Hhi]. rewrite Hld, Hhi.
  unfold initCarouselWithHomeOrFallback.
  change (State.homeIndex (state w0))
    with (findIndex Level.isHome (levelData w0)).
  destruct (findIndex_range Level.isHome (levelData w0)) as [E|Hr].
  - rewrite E. cbn [negb Z.eqb].
    pose proof (randInt_range (len (levelData w0)) u Hu ltac:(lia)) as Hr.
    eexists. cbn. repeat split; try apply Hr.
    intros Hex. unfold findIndex in E.
    destruct (findIndex_from_some Level.isHome (levelData w0) 0 Hex)
      as (k & _ & Hk & _). lia.
  - destruct (Z.eqb_spec (findIndex Level.isHome (levelData w0)) (-1));
      [lia|].
    eexists. cbn. repeat split; apply Hr.
Qed.

(** X5 (leaving home).  When the loaded pool has a level flagged home and
    two levels or more, the first transition after [loadLevels], through
    either edge and whatever the frames between have done to the player and
    to the transition fields, shows a level of the pool other than the home
    level, which was on show until then. *)
Theorem first_transition_leaves_home :
  forall (env : Env.t) (W : Z) (u0 u : Q) (w w' w1 : World.t),
    unit_draw u0 -> unit_draw u ->
    loadLevels env u0 w = Ok w' ->
    existsb Level.isHome (levelData w') = true ->
    1 < len (levelData w') ->
    same_carousel w' w1 ->
    exists i,
      State.levelIndex (state (finishTransition W u w1)) = Some i
      /\ 0 <= i < len (levelData w')
      /\ i <> findIndex Level.isHome (levelData w')
      /\ State.levelIndex (state w')
         = Some (findIndex Level.isHome (levelData w')).
Proof.
  intros env W u0 u w w' w1 Hu0 Hu Hload Hhome Hn (S1 & S2 & S3 & S4).
  destruct (startup_seed_facts env u0 w w' Hu0 Hload)
    as (i & Hcar & Hpos & Hli & Hrange & Hhi & Hfi).
  specialize (Hfi Hhome). subst i.
  assert (Hh1 : 0 <= State.homeIndex (state w1) < len (levelData w1))
    by (rewrite S1, S4, Hhi; assumption).
  destruct (first_move_from_seed u w1 Hu Hh1) as (p & Hin & Hr & Hl).
  { now rewrite S1. }
  { now rewrite S2, S4, Hcar, Hhi. }
  { now rewrite S3. }
  destruct (finishTransition_state W u w1) as [Hst _].
  exists p. rewrite Hst. cbn [State.levelIndex set_transition set_levelIndex].
  split; [now destruct (isLeft (State.lastEdge (state w1)))|].
  apply nonHomeIndices_In in Hin. destruct Hin as [Hrp Hnot].
  rewrite S1 in Hrp.
  split; [exact Hrp|]. split; [|now rewrite Hli].
  intros E. subst p.
  assert (Ht : isHomeIndex w1 (Some (State.homeIndex (state w1))) = true)
    by (apply isHomeIndex_true; split; [lia | reflexivity]).
  rewrite S4, Hhi in Ht. congruence.
Qed.

Lemma first_transition_leaves_home_witness :
  unit_draw (1 # 2) /\ unit_draw (1 # 3)
  /\ loadLevels sample_env (1 # 2) world_boot = Ok world_loaded
  /\ existsb Level.isHome (levelData world_loaded) = true
  /\ 1 < len (levelData world_loaded)
  /\ same_carousel world_loaded world_loaded
  /\ exists i,
       State.levelIndex (state (finishTransition 800 (1 # 3) world_loaded))
       = Some i
       /\ i <> findIndex Level.isHome (levelData world_loaded).
Proof.
  split; [exact unit_draw_half|]. split; [exact unit_draw_third|].
  split; [exact world_loaded_eq|]. split; [reflexivity|].
  split; [reflexivity|]. split; [exact (same_carousel_refl world_loaded)|].
  destruct (first_transition_leaves_home sample_env 800 (1 # 2) (1 # 3)
              world_boot world_loaded world_loaded unit_draw_half
              unit_draw_third world_loaded_eq eq_refl eq_refl
              (same_carousel_refl world_loaded)) as (i & Hi & _ & Hne & _).
  exists i. split; assumption.
Defined.

(** ** The frame loop *)

Lemma steady_input_body w :
  let p := player w in
  let p' := player (steady_input w) in
  Player.x p' = Player.x p /\ Player.speed p' = Player.speed p
  /\ Player.visible p' = Player.visible p
  /\ Player.renderW p' = Player.renderW p
  /\ state (steady_input w) = state w.
Proof.
  unfold steady_input. destruct (negb _); unfold setAnim;
    destruct (Anim_eqb _ _); now repeat split.
Qed.

Lemma steady_animate_body dt w :
  let p := player w in
  let p' := player (steady_animate dt w) in
  Player.x p' = Player.x p
  /\ Player.renderW p' = Player.renderW p
  /\ state (steady_animate dt w) = state w.
Proof.
  unfold steady_animate. cbv zeta. destruct (Qle_bool _ _); now repeat split.
Qed.

(** The three ways of the position step, from a steady state. *)
Lemma steady_move_cases W now dt vx w :
  State.transitioning (state w) = false ->
  let x1 := (Player.x (player w)
             + inject_Z vx * Player.speed (player w) * dt)%Q in
  let w' := steady_move W now dt vx w in
  Player.renderW (player w') = Player.renderW (player w)
  /\ if Qle_bool x1 0 then
       state w' = set_transition true (now + 60) (Some EdgeLeft) (state w)
       /\ Player.x (player w') = 0%Q
       /\ Player.visible (player w') = false
     else if Qle_bool (inject_Z (W - Player.renderW (player w))) x1 then
       state w' = set_transition true (now + 60) (Some EdgeRight) (state w)
       /\ Player.x (player w') = inject_Z (W - Player.renderW (player w))
       /\ Player.visible (player w') = false
     else
       state w' = state w
       /\ Player.x (player w') = x1
       /\ Player.visible (player w') = Player.visible (player w).
Proof.
  intros Htr x1 w'. subst w'. unfold steady_move. cbv zeta.
  cbn [player set_player Player.x set_x Player.renderW].
  fold x1. destruct (Qle_bool x1 0).
  - unfold triggerEdge. cbn [state set_player]. rewrite Htr. now repeat split.
  - destruct (Qle_bool (inject_Z (W - Player.renderW (player w))) x1).
    + unfold triggerEdge. cbn [state set_player]. rewrite Htr.
      now repeat split.
    + now repeat split.
Qed.

Lemma drawPlayer_body w :
  let p := player w in
  let p' := player (fst (drawPlayer w)) in
  Player.x p' = Player.x p /\ Player.visible p' = Player.visible p
  /\ Player.renderW p' = Player.renderW p
  /\ Player.anim p' = Player.anim p
  /\ Player.frameTimer p' = Player.frameTimer p
  /\ Player.facing p' = Player.facing p.
Proof.
  cbv zeta. rewrite drawPlayer_player. destruct (_ && _); now repeat split.
Qed.

Lemma loop_draw_body W H dt w :
  let p := player w in
  let p' := player (fst (loop_draw W H dt w)) in
  Player.x p' = Player.x p /\ Player.visible p' = Player.visible p
  /\ Player.renderW p' = Player.renderW p
  /\ Player.anim p' = Player.anim p
  /\ Player.frameTimer p' = Player.frameTimer p
  /\ Player.facing p' = Player.facing p.
Proof. cbv zeta. rewrite loop_draw_player. apply drawPlayer_body. Qed.

(** The three ways of a tick. *)
Lemma loop_steady_case W H t now u w :
  State.transitioning (state w) = false ->
  loop W H t now u w
  = loop_draw W H (tick_dt t (lastT w))
      (loop_steady W now (tick_dt t (lastT w)) (set_lastT t w)).
Proof. intros Htr. unfold loop. cbn [state set_lastT]. now rewrite Htr. Qed.

Lemma loop_finish_case W H t now u w :
  State.transitioning (state w) = true ->
  (State.transitionUntil (state w) <= now)%Q ->
  loop W H t now u w
  = loop_draw W H (tick_dt t (lastT w))
      (finishTransition W u (set_lastT t w)).
Proof.
  intros Htr Hd. unfold loop. cbn [state set_lastT]. rewrite Htr.
  apply Qle_bool_iff in Hd. now rewrite Hd.
Qed.

Lemma loop_wait_case W H t now u w :
  State.transitioning (state w) = true ->
  (now < State.transitionUntil (state w))%Q ->
  loop W H t now u w
  = loop_draw W H (tick_dt t (lastT w)) (set_lastT t w).
Proof.
  intros Htr Hd. unfold loop. cbn [state set_lastT]. rewrite Htr.
  apply Qle_bool_false in Hd. now rewrite Hd.
Qed.

(** X6 (arming the transition).  In a steady tick the player moves by
    velocity times speed times the clamped time step.  Reaching the left
    bound puts the player on it and arms the transition for the left edge,
    reaching the right bound does so for the right edge: the machine is
    transitioning, the deadline is 60 ms after the clock, the player is
    hidden.  Between the bounds the state stays as it is. *)
Theorem steady_tick_arms :
  forall (W H : Z) (t now u : Q) (w : World.t),
    State.transitioning (state w) = false ->
    let p := player w in
    let x1 := (Player.x p
               + inject_Z (held_vx w) * Player.speed p
                 * tick_dt t (lastT w))%Q in
    let bound := inject_Z (W - Player.renderW p) in
    let w' := fst (loop W H t now u w) in
    let s' := state w' in
    ((x1 <= 0)%Q ->
       State.transitioning s' = true /\ State.lastEdge s' = Some EdgeLeft
       /\ State.transitionUntil s' = (now + 60)%Q
       /\ Player.visible (player w') = false
       /\ Player.x (player w') = 0%Q)
    /\ ((0 < x1)%Q -> (bound <= x1)%Q ->
       State.transitioning s' = true /\ State.lastEdge s' = Some EdgeRight
       /\ State.transitionUntil s' = (now + 60)%Q
       /\ Player.visible (player w') = false
       /\ Player.x (player w') = bound)
    /\ ((0 < x1)%Q -> (x1 < bound)%Q ->
       s' = state w
       /\ Player.visible (player w') = Player.visible p
       /\ Player.x (player w') = x1).
Proof.
  intros W H t now u w Htr p x1 bound w' s'.
  subst s' w'. rewrite (loop_steady_case W H t now u w Htr).
  rewrite loop_draw_state.
  destruct (loop_draw_body W H (tick_dt t (lastT w))
              (loop_steady W now (tick_dt t (lastT w)) (set_lastT t w)))
    as (Hx & Hv & _).
  rewrite Hx, Hv. clear Hx Hv. unfold loop_steady.
  destruct (steady_animate_body (tick_dt t (lastT w))
              (steady_move W now (tick_dt t (lastT w))
                 (held_vx (set_lastT t w)) (steady_input (set_lastT t w))))
    as (Hx & _ & Hs).
  destruct (steady_animate_player (tick_dt t (lastT w))
              (steady_move W now (tick_dt t (lastT w))
                 (held_vx (set_lastT t w)) (steady_input (set_lastT t w))))
    as (_ & Hv & _).
  rewrite Hx, Hv, Hs. clear Hx Hv Hs.
  destruct (steady_input_body (set_lastT t w)) as (Ix & Isp & Iv & Ir & Is).
  assert (Htr0 : State.transitioning (state (steady_input (set_lastT t w)))
                 = false) by (rewrite Is; exact Htr).
  destruct (steady_move_cases W now (tick_dt t (lastT w))
              (held_vx (set_lastT t w)) (steady_input (set_lastT t w)) Htr0)
    as [_ Hcases].
  rewrite Ix, Isp, Ir, Iv, Is in Hcases.
  change (held_vx (set_lastT t w)) with (held_vx w) in *.
  change (player (set_lastT t w)) with p in Hcases.
  change (state (set_lastT t w)) with (state w) in Hcases.
  fold x1 bound in Hcases.
  split; [|split].
  - intros Hle. apply Qle_bool_iff in Hle. rewrite Hle in Hcases.
    destruct Hcases as (-> & -> & ->). now repeat split.
  - intros H0 Hb. apply Qle_bool_false in H0. rewrite H0 in Hcases.
    apply Qle_bool_iff in Hb. rewrite Hb in Hcases.
    destruct Hcases as (-> & -> & ->). now repeat split.
  - intros H0 Hb. apply Qle_bool_false in H0. rewrite H0 in Hcases.
    apply Qle_bool_false in Hb. rewrite Hb in Hcases.
    destruct Hcases as (-> & -> & ->). now repeat split.
Qed.

Lemma steady_tick_arms_witness :
  State.transitioning (state world_near_right) = false
  /\ State.transitioning
       (state (fst (loop 800 600 1000 1000 0 world_near_right))) = true
  /\ State.lastEdge (state (fst (loop 800 600 1000 1000 0 world_near_right)))
     = Some EdgeRight
  /\ Player.x (player (fst (loop 800 600 1000 1000 0 world_near_right)))
     = inject_Z 774.
Proof.
  split; [reflexivity|].
  destruct (steady_tick_arms 800 600 1000 1000 0 world_near_right eq_refl)
    as (_ & Hright & _).
  destruct Hright as (Htr & He & _ & _ & Hx); [reflexivity | discriminate|].
  split; [exact Htr|]. split; [exact He | exact Hx].
Defined.

Lemma finishTransition_anim W u w :
  let p := player w in
  let p' := player (finishTransition W u w) in
  Player.anim p' = Idle
  /\ Player.visible p' = true
  /\ Player.renderW p' = Player.renderW p
  /\ Player.frameIndex p'
     = (if Anim_eqb (Player.anim p) Idle then Player.frameIndex p else 0)
  /\ Player.frameTimer p'
     = (if Anim_eqb (Player.anim p) Idle then Player.frameTimer p else 0%Q)
  /\ Player.x p'
     = (if isLeft (State.lastEdge (state w))
        then inject_Z (W - Player.renderW p - 2) else 2%Q)
  /\ heroIdleFrames (finishTransition W u w) = heroIdleFrames w
  /\ heroWalkFrames (finishTransition W u w) = heroWalkFrames w.
Proof.
  cbv zeta. unfold finishTransition.
  assert (Hmove :
    exists r c pos,
      (if isLeft (State.lastEdge (state w)) then carouselMoveLeft u w
       else carouselMoveRight u w)
      = (r, set_state (set_carousel c pos (state w)) w)).
  { destruct (isLeft (State.lastEdge (state w))).
    - destruct (carouselMoveLeft_frame u w) as (c & pos & E).
      destruct (carouselMoveLeft u w) as [r w1]. simpl in E. subst w1.
      now exists r, c, pos.
    - destruct (carouselMoveRight_frame u w) as (c & pos & E).
      destruct (carouselMoveRight u w) as [r w1]. simpl in E. subst w1.
      now exists r, c, pos. }
  destruct Hmove as (r & c & pos & ->).
  cbv zeta.
  cbn [State.lastEdge state set_state set_levelIndex set_carousel set_player].
  assert (Hidle : forall a, Anim_eqb a Idle = true -> a = Idle)
    by (intros [|]; simpl; congruence).
  destruct (isLeft (State.lastEdge (state w)));
    unfold setAnim; cbn [player set_player Player.anim set_facing set_x];
    destruct (Anim_eqb _ Idle) eqn:Ea; cbn;
    try apply Hidle in Ea; now repeat split.
Qed.

(** X7 (waiting for the deadline).  A tick of a transitioning machine
    leaves the state as it is while the clock is before the deadline, and
    the hidden player too; at the deadline or after, it finishes the
    transition: the machine is steady, the player visible and idle, two
    pixels inside the entry edge. *)
Theorem transition_waits_for_deadline :
  forall (W H : Z) (t now u : Q) (w : World.t),
    State.transitioning (state w) = true ->
    let w' := fst (loop W H t now u w) in
    ((now < State.transitionUntil (state w))%Q ->
       state w' = state w
       /\ (Player.visible (player w) = false -> player w' = player w))
    /\ ((State.transitionUntil (state w) <= now)%Q ->
       State.transitioning (state w') = false
       /\ Player.visible (player w') = true
       /\ Player.anim (player w') = Idle
       /\ Player.x (player w')
          = (if isLeft (State.lastEdge (state w))
             then inject_Z (W - Player.renderW (player w) - 2) else 2%Q)).
Proof.
  intros W H t now u w Htr w'. subst w'. split.
  - intros Hd. rewrite (loop_wait_case W H t now u w Htr Hd).
    rewrite loop_draw_state. split; [reflexivity|].
    intros Hv. rewrite loop_draw_player, drawPlayer_player.
    cbn [player set_lastT]. now rewrite Hv.
  - intros Hd. rewrite (loop_finish_case W H t now u w Htr Hd).
    rewrite loop_draw_state.
    destruct (loop_draw_body W H (tick_dt t (lastT w))
                (finishTransition W u (set_lastT t w)))
      as (Hx & Hv & _ & Ha & _).
    rewrite Hx, Hv, Ha.
    destruct (finishTransition_anim W u (set_lastT t w))
      as (Fa & Fv & _ & _ & _ & Fx & _).
    destruct (finishTransition_state W u (set_lastT t w)) as [Fs _].
    rewrite Fa, Fv, Fx, Fs. now repeat split.
Qed.

Lemma transition_waits_for_deadline_witness :
  State.transitioning (state world_transitioning) = true
  /\ state (fst (loop 800 600 1020 1020 0 world_transitioning))
     = state world_transitioning
  /\ State.transitioning
       (state (fst (loop 800 600 1070 1070 0 world_transitioning))) = false.
Proof.
  split; [reflexivity|]. split.
  - destruct (transition_waits_for_deadline 800 600 1020 1020 0
                world_transitioning eq_refl) as [Hwait _].
    exact (proj1 (Hwait eq_refl)).
  - destruct (transition_waits_for_deadline 800 600 1070 1070 0
                world_transitioning eq_refl) as [_ Hfin].
    refine (proj1 (Hfin _)). discriminate.
Defined.

Lemma loop_draw_frames W H dt w :
  heroIdleFrames (fst (loop_draw W H dt w)) = heroIdleFrames w
  /\ heroWalkFrames (fst (loop_draw W H dt w)) = heroWalkFrames w.
Proof.
  unfold loop_draw.
  destruct (drawLayerN_frame W H key_l1 dt w) as [m1 E1].
  destruct (drawLayerN W H key_l1 dt w) as [w1 c1]. simpl in E1. subst w1.
  pose proof (drawPlayer_frames (set_levelAssets m1 w)) as [I2 W2].
  destruct (drawPlayer (set_levelAssets m1 w)) as [w2 c2]. simpl in I2, W2.
  destruct (drawLayerN_frame W H key_l2 dt w2) as [m2 E2].
  destruct (drawLayerN W H key_l2 dt w2) as [w3 c3]. simpl in E2. subst w3.
  destruct (drawLayerN_frame W H key_l3 dt (set_levelAssets m2 w2))
    as [m3 E3].
  destruct (drawLayerN W H key_l3 dt (set_levelAssets m2 w2)) as [w4 c4].
  simpl in E3. subst w4.
  destruct (drawLayerN_frame W H key_l4 dt
              (set_levelAssets m3 (set_levelAssets m2 w2))) as [m4 E4].
  destruct (drawLayerN W H key_l4 dt
              (set_levelAssets m3 (set_levelAssets m2 w2))) as [w5 c5].
  simpl in E4. subst w5. simpl. now split.
Qed.

(** The position a steady tick leaves: the moved position, clamped to the
    walkable range. *)
Lemma loop_steady_x W H t now u w :
  State.transitioning (state w) = false ->
  let p := player w in
  let x1 := (Player.x p
             + inject_Z (held_vx w) * Player.speed p
               * tick_dt t (lastT w))%Q in
  let bound := inject_Z (W - Player.renderW p) in
  let p' := player (fst (loop W H t now u w)) in
  Player.renderW p' = Player.renderW p
  /\ Player.x p'
     = (if Qle_bool x1 0 then 0%Q
        else if Qle_bool bound x1 then bound else x1).
Proof.
  intros Htr p x1 bound p'. subst p'.
  rewrite (loop_steady_case W H t now u w Htr).
  destruct (loop_draw_body W H (tick_dt t (lastT w))
              (loop_steady W now (tick_dt t (lastT w)) (set_lastT t w)))
    as (Hx & _ & Hr & _).
  rewrite Hx, Hr. clear Hx Hr. unfold loop_steady.
  destruct (steady_animate_body (tick_dt t (lastT w))
              (steady_move W now (tick_dt t (lastT w))
                 (held_vx (set_lastT t w)) (steady_input (set_lastT t w))))
    as (Hx & Hr & _).
  rewrite Hx, Hr. clear Hx Hr.
  destruct (steady_input_body (set_lastT t w)) as (Ix & Isp & Iv & Ir & Is).
  assert (Htr0 : State.transitioning (state (steady_input (set_lastT t w)))
                 = false) by (rewrite Is; exact Htr).
  destruct (steady_move_cases W now (tick_dt t (lastT w))
              (held_vx (set_lastT t w)) (steady_input (set_lastT t w)) Htr0)
    as [Hrw Hcases].
  rewrite Ix, Isp, Ir in Hcases. rewrite Hrw, Ir.
  change (held_vx (set_lastT t w)) with (held_vx w) in *.
  change (player (set_lastT t w)) with p in *.
  fold x1 bound in Hcases.
  split; [reflexivity|].
  destruct (Qle_bool x1 0); [tauto|].
  destruct (Qle_bool bound x1); tauto.
Qed.

Lemma loop_keeps_range :
  forall (W H : Z) (t now u : Q) (w : World.t),
    let p := player w in
    let bound := inject_Z (W - Player.renderW p) in
    2 <= W - Player.renderW p ->
    (0 <= Player.x p /\ Player.x p <= bound)%Q ->
    let p' := player (fst (loop W H t now u w)) in
    Player.renderW p' = Player.renderW p
    /\ (0 <= Player.x p' /\ Player.x p' <= bound)%Q.
Proof.
  intros W H t now u w p bound Hroom [Hlo Hhi] p'.
  assert (Hb2 : (2 <= bound)%Q).
  { unfold bound. change 2%Q with (inject_Z 2). now rewrite <- Zle_Qle. }
  destruct (State.transitioning (state w)) eqn:Htr.
  - destruct (Qlt_le_dec now (State.transitionUntil (state w))) as [Hd|Hd].
    + subst p'. rewrite (loop_wait_case W H t now u w Htr Hd).
      destruct (loop_draw_body W H (tick_dt t (lastT w)) (set_lastT t w))
        as (Hx & _ & Hr & _).
      rewrite Hx, Hr. now repeat split.
    + subst p'. rewrite (loop_finish_case W H t now u w Htr Hd).
      destruct (loop_draw_body W H (tick_dt t (lastT w))
                  (finishTransition W u (set_lastT t w)))
        as (Hx & _ & Hr & _).
      rewrite Hx, Hr.
      destruct (finishTransition_anim W u (set_lastT t w))
        as (_ & _ & Fr & _ & _ & Fx & _).
      rewrite Fr, Fx. split; [reflexivity|].
      change (player (set_lastT t w)) with p.
      destruct (isLeft _).
      * replace (W - Player.renderW p - 2) with (W - Player.renderW p + -2)
          by lia.
        rewrite inject_Z_plus. fold bound. change (inject_Z (-2)) with (-2)%Q.
        split; lra.
      * split; [discriminate | exact Hb2].
  - destruct (loop_steady_x W H t now u w Htr) as [Hr Hx]. fold p in Hr, Hx.
    fold bound in Hx. subst p'. rewrite Hr, Hx. split; [reflexivity|].
    match goal with
    | |- context [Qle_bool ?a 0] => destruct (Qle_bool a 0) eqn:E0
    end.
    + split; [apply Qle_refl | lra].
    + apply Qle_bool_false in E0.
      match goal with
      | |- context [Qle_bool bound ?a] => destruct (Qle_bool bound a) eqn:E1
      end.
      * split; [lra | apply Qle_refl].
      * apply Qle_bool_false in E1. split; lra.
Qed.

(** X8 (the walkable range).  On a canvas that leaves the player two
    pixels or more to walk, a player inside the walkable range
    [[0, W - renderW]] is inside it after every tick, steady, waiting or
    finishing a transition; the render width stays as it is. *)
Theorem player_stays_in_range :
  forall (W H : Z) (t now u : Q) (w : World.t),
    let p := player w in
    let bound := inject_Z (W - Player.renderW p) in
    2 <= W - Player.renderW p ->
    (0 <= Player.x p /\ Player.x p <= bound)%Q ->
    let p' := player (fst (loop W H t now u w)) in
    Player.renderW p' = Player.renderW p
    /\ (0 <= Player.x p' /\ Player.x p' <= bound)%Q.
Proof. exact loop_keeps_range. Qed.

Lemma player_stays_in_range_witness :
  2 <= 800 - Player.renderW (player world_near_right)
  /\ (0 <= Player.x (player world_near_right)
      /\ Player.x (player world_near_right)
         <= inject_Z (800 - Player.renderW (player world_near_right)))%Q
  /\ (Player.x (player (fst (loop 800 600 1000 1000 0 world_near_right)))
      <= inject_Z (800 - Player.renderW (player world_near_right)))%Q.
Proof.
  assert (Hroom : 2 <= 800 - Player.renderW (player world_near_right))
    by discriminate.
  assert (Hin : (0 <= Player.x (player world_near_right)
                 /\ Player.x (player world_near_right)
                    <= inject_Z
                         (800 - Player.renderW (player world_near_right)))%Q)
    by (split; discriminate).
  split; [exact Hroom|]. split; [exact Hin|].
  exact (proj2 (proj2 (player_stays_in_range 800 600 1000 1000 0
                         world_near_right Hroom Hin))).
Defined.

(** ** The animation state along a run *)

Lemma loop_frames W H t now u w :
  heroIdleFrames (fst (loop W H t now u w)) = heroIdleFrames w
  /\ heroWalkFrames (fst (loop W H t now u w)) = heroWalkFrames w.
Proof.
  unfold loop. cbv zeta.
  match goal with
  | |- context [loop_draw W H ?dt ?w1] =>
      destruct (loop_draw_frames W H dt w1) as [-> ->];
      assert (Hw1 : heroIdleFrames w1 = heroIdleFrames w
                    /\ heroWalkFrames w1 = heroWalkFrames w)
  end; [|exact Hw1].
  destruct (negb _).
  - destruct (loop_steady_player W now (tick_dt t (lastT w)) (set_lastT t w))
      as (_ & _ & Hf & Hg). now split.
  - destruct (Qle_bool _ _); [|now split].
    destruct (finishTransition_anim W u (set_lastT t w))
      as (_ & _ & _ & _ & _ & _ & Hf & Hg). now split.
Qed.

Lemma Anim_eqb_eq a b : Anim_eqb a b = true <-> a = b.
Proof. destruct a, b; simpl; split; congruence. Qed.

Lemma loop_keeps_frame_index :
  forall (W H : Z) (t now u : Q) (w : World.t),
    0 < len (heroIdleFrames w) -> 0 < len (heroWalkFrames w) ->
    0 <= Player.frameIndex (player w) < len (currentFrames w) ->
    let w' := fst (loop W H t now u w) in
    0 <= Player.frameIndex (player w') < len (currentFrames w')
    /\ exists img,
         idx (currentFrames w') (Player.frameIndex (player w')) = Some img.
Proof.
  intros W H t now u w Hidle Hwalk Hi w'.
  assert (Hvalid : 0 <= Player.frameIndex (player w')
                   < len (currentFrames w')).
  2:{ split; [assumption | now apply idx_in_range]. }
  destruct (loop_frames W H t now u w) as [Hf Hg]. fold w' in Hf, Hg.
  assert (Hnorm : forall w1,
            0 <= Player.frameIndex (player w1) < len (currentFrames w1) ->
            player (fst (loop_draw W H (tick_dt t (lastT w)) w1))
            = player w1).
  { intros w1 Hr. rewrite loop_draw_player, drawPlayer_player.
    destruct (_ && _); [|reflexivity].
    rewrite Z.rem_small by assumption. now destruct (player w1). }
  destruct (State.transitioning (state w)) eqn:Htr.
  - destruct (Qlt_le_dec now (State.transitionUntil (state w))) as [Hd|Hd].
    + unfold currentFrames. rewrite Hf, Hg. unfold w'.
      rewrite (loop_wait_case W H t now u w Htr Hd), Hnorm by exact Hi.
      exact Hi.
    + assert (Hfin : 0 <= Player.frameIndex
                            (player (finishTransition W u (set_lastT t w)))
                     < len (currentFrames
                              (finishTransition W u (set_lastT t w)))).
      { destruct (finishTransition_anim W u (set_lastT t w))
          as (Fa & _ & _ & Fi & _ & _ & Ff & Fg).
        unfold currentFrames. rewrite Fa, Fi, Ff.
        cbn [player set_lastT heroIdleFrames].
        destruct (Anim_eqb (Player.anim (player w)) Idle) eqn:E; [|lia].
        apply Anim_eqb_eq in E. unfold currentFrames in Hi.
        now rewrite E in Hi. }
      unfold currentFrames. rewrite Hf, Hg. unfold w'.
      rewrite (loop_finish_case W H t now u w Htr Hd), Hnorm by exact Hfin.
      destruct (finishTransition_anim W u (set_lastT t w))
        as (Fa & _ & _ & _ & _ & _ & Ff & Fg).
      unfold currentFrames in Hfin. now rewrite Ff, Fg in Hfin.
  - assert (Hi0 :
      0 <= (if Anim_eqb (Player.anim (player w))
                 (if Bool.eqb (Input.left (input w)) (Input.right (input w))
                  then Idle else Walk)
            then Player.frameIndex (player w) else 0)
        < len (match (if Bool.eqb (Input.left (input w))
                                  (Input.right (input w))
                      then Idle else Walk) with
               | Walk => heroWalkFrames w
               | Idle => heroIdleFrames w
               end)).
    { destruct (Anim_eqb _ _) eqn:E.
      - apply Anim_eqb_eq in E. unfold currentFrames in Hi.
        now rewrite E in Hi.
      - destruct (Bool.eqb _ _); lia. }
    destruct (loop_player_frame W H t now u w Htr Hi0) as [Ha Hidx].
    fold w' in Ha, Hidx. unfold currentFrames. rewrite Ha, Hf, Hg, Hidx.
    destruct (Qle_bool _ _); [|exact Hi0].
    split; [apply Z.rem_nonneg | apply Z.rem_bound_pos]; lia.
Qed.

(** X9 (a frame to draw).  With one frame or more for each animation mode,
    a frame index inside the frame array of the mode in force is inside
    the frame array of the mode in force after every tick: a change of mode
    starts from the first frame, and a step wraps round the array. *)
Theorem frame_index_stays_valid :
  forall (W H : Z) (t now u : Q) (w : World.t),
    0 < len (heroIdleFrames w) -> 0 < len (heroWalkFrames w) ->
    0 <= Player.frameIndex (player w) < len (currentFrames w) ->
    let w' := fst (loop W H t now u w) in
    0 <= Player.frameIndex (player w') < len (currentFrames w')
    /\ exists img,
         idx (currentFrames w') (Player.frameIndex (player w')) = Some img.
Proof. exact loop_keeps_frame_index. Qed.

Lemma frame_index_stays_valid_witness :
  0 < len (heroIdleFrames world_near_right)
  /\ 0 < len (heroWalkFrames world_near_right)
  /\ 0 <= Player.frameIndex (player world_near_right)
       < len (currentFrames world_near_right)
  /\ 0 <= Player.frameIndex
            (player (fst (loop 800 600 1000 1000 0 world_near_right)))
       < len (currentFrames (fst (loop 800 600 1000 1000 0 world_near_right))).
Proof.
  assert (H1 : 0 < len (heroIdleFrames world_near_right)) by reflexivity.
  assert (H2 : 0 < len (heroWalkFrames world_near_right)) by reflexivity.
  assert (H3 : 0 <= Player.frameIndex (player world_near_right)
               < len (currentFrames world_near_right))
    by (split; [discriminate | reflexivity]).
  split; [exact H1|]. split; [exact H2|]. split; [exact H3|].
  exact (proj1 (frame_index_stays_valid 800 600 1000 1000 0 world_near_right
                  H1 H2 H3)).
Defined.

Lemma currentFps_anim w w' :
  Player.anim (player w') = Player.anim (player w) ->
  currentFps w' = currentFps w.
Proof. intros E. unfold currentFps. now rewrite E. Qed.

Lemma frame_interval_pos w : (0 < 1 / inject_Z (currentFps w))%Q.
Proof. unfold currentFps. destruct (Player.anim (player w)); reflexivity. Qed.

Lemma loop_keeps_timer :
  forall (W H : Z) (t now u : Q) (w : World.t),
    (Player.frameTimer (player w) < 1 / inject_Z (currentFps w))%Q ->
    let w' := fst (loop W H t now u w) in
    (Player.frameTimer (player w') < 1 / inject_Z (currentFps w'))%Q.
Proof.
  intros W H t now u w Ht w'.
  assert (Hdraw : forall w1,
            (Player.frameTimer (player w1) < 1 / inject_Z (currentFps w1))%Q ->
            (Player.frameTimer
               (player (fst (loop_draw W H (tick_dt t (lastT w)) w1)))
             < 1 / inject_Z
                     (currentFps
                        (fst (loop_draw W H (tick_dt t (lastT w)) w1))))%Q).
  { intros w1 H1.
    destruct (loop_draw_body W H (tick_dt t (lastT w)) w1)
      as (_ & _ & _ & Ha & Hti & _).
    now rewrite Hti, (currentFps_anim _ _ Ha). }
  destruct (State.transitioning (state w)) eqn:Htr.
  - destruct (Qlt_le_dec now (State.transitionUntil (state w))) as [Hd|Hd].
    + unfold w'. rewrite (loop_wait_case W H t now u w Htr Hd).
      apply Hdraw. exact Ht.
    + unfold w'. rewrite (loop_finish_case W H t now u w Htr Hd).
      apply Hdraw.
      destruct (finishTransition_anim W u (set_lastT t w))
        as (Fa & _ & _ & _ & Ft & _).
      unfold currentFps at 1. rewrite Fa, Ft. cbn [player set_lastT].
      destruct (Anim_eqb (Player.anim (player w)) Idle) eqn:E;
        [|reflexivity].
      apply Anim_eqb_eq in E. unfold currentFps in Ht. now rewrite E in Ht.
  - unfold w'. rewrite (loop_steady_case W H t now u w Htr).
    apply Hdraw. unfold loop_steady.
    set (w0 := set_lastT t w).
    set (wm := steady_move W now (tick_dt t (lastT w)) (held_vx w0)
                 (steady_input w0)).
    destruct (steady_input_player w0) as (Ia & _ & It & _).
    destruct (steady_move_keeps W now (tick_dt t (lastT w)) (held_vx w0)
                (steady_input w0)) as (Ma & _ & Mt & _).
    fold wm in Ma, Mt.
    destruct (steady_animate_player (tick_dt t (lastT w)) wm) as (Aa & _).
    rewrite (currentFps_anim _ _ Aa).
    apply steady_animate_keeps_up; [apply tick_dt_le|].
    rewrite Mt, It. unfold currentFps at 1. rewrite Ma, Ia.
    cbn [input player set_lastT w0].
    destruct (Anim_eqb (Player.anim (player w)) _) eqn:E.
    + apply Anim_eqb_eq in E. unfold currentFps in Ht. now rewrite E in Ht.
    + destruct (Bool.eqb _ _); reflexivity.
Qed.

(** X10 (the timer keeps up).  A frame timer below the frame interval of
    the mode in force is below the frame interval of the mode in force
    after every tick: with the time step clamped to 33 ms, one step a tick
    is all the timer ever asks for. *)
Theorem frame_timer_stays_below :
  forall (W H : Z) (t now u : Q) (w : World.t),
    (Player.frameTimer (player w) < 1 / inject_Z (currentFps w))%Q ->
    let w' := fst (loop W H t now u w) in
    (Player.frameTimer (player w') < 1 / inject_Z (currentFps w'))%Q.
Proof. exact loop_keeps_timer. Qed.

Lemma frame_timer_stays_below_witness :
  (Player.frameTimer (player world_near_right)
   < 1 / inject_Z (currentFps world_near_right))%Q
  /\ (Player.frameTimer
        (player (fst (loop 800 600 1000 1000 0 world_near_right)))
      < 1 / inject_Z
              (currentFps (fst (loop 800 600 1000 1000 0 world_near_right))))%Q.
Proof.
  assert (H0 : (Player.frameTimer (player world_near_right)
                < 1 / inject_Z (currentFps world_near_right))%Q)
    by reflexivity.
  split; [exact H0|].
  exact (frame_timer_stays_below 800 600 1000 1000 0 world_near_right H0).
Defined.

(** ** Rendering *)

Lemma clamp_unit (v : Q) :
  (0 <= clamp v 0 1 /\ clamp v 0 1 <= 1)%Q
  /\ ((v <= 0)%Q -> (clamp v 0 1 == 0)%Q)
  /\ ((1 <= v)%Q -> (clamp v 0 1 == 1)%Q)
  /\ ((0 <= v)%Q -> (v <= 1)%Q -> (clamp v 0 1 == v)%Q).
Proof.
  unfold clamp.
  destruct (Q.min_spec 1 v) as [[H1 E1]|[H1 E1]];
    destruct (Q.max_spec 0 (Qmin 1 v)) as [[H2 E2]|[H2 E2]];
    rewrite E2, ?E1; rewrite E1 in H2; repeat split; intros; lra.
Qed.

(** X11 (the normalized hero position).  [getHeroNormalizedX] is a number
    of [[-1, 1]]: [-1] at the left bound and before, [1] at the end of the
    walkable range (one pixel at least) and after, and [2 x / range - 1]
    between. *)
Theorem heroNormalizedX_range :
  forall (W : Z) (w : World.t),
    let x := Player.x (player w) in
    let range := inject_Z (Z.max 1 (W - Player.renderW (player w))) in
    let n := getHeroNormalizedX W w in
    (-1 <= n /\ n <= 1)%Q
    /\ ((x <= 0)%Q -> (n == -1)%Q)
    /\ ((range <= x)%Q -> (n == 1)%Q)
    /\ ((0 <= x)%Q -> (x <= range)%Q -> (n == 2 * x / range - 1)%Q).
Proof.
  intros W w x range n. subst n. unfold getHeroNormalizedX. fold x range.
  assert (Hr : (0 < range)%Q).
  { unfold range. change 0%Q with (inject_Z 0). rewrite <- Zlt_Qlt. lia. }
  destruct (clamp_unit (x / range)) as ([Hlo Hhi] & H0 & H1 & Hmid).
  split; [split; lra|]. split; [|split].
  - intros Hx. rewrite H0; [reflexivity|].
    apply Qle_shift_div_r; [assumption | lra].
  - intros Hx. rewrite H1; [reflexivity|].
    apply Qle_shift_div_l; [assumption | lra].
  - intros Hx0 Hx1. rewrite Hmid.
    + field. intros E. rewrite E in Hr. discriminate.
    + apply Qle_shift_div_l; [assumption | lra].
    + apply Qle_shift_div_r; [assumption | lra].
Qed.

Lemma heroNormalizedX_range_witness :
  (0 <= Player.x (player world_idle))%Q
  /\ (Player.x (player world_idle)
      <= inject_Z (Z.max 1 (800 - Player.renderW (player world_idle))))%Q
  /\ (getHeroNormalizedX 800 world_idle == 2 * 400 / 774 - 1)%Q.
Proof.
  assert (H0 : (0 <= Player.x (player world_idle))%Q) by discriminate.
  assert (H1 : (Player.x (player world_idle)
                <= inject_Z (Z.max 1 (800 - Player.renderW
                                               (player world_idle))))%Q)
    by discriminate.
  split; [exact H0|]. split; [exact H1|].
  exact (proj2 (proj2 (proj2 (heroNormalizedX_range 800 world_idle))) H0 H1).
Defined.

(** ** The frame loaders *)

Lemma autoFrames_prefix (env : Env.t) (folder prefix : string) (pad : nat) :
  forall (imgs : list Image) (fuel start : nat),
    (length imgs < fuel)%nat ->
    (forall j, (j < length imgs)%nat ->
               Env.loadImage env (frameSrc folder prefix pad (start + j))
               = nth_error imgs j) ->
    Env.loadImage env (frameSrc folder prefix pad (start + length imgs))
    = None ->
    autoFrames fuel env folder prefix pad start = Some imgs.
Proof.
  induction imgs as [|img imgs IH]; intros fuel start Hfuel Hload Hend.
  - destruct fuel as [|fuel]; [inversion Hfuel|]. simpl in *.
    rewrite Nat.add_0_r in Hend. now rewrite Hend.
  - destruct fuel as [|fuel]; [inversion Hfuel|]. simpl in Hfuel. simpl.
    pose proof (Hload 0%nat ltac:(simpl; lia)) as H0.
    rewrite Nat.add_0_r in H0. simpl in H0. rewrite H0.
    rewrite (IH fuel (S start)); [reflexivity | lia | |].
    + intros j Hj. specialize (Hload (S j) ltac:(simpl; lia)).
      simpl in Hload. rewrite <- Hload. f_equal. f_equal. lia.
    + simpl in Hend. rewrite <- Hend. f_equal. f_equal. lia.
Qed.

Lemma autoFrames_unbounded (env : Env.t) (folder prefix : string)
    (pad : nat) :
  forall (fuel start : nat),
    (forall i, (start <= i)%nat ->
               Env.loadImage env (frameSrc folder prefix pad i) <> None) ->
    autoFrames fuel env folder prefix pad start = None.
Proof.
  induction fuel as [|fuel IH]; intros start Hall; [reflexivity|].
  simpl. destruct (Env.loadImage env (frameSrc folder prefix pad start)) eqn:E.
  - rewrite IH; [reflexivity|]. intros k Hk. apply Hall. lia.
  - exfalso. now apply (Hall start).
Qed.

(** X13 (auto-detected frames).  [loadFrameSequenceAuto] resolves with the
    frames from [start] up to the first number whose file is missing, in
    order, once the loop has had one turn more than there are frames; it
    rejects when the very first file is missing. *)
Theorem loadFrameSequenceAuto_prefix :
  forall (env : Env.t) (folder prefix : string) (start pad : nat)
         (imgs : list Image) (fuel : nat),
    (length imgs < fuel)%nat ->
    (forall j, (j < length imgs)%nat ->
               Env.loadImage env (frameSrc folder prefix pad (start + j))
               = nth_error imgs j) ->
    Env.loadImage env (frameSrc folder prefix pad (start + length imgs))
    = None ->
    loadFrameSequenceAuto fuel env folder prefix start pad
    = match imgs with [] => Rejected | _ :: _ => Ready imgs end.
Proof.
  intros env folder prefix start pad imgs fuel Hfuel Hload Hend.
  unfold loadFrameSequenceAuto.
  rewrite (autoFrames_prefix env folder prefix pad imgs fuel start)
    by assumption.
  destruct imgs as [|img imgs]; [reflexivity|].
  destruct (Z.eqb_spec (len (img :: imgs)) 0) as [E|_]; [|reflexivity].
  unfold len in E. simpl in E. lia.
Qed.

Lemma loadFrameSequenceAuto_prefix_witness :
  loadFrameSequenceAuto 3 sprite_env SPRITES_idle_folder "frame_" 1 2
  = Ready (map sample_image ["assets/sprites/hero_idle/frame_01.png";
                             "assets/sprites/hero_idle/frame_02.png"]%string).
Proof.
  apply (loadFrameSequenceAuto_prefix sprite_env SPRITES_idle_folder "frame_"
           1 2
           (map sample_image ["assets/sprites/hero_idle/frame_01.png";
                              "assets/sprites/hero_idle/frame_02.png"]%string)
           3).
  - simpl. lia.
  - intros [|[|j]] Hj; [reflexivity | reflexivity | simpl in Hj; lia].
  - reflexivity.
Defined.

(** X14 (auto-detection has no upper bound).  While every numbered file
    from [start] on is there, the loop of [loadFrameSequenceAuto] goes on:
    the promise is not settled after any number of turns. *)
Theorem loadFrameSequenceAuto_unbounded :
  forall (env : Env.t) (folder prefix : string) (start pad : nat),
    (forall i, (start <= i)%nat ->
               Env.loadImage env (frameSrc folder prefix pad i) <> None) ->
    forall fuel,
      loadFrameSequenceAuto fuel env folder prefix start pad = Pending.
Proof.
  intros env folder prefix start pad Hall fuel. unfold loadFrameSequenceAuto.
  now rewrite autoFrames_unbounded.
Qed.

Lemma loadFrameSequenceAuto_unbounded_witness :
  loadFrameSequenceAuto 40 generous_env SPRITES_idle_folder "frame_" 1 2
  = Pending.
Proof.
  apply (loadFrameSequenceAuto_unbounded generous_env SPRITES_idle_folder
           "frame_" 1 2).
  intros i _. discriminate.
Defined.

Lemma Ready_nonempty (fuel : nat) (env : Env.t) (folder prefix : string)
    (start pad : nat) (frames : list Image) :
  loadFrameSequenceAuto fuel env folder prefix start pad = Ready frames ->
  exists base rest, frames = base :: rest.
Proof.
  unfold loadFrameSequenceAuto.
  destruct (autoFrames fuel env folder prefix pad start) as [l|];
    [|discriminate].
  destruct (Z.eqb_spec (len l) 0) as [E|E]; [discriminate|].
  intros [= <-]. destruct l as [|base rest]; [now elim E|]. now exists base, rest.
Qed.

Lemma clamp_between (v lo hi : Q) :
  (lo <= hi)%Q -> (lo <= clamp v lo hi /\ clamp v lo hi <= hi)%Q.
Proof.
  intros Hle. unfold clamp.
  destruct (Q.min_spec hi v) as [[H1 E1]|[H1 E1]];
    destruct (Q.max_spec lo (Qmin hi v)) as [[H2 E2]|[H2 E2]];
    rewrite E2, ?E1; rewrite E1 in H2; split; lra.
Qed.

(** X15 (the hero sprites).  When both frame sequences resolve,
    [loadSprites] resolves: both frame arrays are stored and are not empty,
    the render size is the size of the first idle frame scaled by [0.34] and
    rounded, the player stands inside the walkable range of the canvas if
    there is one, and the levels and the carousel are left alone. *)
Theorem loadSprites_ready :
  forall (fuel : nat) (env : Env.t) (W : Z) (w : World.t)
         (idle walk : list Image),
    loadFrameSequenceAuto fuel env SPRITES_idle_folder "frame_" 1 2
    = Ready idle ->
    loadFrameSequenceAuto fuel env SPRITES_walk_folder "frame_" 1 2
    = Ready walk ->
    exists base w',
      loadSprites fuel env W w = Ready w'
      /\ idx idle 0 = Some base
      /\ heroIdleFrames w' = idle /\ heroWalkFrames w' = walk
      /\ 0 < len idle /\ 0 < len walk
      /\ Player.renderW (player w')
         = Math_round (inject_Z (width base) * SPRITE_SCALE)
      /\ Player.renderH (player w')
         = Math_round (inject_Z (height base) * SPRITE_SCALE)
      /\ (0 <= W - Player.renderW (player w') ->
          (0 <= Player.x (player w')
           /\ Player.x (player w')
              <= inject_Z (W - Player.renderW (player w')))%Q)
      /\ state w' = state w /\ levelData w' = levelData w
      /\ levelAssets w' = levelAssets w.
Proof.
  intros fuel env W w idle walk Hidle Hwalk.
  destruct (Ready_nonempty _ _ _ _ _ _ _ Hidle) as (base & rest & ->).
  destruct (Ready_nonempty _ _ _ _ _ _ _ Hwalk) as (wbase & wrest & ->).
  unfold loadSprites. rewrite Hidle, Hwalk.
  exists base. eexists. split; [reflexivity|]. cbn.
  repeat split; try reflexivity;
    match goal with
    | Hd : 0 <= ?d |- _ =>
        assert (Hq : (0 <= inject_Z d)%Q)
          by (change 0%Q with (inject_Z 0); now rewrite <- Zle_Qle)
    end;
    apply (clamp_between _ 0 _ Hq).
Qed.

Lemma loadSprites_ready_witness :
  exists base w',
    loadSprites 3 sprite_env 800 world_boot = Ready w'
    /\ idx (map sample_image ["assets/sprites/hero_idle/frame_01.png";
                              "assets/sprites/hero_idle/frame_02.png"]%string)
           0 = Some base
    /\ Player.renderW (player w') = 26.
Proof.
  destruct (loadSprites_ready 3 sprite_env 800 world_boot
              (map sample_image ["assets/sprites/hero_idle/frame_01.png";
                                 "assets/sprites/hero_idle/frame_02.png"]%string)
              (map sample_image
                   ["assets/sprites/hero_walk/frame_01.png"]%string)
              eq_refl eq_refl)
    as (base & w' & Hready & Hbase & _ & _ & _ & _ & Hrw & _).
  exists base, w'. split; [exact Hready|]. split; [exact Hbase|].
  rewrite Hrw. injection Hbase as <-. reflexivity.
Defined.

Lemma counted_fold_Some (env : Env.t) (folder : string) :
  forall (n s : nat) (frames : list Image),
    fold_right
      (fun i acc =>
         match Env.loadImage env (countedSrc folder i), acc with
         | Some img, Some fr => Some (img :: fr)
         | _, _ => None
         end) (Some []) (seq s n) = Some frames
    <-> length frames = n
        /\ forall j, (j < n)%nat ->
                     Env.loadImage env (countedSrc folder (s + j))
                     = nth_error frames j.
Proof.
  induction n as [|n IH]; intros s frames; simpl.
  - split.
    + intros [= <-]. split; [reflexivity|]. intros j Hj. lia.
    + intros [Hl _]. destruct frames; [reflexivity | discriminate].
  - split.
    + destruct (Env.loadImage env (countedSrc folder s)) as [img|] eqn:E0;
        [|discriminate].
      destruct (fold_right _ _ (seq (S s) n)) as [fr|] eqn:Ef;
        [|discriminate].
      intros [= <-]. apply IH in Ef. destruct Ef as [Hl Hj]. split.
      * simpl. now rewrite Hl.
      * intros [|j] Hlt; [now rewrite Nat.add_0_r|].
        simpl. rewrite <- Hj by lia. f_equal. f_equal. lia.
    + intros [Hl Hj]. destruct frames as [|img fr]; [discriminate|].
      pose proof (Hj 0%nat ltac:(lia)) as H0.
      rewrite Nat.add_0_r in H0. simpl in H0. rewrite H0.
      assert (Ef : fold_right
                     (fun i acc =>
                        match Env.loadImage env (countedSrc folder i), acc with
                        | Some img, Some fr => Some (img :: fr)
                        | _, _ => None
                        end) (Some []) (seq (S s) n) = Some fr).
      { apply IH. split; [simpl in Hl; lia|]. intros j Hlt.
        specialize (Hj (S j) ltac:(lia)). simpl in Hj. rewrite <- Hj.
        f_equal. f_equal. lia. }
      now rewrite Ef.
Qed.

Lemma counted_fold_None (env : Env.t) (folder : string) :
  forall (n s : nat),
    fold_right
      (fun i acc =>
         match Env.loadImage env (countedSrc folder i), acc with
         | Some img, Some fr => Some (img :: fr)
         | _, _ => None
         end) (Some []) (seq s n) = None
    <-> exists j, (j < n)%nat
                  /\ Env.loadImage env (countedSrc folder (s + j)) = None.
Proof.
  induction n as [|n IH]; intros s; simpl.
  - split; [discriminate|]. intros (j & Hj & _). lia.
  - destruct (Env.loadImage env (countedSrc folder s)) as [img|] eqn:E0.
    + destruct (fold_right _ _ (seq (S s) n)) as [fr|] eqn:Ef.
      * split; [discriminate|]. intros (j & Hj & Hnone).
        destruct j as [|j]; [rewrite Nat.add_0_r in Hnone; congruence|].
        assert (Hex : exists j0, (j0 < n)%nat
                      /\ Env.loadImage env (countedSrc folder (S s + j0))
                         = None).
        { exists j. split; [lia|]. rewrite <- Hnone. f_equal. f_equal. lia. }
        apply IH in Hex. congruence.
      * split; [|reflexivity]. intros _. apply IH in Ef.
        destruct Ef as (j & Hj & Hnone). exists (S j). split; [lia|].
        rewrite <- Hnone. f_equal. f_equal. lia.
    + split; [|reflexivity]. intros _. exists 0%nat. split; [lia|].
      now rewrite Nat.add_0_r.
Qed.

(** X16 (counted frames).  [loadFrameSequenceCounted] resolves exactly when
    every one of the files [frame_01.png] to [frame_<count>.png] loads, and
    then with exactly these [count] images, in order (none when [count] is
    not positive); it rejects exactly when one of them is missing. *)
Theorem loadFrameSequenceCounted_spec :
  forall (env : Env.t) (folder : string) (count : Z),
    (forall frames,
        loadFrameSequenceCounted env folder count = Some frames
        <-> len frames = Z.max 0 count
            /\ forall j, (j < length frames)%nat ->
                         Env.loadImage env (countedSrc folder (S j))
                         = nth_error frames j)
    /\ (loadFrameSequenceCounted env folder count = None
        <-> exists i, 1 <= Z.of_nat i <= count
                      /\ Env.loadImage env (countedSrc folder i) = None).
Proof.
  intros env folder count. split.
  - intros frames. unfold loadFrameSequenceCounted.
    change (fun i acc =>
              match Env.loadImage env
                      (String.append folder
                         (String.append "/frame_"
                            (String.append (pad2 i) ".png"))), acc with
              | Some img, Some frames0 => Some (img :: frames0)
              | _, _ => None
              end)
      with (fun i acc =>
              match Env.loadImage env (countedSrc folder i), acc with
              | Some img, Some fr => Some (img :: fr)
              | _, _ => None
              end).
    rewrite counted_fold_Some. unfold len. split.
    + intros [Hl Hj]. split; [lia|]. intros j Hlt. apply (Hj j). lia.
    + intros [Hl Hj]. split; [lia|]. intros j Hlt. apply (Hj j). lia.
  - unfold loadFrameSequenceCounted.
    change (fun i acc =>
              match Env.loadImage env
                      (String.append folder
                         (String.append "/frame_"
                            (String.append (pad2 i) ".png"))), acc with
              | Some img, Some frames0 => Some (img :: frames0)
              | _, _ => None
              end)
      with (fun i acc =>
              match Env.loadImage env (countedSrc folder i), acc with
              | Some img, Some fr => Some (img :: fr)
              | _, _ => None
              end).
    rewrite counted_fold_None. split.
    + intros (j & Hj & Hnone). exists (S j). split; [lia | exact Hnone].
    + intros (i & Hi & Hnone). destruct i as [|i]; [lia|].
      exists i. split; [lia | exact Hnone].
Qed.

(** ** The asset map *)

Lemma key_eqb_eq (a b : option string) : key_eqb a b = true <-> a = b.
Proof.
  destruct a as [x|], b as [y|]; simpl; split; try discriminate;
    try reflexivity.
  - intros E. apply String.eqb_eq in E. now subst.
  - intros [= <-]. apply String.eqb_refl.
Qed.

Lemma Map_get_set_same {V} (k : option string) (v : V) m :
  Map_get k (Map_set k v m) = Some v.
Proof.
  assert (Hk : key_eqb k k = true) by now apply key_eqb_eq.
  induction m as [|[k' v'] m IH]; simpl; [now rewrite Hk|].
  destruct (key_eqb k k') eqn:E; simpl; rewrite ?Hk, ?E; [reflexivity|].
  exact IH.
Qed.

Lemma Map_get_set_other {V} (k k' : option string) (v : V) m :
  k <> k' -> Map_get k (Map_set k' v m) = Map_get k m.
Proof.
  intros Hne.
  assert (Hk : key_eqb k k' = false).
  { destruct (key_eqb k k') eqn:E; [|reflexivity].
    apply key_eqb_eq in E. contradiction. }
  induction m as [|[k1 v1] m IH]; simpl; [now rewrite Hk|].
  destruct (key_eqb k' k1) eqn:E; simpl.
  - apply key_eqb_eq in E. subst k1. now rewrite Hk.
  - now rewrite IH.
Qed.

Lemma Map_In_set {V} (k : option string) (v : V) m k' v' :
  In (k', v') (Map_set k v m) -> (k' = k /\ v' = v) \/ In (k', v') m.
Proof.
  induction m as [|[k1 v1] m IH]; simpl.
  - intros [[= <- <-]|[]]. now left.
  - destruct (key_eqb k k1); simpl.
    + intros [[= <- <-]|Hin]; [now left | right; now right].
    + intros [E|Hin]; [right; now left|].
      destruct (IH Hin) as [H|H]; [now left | right; now right].
Qed.

Lemma Map_get_In {V} (k : option string) (v : V) m :
  Map_get k m = Some v -> In (k, v) m.
Proof.
  induction m as [|[k1 v1] m IH]; simpl; [discriminate|].
  destruct (key_eqb k k1) eqn:E.
  - apply key_eqb_eq in E. subst k1. intros [= <-]. now left.
  - intros H. right. now apply IH.
Qed.

Lemma Map_get_None {V} (k : option string) (m : list (option string * V)) :
  (forall v, ~ In (k, v) m) -> Map_get k m = None.
Proof.
  intros Hno. destruct (Map_get k m) as [v|] eqn:E; [|reflexivity].
  apply Map_get_In in E. now elim (Hno v).
Qed.

Lemma orElse_truthy (s : option string) (d : string) :
  d <> ""%string -> truthy (Some (orElse s d)) = true.
Proof.
  intros Hd. unfold orElse, truthy.
  destruct s as [v|].
  - destruct (String.eqb v "") eqn:E; [|now rewrite E].
    apply Bool.negb_true_iff, String.eqb_neq, Hd.
  - apply Bool.negb_true_iff, String.eqb_neq, Hd.
Qed.

Lemma assetKey_truthy (lvl : Level.t) :
  truthy (Level.id lvl) = true -> assetKey lvl = Level.id lvl.
Proof.
  unfold assetKey, orElse, truthy. destruct (Level.id lvl) as [v|];
    [|discriminate].
  destruct (String.eqb v ""); [discriminate | reflexivity].
Qed.

(** What one turn of the loop of [loadLevels] files, for a level it keeps. *)
Lemma loadLevel_keeps env loaded assets lvl :
  usable env lvl = true ->
  exists a,
    loadLevel env (loaded, assets) lvl
    = (loaded ++ [lvl], Map_set (assetKey lvl) a assets)
    /\ Env.loadImage env (orElse (Level.background lvl) "")
       = Some (Assets.bgImg a)
    /\ forall key, get_layer key a
                   = loadOptionalLayer env
                       (match key with
                        | key_l1 => Level.layer1 lvl
                        | key_l2 => Level.layer2 lvl
                        | key_l3 => Level.layer3 lvl
                        | key_l4 => Level.layer4 lvl
                        end).
Proof.
  unfold usable, loadLevel. intros Hu.
  destruct (truthy (Level.background lvl)); [|discriminate]. simpl in *.
  destruct (Env.loadImage env (orElse (Level.background lvl) "")) as [bg|];
    [|discriminate].
  eexists. split; [reflexivity|]. split; [reflexivity|].
  intros []; reflexivity.
Qed.

Lemma loadLevel_skips env acc lvl :
  usable env lvl = false -> loadLevel env acc lvl = acc.
Proof.
  unfold usable, loadLevel. intros Hu. destruct acc as [loaded assets].
  destruct (truthy (Level.background lvl)); [|reflexivity]. simpl in *.
  destruct (Env.loadImage env (orElse (Level.background lvl) ""));
    [discriminate | reflexivity].
Qed.

Lemma option_string_dec (a b : option string) : {a = b} + {a <> b}.
Proof. decide equality. apply string_dec. Qed.

Lemma loadLevel_filed env acc lvl :
  filed env acc -> filed env (loadLevel env acc lvl).
Proof.
  intros Hacc. destruct (usable env lvl) eqn:Hu.
  2:{ now rewrite loadLevel_skips. }
  destruct acc as [loaded assets].
  destruct (loadLevel_keeps env loaded assets lvl Hu) as (a & -> & Hbg & _).
  intros l Hl. cbn [fst snd] in *.
  destruct (option_string_dec (assetKey l) (assetKey lvl)) as [E|E].
  - exists a, lvl. rewrite E, Map_get_set_same.
    split; [reflexivity|]. split; [apply in_or_app; right; now left|].
    split; [now symmetry | exact Hbg].
  - apply in_app_or in Hl. destruct Hl as [Hl|[<-|[]]]; [|congruence].
    destruct (Hacc l Hl) as (a0 & l2 & Hget & Hin & Hkey & Hbg0).
    cbn [fst snd] in *. exists a0, l2. rewrite Map_get_set_other by exact E.
    split; [exact Hget|]. split; [apply in_or_app; now left|]. now split.
Qed.

Lemma loadLevel_fold_filed env levels : forall acc,
  filed env acc -> filed env (fold_left (loadLevel env) levels acc).
Proof.
  induction levels as [|lvl levels IH]; intros acc Hacc; simpl;
    [exact Hacc|].
  apply IH, loadLevel_filed, Hacc.
Qed.

Lemma initCarousel_assets u w :
  levelAssets (initCarouselWithHomeOrFallback u w) = levelAssets w
  /\ levelData (initCarouselWithHomeOrFallback u w) = levelData w.
Proof.
  unfold initCarouselWithHomeOrFallback.
  repeat match goal with
         | |- context [if ?b then _ else _] => destruct b
         end; now split.
Qed.

(** The pool and the asset map of a successful load are the two parts of the
    loop's result. *)
Lemma loadLevels_parts env u w w' :
  loadLevels env u w = Ok w' ->
  exists levels,
    Env.fetchLevels env = Json (Some levels)
    /\ levelData w'
       = fst (fold_left (loadLevel env) levels ([], levelAssets w))
    /\ levelAssets w'
       = snd (fold_left (loadLevel env) levels ([], levelAssets w)).
Proof.
  unfold loadLevels.
  destruct (Env.fetchLevels env) as [| | |[levels|]]; try discriminate.
  destruct (len levels =? 0); [discriminate|].
  destruct (fold_left (loadLevel env) levels ([], levelAssets w))
    as [loaded assets] eqn:Ef.
  destruct (len loaded =? 0); [discriminate|].
  intros [= <-]. exists levels. split; [reflexivity|]. rewrite Ef.
  destruct (initCarousel_assets u
              (set_state
                 (set_homeIndex
                    (findIndex Level.isHome
                       (levelData
                          (set_levelData loaded (set_levelAssets assets w))))
                    (state (set_levelData loaded (set_levelAssets assets w))))
                 (set_levelData loaded (set_levelAssets assets w))))
    as [Ha Hd].
  split; [exact (eq_trans Hd eq_refl) | exact (eq_trans Ha eq_refl)].
Qed.

(** X17 (the assets of a loaded level).  After a successful [loadLevels],
    every level of the pool that has an id finds an entry in the asset map
    under that id, and the background of the entry is the loaded background
    of a level of the pool filed under the same key: its own, when no other
    level of the pool shares the key. *)
Theorem loaded_levels_have_assets :
  forall (env : Env.t) (u : Q) (w w' : World.t) (lvl : Level.t),
    loadLevels env u w = Ok w' ->
    In lvl (levelData w') ->
    truthy (Level.id lvl) = true ->
    exists a lvl2,
      Map_get (Level.id lvl) (levelAssets w') = Some a
      /\ In lvl2 (levelData w')
      /\ assetKey lvl2 = Level.id lvl
      /\ Env.loadImage env (orElse (Level.background lvl2) "")
         = Some (Assets.bgImg a).
Proof.
  intros env u w w' lvl Hload Hin Hid.
  destruct (loadLevels_parts env u w w' Hload) as (levels & _ & Hd & Ha).
  assert (Hf : filed env
                 (fold_left (loadLevel env) levels ([], levelAssets w))).
  { apply loadLevel_fold_filed. intros l []. }
  rewrite Hd in Hin. destruct (Hf lvl Hin) as (a & lvl2 & Hget & Hin2 & Hk & Hbg).
  rewrite (assetKey_truthy lvl Hid) in Hget, Hk.
  exists a, lvl2. rewrite Ha, Hd. now repeat split.
Qed.

Lemma loaded_levels_have_assets_witness :
  exists a lvl2,
    Map_get (Some "layered"%string)
            (levelAssets
               (match loadLevels layered_env (1 # 2) world_boot with
                | Ok w => w
                | Throw _ => world_boot
                end)) = Some a
    /\ assetKey lvl2 = Some "layered"%string
    /\ Env.loadImage layered_env (orElse (Level.background lvl2) "")
       = Some (Assets.bgImg a).
Proof.
  destruct (loaded_levels_have_assets layered_env (1 # 2) world_boot
              (match loadLevels layered_env (1 # 2) world_boot with
               | Ok w => w
               | Throw _ => world_boot
               end) layered_level eq_refl (or_introl eq_refl) eq_refl)
    as (a & lvl2 & Hget & _ & Hk & Hbg).
  exists a, lvl2. split; [exact Hget|]. split; [exact Hk | exact Hbg].
Defined.

(** ** The asset map along a run *)

(** Only the layers write to the asset map. *)
Lemma setAnim_assets a w : levelAssets (setAnim a w) = levelAssets w.
Proof. unfold setAnim. now destruct (Anim_eqb _ _). Qed.

Lemma triggerEdge_assets now edge w :
  levelAssets (triggerEdge now edge w) = levelAssets w.
Proof. unfold triggerEdge. now destruct (State.transitioning (state w)). Qed.

Lemma loop_steady_assets W now dt w :
  levelAssets (loop_steady W now dt w) = levelAssets w.
Proof.
  unfold loop_steady.
  assert (E1 : levelAssets (steady_input w) = levelAssets w).
  { unfold steady_input. destruct (negb _); now rewrite setAnim_assets. }
  assert (E2 : levelAssets (steady_move W now dt (held_vx w) (steady_input w))
               = levelAssets w).
  { rewrite <- E1. unfold steady_move. cbv zeta.
    destruct (Qle_bool _ 0); [at_trigger triggerEdge_assets|].
    destruct (Qle_bool _ _); [at_trigger triggerEdge_assets | reflexivity]. }
  rewrite <- E2. unfold steady_animate. cbv zeta.
  now destruct (Qle_bool _ _).
Qed.

Lemma finishTransition_assets W u w :
  levelAssets (finishTransition W u w) = levelAssets w.
Proof.
  assert (Hm : levelAssets
                 (snd (if isLeft (State.lastEdge (state w))
                       then carouselMoveLeft u w
                       else carouselMoveRight u w)) = levelAssets w).
  { destruct (isLeft _);
      [destruct (carouselMoveLeft_frame u w) as (c & pos & ->)
      | destruct (carouselMoveRight_frame u w) as (c & pos & ->)];
      reflexivity. }
  rewrite <- Hm. unfold finishTransition.
  destruct (if isLeft (State.lastEdge (state w)) then carouselMoveLeft u w
            else carouselMoveRight u w) as [r w1].
  cbv zeta.
  cbn [State.lastEdge state set_state set_levelIndex set_carousel set_player
       fst snd].
  destruct (isLeft (State.lastEdge (state w1))); unfold setAnim;
    cbn [player set_player Player.anim set_facing set_x];
    destruct (Anim_eqb _ Idle); reflexivity.
Qed.

Lemma drawPlayer_assets w : levelAssets (fst (drawPlayer w)) = levelAssets w.
Proof.
  unfold drawPlayer. destruct (negb _); [reflexivity|].
  destruct (len (currentFrames w) =? 0); [reflexivity|].
  destruct (idx _ _); reflexivity.
Qed.

Lemma get_set_layer key key' l a :
  get_layer key' (set_layer key l a) = Some l
  \/ get_layer key' (set_layer key l a) = get_layer key' a.
Proof. destruct key, key'; simpl; auto. Qed.

Section AssetInvariant.

Variable P : option string -> Assets.t -> Prop.

(** [P] stands a layer of the entry being advanced by a draw. *)
Hypothesis P_layer :
  forall W H k a key l dt w,
    P k a -> get_layer key a = Some l ->
    P k (set_layer key (fst (drawOptionalLayerAsset W H l dt w)) a).

Lemma drawLayerN_entries W H key dt w :
  entries P (levelAssets w) ->
  entries P (levelAssets (fst (drawLayerN W H key dt w))).
Proof.
  intros Hm. unfold drawLayerN, currentLevelAssets.
  destruct (currentLevel w) as [lvl|]; [|exact Hm].
  destruct (Map_get (Level.id lvl) (levelAssets w)) as [a|] eqn:Ea;
    [|exact Hm].
  destruct (get_layer key a) as [l|] eqn:El; [|exact Hm].
  destruct (drawOptionalLayerAsset W H l dt w) as [l' c] eqn:Ed.
  cbn [fst levelAssets set_levelAssets].
  intros k' a' Hin. apply Map_In_set in Hin. destruct Hin as [[-> ->]|Hin].
  - replace l' with (fst (drawOptionalLayerAsset W H l dt w))
      by now rewrite Ed.
    apply P_layer; [|exact El]. apply Hm, Map_get_In, Ea.
  - now apply Hm.
Qed.

Lemma loop_draw_entries W H dt w :
  entries P (levelAssets w) ->
  entries P (levelAssets (fst (loop_draw W H dt w))).
Proof.
  intros Hm. unfold loop_draw.
  pose proof (drawLayerN_entries W H key_l1 dt w Hm) as S1.
  destruct (drawLayerN W H key_l1 dt w) as [w1 c1]. simpl in S1.
  pose proof (drawPlayer_assets w1) as S2.
  destruct (drawPlayer w1) as [w2 c2]. simpl in S2. rewrite <- S2 in S1.
  pose proof (drawLayerN_entries W H key_l2 dt w2 S1) as S3.
  destruct (drawLayerN W H key_l2 dt w2) as [w3 c3]. simpl in S3.
  pose proof (drawLayerN_entries W H key_l3 dt w3 S3) as S4.
  destruct (drawLayerN W H key_l3 dt w3) as [w4 c4]. simpl in S4.
  pose proof (drawLayerN_entries W H key_l4 dt w4 S4) as S5.
  destruct (drawLayerN W H key_l4 dt w4) as [w5 c5]. simpl in S5.
  exact S5.
Qed.

Lemma loop_entries W H t now u w :
  entries P (levelAssets w) ->
  entries P (levelAssets (fst (loop W H t now u w))).
Proof.
  intros Hm. unfold loop. cbv zeta. apply loop_draw_entries.
  destruct (negb _); [now rewrite loop_steady_assets|].
  destruct (Qle_bool _ _); [now rewrite finishTransition_assets | exact Hm].
Qed.

Lemma run_entries W H ticks : forall w,
  entries P (levelAssets w) ->
  entries P (levelAssets (run W H ticks w)).
Proof.
  induction ticks as [|k ticks IH]; intros w Hm; simpl; [exact Hm|].
  apply IH, loop_entries. exact Hm.
Qed.

Variable env : Env.t.

(** [P] holds of the entry the loader files for a level it keeps. *)
Hypothesis P_load :
  forall lvl a,
    (forall key, get_layer key a
                 = loadOptionalLayer env
                     (match key with
                      | key_l1 => Level.layer1 lvl
                      | key_l2 => Level.layer2 lvl
                      | key_l3 => Level.layer3 lvl
                      | key_l4 => Level.layer4 lvl
                      end)) ->
    P (assetKey lvl) a.

Lemma loadLevel_fold_entries levels : forall acc,
  entries P (snd acc) ->
  entries P (snd (fold_left (loadLevel env) levels acc)).
Proof.
  induction levels as [|lvl levels IH]; intros acc Hacc; simpl;
    [exact Hacc|].
  apply IH. destruct (usable env lvl) eqn:Hu.
  2:{ now rewrite loadLevel_skips. }
  destruct acc as [loaded assets].
  destruct (loadLevel_keeps env loaded assets lvl Hu) as (a & -> & _ & Hl).
  cbn [snd] in *. intros k' a' Hin. apply Map_In_set in Hin.
  destruct Hin as [[-> ->]|Hin]; [now apply P_load | now apply Hacc].
Qed.

Lemma loadLevels_entries u w w' :
  entries P (levelAssets w) -> loadLevels env u w = Ok w' ->
  entries P (levelAssets w').
Proof.
  intros Hm Hload.
  destruct (loadLevels_parts env u w w' Hload) as (levels & _ & _ & ->).
  now apply loadLevel_fold_entries.
Qed.

End AssetInvariant.

Lemma currentLevelAssets_no_id w lvl :
  keys_truthy (levelAssets w) ->
  currentLevel w = Some lvl -> truthy (Level.id lvl) = false ->
  currentLevelAssets w = None.
Proof.
  intros Hk Hc Hid. unfold currentLevelAssets. rewrite Hc.
  apply Map_get_None. intros a Hin. apply Hk in Hin. congruence.
Qed.

(** X18 (a level without an id).  The loader files the assets of a level
    under [lvl.id || "(missing id)"], the renderer looks them up under
    [lvl.id]: at every frame of a run that starts from a successful load
    into an asset map whose keys are non-empty strings (the empty map the
    program starts with, for one), a current level that has no id, or an
    empty one, has no assets: neither the background nor the foreground nor
    a layer is drawn. *)
Theorem level_without_id_draws_nothing :
  forall (env : Env.t) (W H : Z) (u0 : Q) (w0 w1 : World.t)
         (ticks : list Tick.t) (lvl : Level.t),
    keys_truthy (levelAssets w0) ->
    loadLevels env u0 w0 = Ok w1 ->
    let w := run W H ticks w1 in
    currentLevel w = Some lvl ->
    truthy (Level.id lvl) = false ->
    currentLevelAssets w = None
    /\ drawBackground W H w = []
    /\ drawForeground W H w = []
    /\ forall key dt, drawLayerN W H key dt w = (w, []).
Proof.
  intros env W H u0 w0 w1 ticks lvl Hk0 Hload w Hc Hid.
  assert (Hk : keys_truthy (levelAssets w)).
  { unfold keys_truthy. apply run_entries; [trivial|].
    apply (loadLevels_entries _ env) with (u := u0) (w := w0);
      [|exact Hk0 | exact Hload].
    intros l a _. apply orElse_truthy. discriminate. }
  pose proof (currentLevelAssets_no_id w lvl Hk Hc Hid) as Hnone.
  split; [exact Hnone|]. unfold drawBackground, drawForeground, drawLayerN.
  rewrite Hnone, Hc. now repeat split.
Qed.

Lemma keys_truthy_boot : keys_truthy (levelAssets world_boot).
Proof. intros k a []. Qed.

Lemma level_without_id_draws_nothing_witness :
  let w := run 800 600 sample_ticks
               (match loadLevels anon_env (1 # 2) world_boot with
                | Ok w => w
                | Throw _ => world_boot
                end) in
  In anon_level (levelData w)
  /\ currentLevelAssets w = None
  /\ drawBackground 800 600 w = [].
Proof.
  assert (Hc : currentLevel
                 (run 800 600 sample_ticks
                      (match loadLevels anon_env (1 # 2) world_boot with
                       | Ok w => w
                       | Throw _ => world_boot
                       end)) = Some anon_level) by (vm_compute; reflexivity).
  destruct (level_without_id_draws_nothing anon_env 800 600 (1 # 2)
              world_boot
              (match loadLevels anon_env (1 # 2) world_boot with
               | Ok w => w
               | Throw _ => world_boot
               end) sample_ticks anon_level keys_truthy_boot eq_refl Hc
              eq_refl) as (Hnone & Hbg & _).
  split; [vm_compute; now left|]. split; [exact Hnone | exact Hbg].
Defined.

Lemma advanceFrames_index (spf : Q) (n : Z) :
  forall fuel timer i,
    0 <= i < n -> 0 <= snd (advanceFrames fuel spf n timer i) < n.
Proof.
  induction fuel as [|fuel IH]; intros timer i Hi; simpl; [exact Hi|].
  destruct (Qle_bool spf timer); [|exact Hi]. apply IH.
  rewrite Z.rem_mod_nonneg by lia. apply Z.mod_pos_bound. lia.
Qed.

Lemma drawOptionalLayerAsset_ok W H l dt w :
  layer_ok l -> layer_ok (fst (drawOptionalLayerAsset W H l dt w)).
Proof.
  destruct l as [img align|frames fps timer i align]; [trivial|].
  intros Hok. unfold drawOptionalLayerAsset.
  destruct (Z.eqb_spec (len frames) 0) as [E|E]; [exact Hok|].
  pose proof (advanceFrames_index (layer_spf fps) (len frames)
                (turns (layer_spf fps) (timer + dt)) (timer + dt)%Q i) as Hi.
  destruct (advanceFrames _ _ _ _ _) as [timer' i']. simpl in *.
  right. apply Hi. destruct Hok as [->|Hok]; [now elim E | exact Hok].
Qed.

Lemma loadOptionalLayer_ok env spec l :
  loadOptionalLayer env spec = Some l -> layer_ok l.
Proof.
  unfold loadOptionalLayer. destruct spec as [spec|]; [|discriminate].
  cbv zeta.
  destruct (String.eqb _ "image").
  - destruct (negb _); [discriminate|].
    destruct (Env.loadImage env _); [|discriminate]. now intros [= <-].
  - destruct (String.eqb _ "frames"); [|discriminate].
    destruct (LayerSpec.count spec =? 0); [discriminate|].
    destruct (negb _); [discriminate|].
    destruct (loadFrameSequenceCounted env _ _) as [frames|]; [|discriminate].
    intros [= <-]. simpl. destruct frames as [|f frames]; [now left|].
    right. rewrite len_cons. pose proof (len_nonneg frames). lia.
Qed.

(** X19 (layer frame indices stay valid).  At every frame of a run that
    starts from a successful load, the frame index of every animated layer
    in the asset map is an index of its frame array (or the array is
    empty), whatever time steps and keys the run gets. *)
Theorem layers_stay_valid :
  forall (env : Env.t) (W H : Z) (u0 : Q) (w0 w1 : World.t)
         (ticks : list Tick.t),
    layers_ok (levelAssets w0) ->
    loadLevels env u0 w0 = Ok w1 ->
    layers_ok (levelAssets (run W H ticks w1)).
Proof.
  intros env W H u0 w0 w1 ticks Hl0 Hload. unfold layers_ok.
  apply run_entries.
  - intros W' H' k a key l dt w Ha Hget key' l' Hget'.
    destruct (get_set_layer key key'
                (fst (drawOptionalLayerAsset W' H' l dt w)) a) as [E|E];
      rewrite E in Hget'.
    + injection Hget' as <-. apply drawOptionalLayerAsset_ok.
      exact (Ha key l Hget).
    + exact (Ha key' l' Hget').
  - apply (loadLevels_entries _ env) with (u := u0) (w := w0);
      [|exact Hl0 | exact Hload].
    intros lvl a Hlayers key l Hget. rewrite Hlayers in Hget.
    exact (loadOptionalLayer_ok env _ l Hget).
Qed.

Lemma layers_stay_valid_witness :
  layers_ok (levelAssets world_boot)
  /\ layers_ok
       (levelAssets
          (run 800 600 sample_ticks
               (match loadLevels layered_env (1 # 2) world_boot with
                | Ok w => w
                | Throw _ => world_boot
                end))).
Proof.
  assert (H0 : layers_ok (levelAssets world_boot)) by (intros k a []).
  split; [exact H0|].
  exact (layers_stay_valid layered_env 800 600 (1 # 2) world_boot
           (match loadLevels layered_env (1 # 2) world_boot with
            | Ok w => w
            | Throw _ => world_boot
            end) sample_ticks H0 eq_refl).
Defined.



(** ** The step of a tick *)

Lemma tick_dt_nonneg t lastT : (lastT <= t)%Q -> (0 <= tick_dt t lastT)%Q.
Proof.
  intros Hle. unfold tick_dt. apply Q.min_glb; [discriminate|].
  unfold Qdiv. change (/ 1000)%Q with (1 # 1000)%Q. lra.
Qed.

Lemma held_vx_cases w : held_vx w = -1 \/ held_vx w = 0 \/ held_vx w = 1.
Proof.
  unfold held_vx. destruct (Input.left (input w)), (Input.right (input w));
    simpl; auto.
Qed.

(** X21 (no leap after a long frame).  In a steady tick whose timestamp is
    not before the last one, a player of non-negative speed inside the
    walkable range moves by [speed * 0.033] pixels at most, however long the
    frame took. *)
Theorem steady_tick_step_bound :
  forall (W H : Z) (t now u : Q) (w : World.t),
    let p := player w in
    State.transitioning (state w) = false ->
    (lastT w <= t)%Q ->
    (0 <= Player.speed p)%Q ->
    (0 <= Player.x p /\ Player.x p <= inject_Z (W - Player.renderW p))%Q ->
    let x' := Player.x (player (fst (loop W H t now u w))) in
    (Player.x p - Player.speed p * (33 # 1000) <= x'
     /\ x' <= Player.x p + Player.speed p * (33 # 1000))%Q.
Proof.
  intros W H t now u w p Htr Ht Hsp [Hlo Hhi] x'.
  destruct (loop_steady_x W H t now u w Htr) as [_ Hx]. fold p in Hx.
  subst x'. rewrite Hx. clear Hx.
  pose proof (tick_dt_nonneg t (lastT w) Ht) as Hd0.
  pose proof (tick_dt_le t (lastT w)) as Hd1.
  set (dt := tick_dt t (lastT w)) in *.
  assert (Hm0 : (0 <= Player.speed p * dt)%Q)
    by now apply Qmult_le_0_compat.
  assert (Hm1 : (Player.speed p * dt <= Player.speed p * (33 # 1000))%Q).
  { rewrite (Qmult_comm (Player.speed p) dt),
      (Qmult_comm (Player.speed p) (33 # 1000)).
    now apply Qmult_le_compat_r. }
  assert (Hx1 : (Player.x p - Player.speed p * dt
                 <= Player.x p + inject_Z (held_vx w) * Player.speed p * dt
                 /\ Player.x p + inject_Z (held_vx w) * Player.speed p * dt
                    <= Player.x p + Player.speed p * dt)%Q).
  { rewrite <- (Qmult_assoc (inject_Z (held_vx w))).
    destruct (held_vx_cases w) as [E | [E | E]]; rewrite E;
      [change (inject_Z (-1)) with (-1)%Q | change (inject_Z 0) with 0%Q
       | change (inject_Z 1) with 1%Q]; split; lra. }
  set (x1 := (Player.x p + inject_Z (held_vx w) * Player.speed p * dt)%Q) in *.
  destruct (Qle_bool x1 0) eqn:E0.
  - apply Qle_bool_iff in E0. split; lra.
  - destruct (Qle_bool (inject_Z (W - Player.renderW p)) x1) eqn:E1.
    + apply Qle_bool_iff in E1. split; lra.
    + split; lra.
Qed.

Lemma steady_tick_step_bound_witness :
  let x' := Player.x (player (fst (loop 800 600 1000 1000 0
                                        world_near_right))) in
  (773 - 90 * (33 # 1000) <= x' /\ x' <= 773 + 90 * (33 # 1000))%Q.
Proof.
  apply (steady_tick_step_bound 800 600 1000 1000 0 world_near_right).
  - reflexivity.
  - discriminate.
  - discriminate.
  - split; discriminate.
Defined.

(** ** Random integers *)

(** X22 ([randInt] covers its range).  For [min <= max] and a draw of
    [[0, 1)], [randInt(min, max)] is an integer of [[min, max]], both ends
    included, and every integer of the range is the result for some draw. *)
Theorem randInt_spec :
  forall (min max : Z),
    min <= max ->
    (forall u, unit_draw u -> min <= randInt min max u <= max)
    /\ (forall k, min <= k <= max ->
                  exists u, unit_draw u /\ randInt min max u = k).
Proof.
  intros min max Hle.
  assert (Hn : (0 < inject_Z (max - min + 1))%Q).
  { change 0%Q with (inject_Z 0). rewrite <- Zlt_Qlt. lia. }
  split.
  - intros u Hu. pose proof (randInt_range (max - min + 1) u Hu ltac:(lia))
      as Hr.
    unfold randInt in *.
    replace (max - min + 1 - 1 - 0 + 1) with (max - min + 1) in Hr by lia.
    lia.
  - intros k Hk.
    exists (inject_Z (k - min) / inject_Z (max - min + 1))%Q.
    assert (Hk0 : (0 <= inject_Z (k - min))%Q).
    { change 0%Q with (inject_Z 0). rewrite <- Zle_Qle. lia. }
    assert (Hk1 : (inject_Z (k - min) < inject_Z (max - min + 1))%Q).
    { rewrite <- Zlt_Qlt. lia. }
    split; [split|].
    + apply Qle_shift_div_l; [exact Hn | lra].
    + apply Qlt_shift_div_r; [exact Hn | lra].
    + unfold randInt.
      assert (E : (inject_Z (k - min) / inject_Z (max - min + 1)
                   * inject_Z (max - min + 1) == inject_Z (k - min))%Q).
      { field. intros E0. rewrite E0 in Hn. discriminate. }
      rewrite E, Qfloor_Z. lia.
Qed.

Lemma randInt_spec_witness :
  (forall u, unit_draw u -> 3 <= randInt 3 5 u <= 5)
  /\ (forall k, 3 <= k <= 5 -> exists u, unit_draw u /\ randInt 3 5 u = k).
Proof. apply (randInt_spec 3 5). lia. Defined.

(** ** The predecessor's level choice *)

(** X23 (the start level of [src/main.js]).  After a successful load the
    level index is an index of the pool: the level the debug parameter asks
    for (counted from 1) when the pool has such a level, a random one
    otherwise. *)
Theorem MainJs_start_level :
  forall (env : Env.t) (debug : option Z) (u : Q) (w w' : World.t),
    unit_draw u ->
    MainJs.loadLevels env debug u w = Ok w' ->
    exists i,
      State.levelIndex (state w') = Some i
      /\ 0 <= i < len (levelData w')
      /\ (forall n, debug = Some n -> 1 <= n <= len (levelData w') ->
                    i = n - 1)
      /\ (forall n, debug = Some n -> ~ 1 <= n <= len (levelData w') ->
                    i = randInt 0 (len (levelData w') - 1) u)
      /\ (debug = None -> i = randInt 0 (len (levelData w') - 1) u).
Proof.
  intros env debug u w w' Hu. unfold MainJs.loadLevels.
  destruct (Env.fetchLevels env) as [| | |[levels|]]; try discriminate.
  destruct (len levels =? 0); [discriminate|].
  destruct (fold_left (MainJs.loadLevel env) levels ([], levelAssets w))
    as [loaded assets].
  destruct (Z.eqb_spec (len loaded) 0) as [E|E]; [discriminate|].
  intros [= <-]. cbn.
  assert (Hn : 0 < len loaded) by (pose proof (len_nonneg loaded); lia).
  pose proof (randInt_range (len loaded) u Hu Hn) as Hr.
  unfold MainJs.getDebugStartLevelIndex. cbn.
  destruct debug as [n|].
  - destruct (Z.ltb_spec n 1) as [Hlt|Hge].
    + eexists. split; [reflexivity|]. split; [exact Hr|].
      split; [intros n0 [= <-] Hin; lia|]. split; [reflexivity | discriminate].
    + destruct (Z.geb_spec (n - 1) (len loaded)) as [Hbig|Hin].
      * eexists. split; [reflexivity|]. split; [exact Hr|].
        split; [intros n0 [= <-] Hin; lia|].
        split; [reflexivity | discriminate].
      * eexists. split; [reflexivity|]. split; [lia|].
        split; [now intros n0 [= <-] _|].
        split; [intros n0 [= <-] Hout; lia | discriminate].
  - eexists. split; [reflexivity|]. split; [exact Hr|].
    split; [discriminate|]. split; [discriminate | reflexivity].
Qed.

Lemma MainJs_start_level_witness :
  exists i,
    State.levelIndex
      (state (match MainJs.loadLevels sample_env (Some 2) (1 # 2) world_boot
              with
              | Ok w => w
              | Throw _ => world_boot
              end)) = Some i
    /\ i = 1.
Proof.
  destruct (MainJs_start_level sample_env (Some 2) (1 # 2) world_boot
              (match MainJs.loadLevels sample_env (Some 2) (1 # 2) world_boot
               with
               | Ok w => w
               | Throw _ => world_boot
               end) unit_draw_half eq_refl)
    as (i & Hi & _ & Hdbg & _).
  exists i. split; [exact Hi|].
  apply (Hdbg 2 eq_refl). split; [lia | vm_compute; discriminate].
Defined.

Lemma MainJs_finishTransition_index W u w :
  State.levelIndex (state (MainJs_finishTransition W u w))
  = Some (randInt 0 (len (levelData w) - 1) u)
  /\ levelData (MainJs_finishTransition W u w) = levelData w
  /\ State.transitioning (state (MainJs_finishTransition W u w)) = false
  /\ Player.visible (player (MainJs_finishTransition W u w)) = true.
Proof.
  unfold MainJs_finishTransition. cbv zeta.
  cbn [State.lastEdge state set_state set_levelIndex set_player].
  destruct (isLeft (State.lastEdge (state w))); unfold setAnim;
    cbn [player set_player Player.anim set_facing set_x];
    destruct (Anim_eqb _ Idle); now repeat split.
Qed.

(** X24 (the next level of [src/main.js]).  The predecessor draws the next
    level with replacement: with a pool that is not empty, the level after a
    transition is a level of the pool, the player is shown again and the
    transition is over, and every level of the pool, the current one
    included, is the next one for some draw. *)
Theorem MainJs_finishTransition_spec :
  forall (W : Z) (w : World.t),
    0 < len (levelData w) ->
    (forall u, unit_draw u ->
       let w' := MainJs_finishTransition W u w in
       (exists i, State.levelIndex (state w') = Some i
                  /\ 0 <= i < len (levelData w'))
       /\ State.transitioning (state w') = false
       /\ Player.visible (player w') = true)
    /\ (forall i, 0 <= i < len (levelData w) ->
          exists u, unit_draw u
                    /\ State.levelIndex
                         (state (MainJs_finishTransition W u w)) = Some i).
Proof.
  intros W w Hn. split.
  - intros u Hu w'. subst w'.
    destruct (MainJs_finishTransition_index W u w) as (Hi & Hd & Ht & Hv).
    split; [|now split]. eexists. split; [exact Hi|]. rewrite Hd.
    now apply randInt_range.
  - intros i Hi.
    assert (Hq : (0 < inject_Z (len (levelData w)))%Q).
    { change 0%Q with (inject_Z 0). now rewrite <- Zlt_Qlt. }
    exists (inject_Z i / inject_Z (len (levelData w)))%Q.
    assert (Hi0 : (0 <= inject_Z i)%Q).
    { change 0%Q with (inject_Z 0). rewrite <- Zle_Qle. lia. }
    assert (Hi1 : (inject_Z i < inject_Z (len (levelData w)))%Q).
    { rewrite <- Zlt_Qlt. lia. }
    split; [split|].
    + apply Qle_shift_div_l; [exact Hq | lra].
    + apply Qlt_shift_div_r; [exact Hq | lra].
    + rewrite (proj1 (MainJs_finishTransition_index W _ w)). f_equal.
      unfold randInt.
      replace (len (levelData w) - 1 - 0 + 1) with (len (levelData w))
        by lia.
      assert (E : (inject_Z i / inject_Z (len (levelData w))
                   * inject_Z (len (levelData w)) == inject_Z i)%Q).
      { field. intros E0. rewrite E0 in Hq. discriminate. }
      rewrite E, Qfloor_Z. lia.
Qed.

Lemma MainJs_finishTransition_spec_witness :
  exists u, unit_draw u
            /\ State.levelIndex (state (MainJs_finishTransition 800 u world_5))
               = State.levelIndex (state world_5).
Proof.
  destruct (MainJs_finishTransition_spec 800 world_5 ltac:(reflexivity))
    as [_ Hany].
  destruct (Hany 0 ltac:(split; [discriminate | reflexivity])) as (u & Hu & E).
  exists u. split; [exact Hu | exact E].
Defined.

(** ** Boot *)

Lemma loadLevels_keeps_player env u w w1 :
  loadLevels env u w = Ok w1 ->
  player w1 = player w
  /\ heroIdleFrames w1 = heroIdleFrames w
  /\ heroWalkFrames w1 = heroWalkFrames w
  /\ input w1 = input w /\ lastT w1 = lastT w.
Proof.
  unfold loadLevels.
  destruct (Env.fetchLevels env) as [| | |[levels|]]; try discriminate.
  destruct (len levels =? 0); [discriminate|].
  destruct (fold_left (loadLevel env) levels ([], levelAssets w))
    as [loaded assets].
  destruct (len loaded =? 0); [discriminate|].
  intros [= <-]. unfold initCarouselWithHomeOrFallback.
  destruct (negb _); now repeat split.
Qed.

(** [loadLevels] neither reads nor writes the player and the hero frames. *)
Lemma loadLevels_indep env u w p i k :
  loadLevels env u (set_player p (set_heroFrames i k w))
  = match loadLevels env u w with
    | Ok w1 => Ok (set_player p (set_heroFrames i k w1))
    | Throw e => Throw e
    end.
Proof.
  unfold loadLevels.
  destruct (Env.fetchLevels env) as [| | |[levels|]]; try reflexivity.
  destruct (len levels =? 0); [reflexivity|].
  change (levelAssets (set_player p (set_heroFrames i k w)))
    with (levelAssets w).
  destruct (fold_left (loadLevel env) levels ([], levelAssets w))
    as [loaded assets].
  destruct (len loaded =? 0); [reflexivity|].
  f_equal. unfold initCarouselWithHomeOrFallback.
  cbn [state levelData set_state set_levelData set_levelAssets set_player
       set_heroFrames State.homeIndex set_homeIndex].
  destruct (negb _); reflexivity.
Qed.

(** [loadSprites] reads the player only, and writes the player and the hero
    frames only. *)
Lemma loadSprites_indep fuel env W w w' :
  player w' = player w ->
  loadSprites fuel env W w'
  = match loadSprites fuel env W w with
    | Ready w2 =>
        Ready (set_player (player w2)
                 (set_heroFrames (heroIdleFrames w2) (heroWalkFrames w2) w'))
    | Rejected => Rejected
    | Pending => Pending
    end.
Proof.
  intros Hp. unfold loadSprites.
  destruct (loadFrameSequenceAuto fuel env SPRITES_idle_folder "frame_" 1 2)
    as [idle| |];
    destruct (loadFrameSequenceAuto fuel env SPRITES_walk_folder "frame_" 1 2)
      as [walk| |]; try reflexivity.
  cbn [heroIdleFrames set_heroFrames].
  destruct (idx idle 0) as [base|]; [|reflexivity].
  cbn. rewrite Hp. reflexivity.
Qed.

Lemma loadSprites_shape fuel env W w w2 :
  loadSprites fuel env W w = Ready w2 ->
  w2 = set_player (player w2)
         (set_heroFrames (heroIdleFrames w2) (heroWalkFrames w2) w).
Proof.
  intros Hs. pose proof (loadSprites_indep fuel env W w w eq_refl) as E.
  rewrite Hs in E. now injection E.
Qed.

(** X25 (the loaders do not interfere).  [loadLevels] and [loadSprites],
    which [Promise.all] runs side by side, write different variables and
    read none the other writes: when both succeed from a world, running
    them one after the other gives the same world in either order. *)
Theorem loaders_commute :
  forall (fuel : nat) (env : Env.t) (W : Z) (u : Q) (w w1 w2 : World.t),
    loadLevels env u w = Ok w1 ->
    loadSprites fuel env W w = Ready w2 ->
    exists w3,
      loadSprites fuel env W w1 = Ready w3
      /\ loadLevels env u w2 = Ok w3.
Proof.
  intros fuel env W u w w1 w2 Hl Hs.
  exists (set_player (player w2)
            (set_heroFrames (heroIdleFrames w2) (heroWalkFrames w2) w1)).
  split.
  - rewrite (loadSprites_indep fuel env W w w1), Hs; [reflexivity|].
    exact (proj1 (loadLevels_keeps_player env u w w1 Hl)).
  - rewrite (loadSprites_shape fuel env W w w2 Hs) at 1.
    now rewrite loadLevels_indep, Hl.
Qed.

Lemma loaders_commute_witness :
  exists w3,
    loadSprites 3 boot_env 800
      (match loadLevels boot_env (1 # 2) world_boot with
       | Ok w => w
       | Throw _ => world_boot
       end) = Ready w3
    /\ loadLevels boot_env (1 # 2)
         (match loadSprites 3 boot_env 800 world_boot with
          | Ready w => w
          | _ => world_boot
          end) = Ok w3.
Proof.
  exact (loaders_commute 3 boot_env 800 (1 # 2) world_boot
           (match loadLevels boot_env (1 # 2) world_boot with
            | Ok w => w
            | Throw _ => world_boot
            end)
           (match loadSprites 3 boot_env 800 world_boot with
            | Ready w => w
            | _ => world_boot
            end) eq_refl eq_refl).
Defined.

Lemma loadSprites_facts fuel env W w w' :
  loadSprites fuel env W w = Ready w' ->
  0 < len (heroIdleFrames w') /\ 0 < len (heroWalkFrames w')
  /\ state w' = state w /\ levelData w' = levelData w
  /\ levelAssets w' = levelAssets w
  /\ Player.anim (player w') = Player.anim (player w)
  /\ Player.frameIndex (player w') = Player.frameIndex (player w)
  /\ Player.frameTimer (player w') = Player.frameTimer (player w)
  /\ (0 <= W - Player.renderW (player w') ->
      (0 <= Player.x (player w')
       /\ Player.x (player w')
          <= inject_Z (W - Player.renderW (player w')))%Q).
Proof.
  unfold loadSprites.
  destruct (loadFrameSequenceAuto fuel env SPRITES_idle_folder "frame_" 1 2)
    as [idle| |] eqn:Hidle;
    destruct (loadFrameSequenceAuto fuel env SPRITES_walk_folder "frame_" 1 2)
      as [walk| |] eqn:Hwalk; try discriminate.
  destruct (Ready_nonempty _ _ _ _ _ _ _ Hidle) as (base & rest & ->).
  destruct (Ready_nonempty _ _ _ _ _ _ _ Hwalk) as (wbase & wrest & ->).
  cbn. intros [= <-]. cbn.
  repeat split; try reflexivity;
    match goal with
    | Hd : 0 <= ?d |- _ =>
        assert (Hq : (0 <= inject_Z d)%Q)
          by (change 0%Q with (inject_Z 0); now rewrite <- Zle_Qle)
    end;
    apply (clamp_between _ 0 _ Hq).
Qed.

Lemma loop_layers_ok W H t now u w :
  layers_ok (levelAssets w) ->
  layers_ok (levelAssets (fst (loop W H t now u w))).
Proof.
  unfold layers_ok. apply loop_entries.
  intros W' H' k a key l dt w0 Ha Hget key' l' Hget'.
  destruct (get_set_layer key key'
              (fst (drawOptionalLayerAsset W' H' l dt w0)) a) as [E|E];
    rewrite E in Hget'.
  - injection Hget' as <-. apply drawOptionalLayerAsset_ok.
    exact (Ha key l Hget).
  - exact (Ha key' l' Hget').
Qed.

Lemma loop_keys_truthy W H t now u w :
  keys_truthy (levelAssets w) ->
  keys_truthy (levelAssets (fst (loop W H t now u w))).
Proof. unfold keys_truthy. apply loop_entries. trivial. Qed.

Lemma loadLevels_layers_ok env u w w' :
  layers_ok (levelAssets w) -> loadLevels env u w = Ok w' ->
  layers_ok (levelAssets w').
Proof.
  unfold layers_ok. apply (loadLevels_entries _ env).
  intros lvl a Hlayers key l Hget. rewrite Hlayers in Hget.
  exact (loadOptionalLayer_ok env _ l Hget).
Qed.

Lemma loadLevels_keys_truthy env u w w' :
  keys_truthy (levelAssets w) -> loadLevels env u w = Ok w' ->
  keys_truthy (levelAssets w').
Proof.
  unfold keys_truthy. apply (loadLevels_entries _ env).
  intros l a _. apply orElse_truthy. discriminate.
Qed.

Lemma loop_safe W H t now u w :
  unit_draw u -> safe W w -> safe W (fst (loop W H t now u w)).
Proof.
  intros Hu (Hok & Hidle & Hwalk & Hfi & Hti & Hroom & Hx & Hlay & Hkeys).
  destruct (loop_frames W H t now u w) as [Fi Fw].
  destruct (loop_keeps_range W H t now u w Hroom Hx) as [Hr Hx'].
  split; [now apply loop_run_ok|].
  split; [now rewrite Fi|]. split; [now rewrite Fw|].
  split; [exact (proj1 (loop_keeps_frame_index W H t now u w Hidle Hwalk Hfi))|].
  split; [exact (loop_keeps_timer W H t now u w Hti)|].
  split; [now rewrite Hr|]. split; [now rewrite Hr|].
  split; [now apply loop_layers_ok | now apply loop_keys_truthy].
Qed.

Lemma run_safe W H ticks : forall w,
  Forall (fun k => unit_draw (Tick.draw k)) ticks ->
  safe W w -> safe W (run W H ticks w).
Proof.
  induction ticks as [|k ticks IH]; intros w Hus Hs; simpl; [exact Hs|].
  inversion Hus as [|? ? Hu Hus']; subst.
  apply IH; [assumption|]. apply loop_safe; [assumption|].
  destruct Hs as (Hok & Hrest). split; [now apply set_input_run_ok|].
  exact Hrest.
Qed.

Lemma boot_safe fuel env W now0 u0 w1 :
  unit_draw u0 ->
  boot fuel env W u0 (initial_world W now0) = Ready w1 ->
  2 <= W - Player.renderW (player w1) ->
  safe W w1.
Proof.
  intros Hu Hboot Hroom. unfold boot in Hboot.
  destruct (loadLevels env u0 (initial_world W now0)) as [wl|e] eqn:Hload;
    [|discriminate].
  destruct (loadLevels_keeps_player _ _ _ _ Hload) as (Hp & _).
  destruct (loadSprites_facts fuel env W wl w1 Hboot)
    as (Hidle & Hwalk & Hst & Hld & Hla & Han & Hfi & Hti & Hx).
  assert (Hanim : Player.anim (player w1) = Idle) by now rewrite Han, Hp.
  split.
  { apply (run_ok_transfer wl); [exact Hld| |].
    - exists (State.transitioning (state wl)),
             (State.transitionUntil (state wl)), (State.lastEdge (state wl)).
      now rewrite set_transition_eta.
    - eapply loadLevels_run_ok; eassumption. }
  split; [exact Hidle|]. split; [exact Hwalk|].
  split. { unfold currentFrames. rewrite Hanim, Hfi, Hp. simpl. lia. }
  split. { unfold currentFps. rewrite Hanim, Hti, Hp. reflexivity. }
  split; [exact Hroom|]. split; [apply Hx; lia|].
  rewrite Hla. split.
  - apply (loadLevels_layers_ok env u0 (initial_world W now0)); [|exact Hload].
    intros k a [].
  - apply (loadLevels_keys_truthy env u0 (initial_world W now0));
      [|exact Hload].
    intros k a [].
Qed.

(** X26 (from boot to every frame).  When both loaders resolve from the
    initial world of the program and the canvas leaves the hero two pixels
    or more to walk, every frame of every run, whatever keys, timestamps and
    draws it gets, ends in a world where there is a current level, the
    frame index of the player points at a frame of the animation mode in
    force, the frame timer is below the frame interval, the player stands
    inside the walkable range and every layer's frame index is inside its
    frames. *)
Theorem boot_run_safe :
  forall (fuel : nat) (env : Env.t) (W H : Z) (now0 u0 : Q)
         (ticks : list Tick.t) (w1 : World.t),
    unit_draw u0 ->
    Forall (fun k => unit_draw (Tick.draw k)) ticks ->
    boot fuel env W u0 (initial_world W now0) = Ready w1 ->
    2 <= W - Player.renderW (player w1) ->
    let w := run W H ticks w1 in
    safe W w
    /\ (exists lvl, currentLevel w = Some lvl)
    /\ (exists img,
          idx (currentFrames w) (Player.frameIndex (player w)) = Some img).
Proof.
  intros fuel env W H now0 u0 ticks w1 Hu Hus Hboot Hroom w.
  assert (Hs : safe W w).
  { apply run_safe; [assumption|]. eapply boot_safe; eassumption. }
  split; [exact Hs|].
  destruct Hs as (Hok & _ & _ & Hfi & _). split.
  - destruct (run_ok_current w Hok) as (i & lvl & _ & _ & Hcur & _).
    now exists lvl.
  - now apply idx_in_range.
Qed.

Lemma world_booted_eq :
  boot 3 boot_env 800 (1 # 2) (initial_world 800 0) = Ready world_booted.
Proof. reflexivity. Defined.

Lemma boot_run_safe_witness :
  safe 800 (run 800 600 sample_ticks world_booted).
Proof.
  refine (proj1 (boot_run_safe 3 boot_env 800 600 0 (1 # 2) sample_ticks
                   world_booted unit_draw_half sample_ticks_draws
                   world_booted_eq _)).
  vm_compute. discriminate.
Defined.

(** ** The first frame *)

Lemma loadLevels_transitioning env u w w' :
  loadLevels env u w = Ok w' ->
  State.transitioning (state w') = State.transitioning (state w).
Proof.
  unfold loadLevels.
  destruct (Env.fetchLevels env) as [| | |[levels|]]; try discriminate.
  destruct (len levels =? 0); [discriminate|].
  destruct (fold_left (loadLevel env) levels ([], levelAssets w))
    as [loaded assets].
  destruct (len loaded =? 0); [discriminate|].
  intros [= <-]. unfold initCarouselWithHomeOrFallback.
  destruct (negb _); reflexivity.
Qed.

Lemma loadLevels_filed env u w w' :
  loadLevels env u w = Ok w' -> filed env (levelData w', levelAssets w').
Proof.
  intros Hload.
  destruct (loadLevels_parts env u w w' Hload) as (levels & _ & -> & ->).
  rewrite <- surjective_pairing.
  apply loadLevel_fold_filed. intros l [].
Qed.

(** The calls of a frame start with the clearing of the canvas and the
    background of the current level. *)
Lemma loop_draw_cmds W H dt w :
  exists rest,
    snd (loop_draw W H dt w)
    = clearRect 0 0 (inject_Z W) (inject_Z H) :: drawBackground W H w ++ rest.
Proof.
  unfold loop_draw.
  destruct (drawLayerN W H key_l1 dt w) as [w1 c1].
  destruct (drawPlayer w1) as [w2 c2].
  destruct (drawLayerN W H key_l2 dt w2) as [w3 c3].
  destruct (drawLayerN W H key_l3 dt w3) as [w4 c4].
  destruct (drawLayerN W H key_l4 dt w4) as [w5 c5].
  simpl. eexists. reflexivity.
Qed.

(** X30 (the first frame shows the home level).  When boot succeeds from
    the initial state of the program and a level of the pool is flagged
    home, the current level of the first frame is the first such level; if
    it has an id, and the levels of the pool filed under the same key have
    the same background, the first image the first frame draws, right after
    clearing the canvas, is the loaded background of the home level,
    whatever keys, timestamp and clock the frame gets. *)
Theorem first_frame_renders_home :
  forall (fuel : nat) (env : Env.t) (W H : Z) (now0 u t now ud : Q)
         (keys : Input.t) (w1 : World.t),
    unit_draw u ->
    boot fuel env W u (initial_world W now0) = Ready w1 ->
    existsb Level.isHome (levelData w1) = true ->
    exists home,
      currentLevel w1 = Some home
      /\ Level.isHome home = true
      /\ State.levelIndex (state w1)
         = Some (findIndex Level.isHome (levelData w1))
      /\ (truthy (Level.id home) = true ->
          (forall lvl2, In lvl2 (levelData w1) ->
                        assetKey lvl2 = assetKey home ->
                        Level.background lvl2 = Level.background home) ->
          exists bg x y dw dh rest,
            Env.loadImage env (orElse (Level.background home) "") = Some bg
            /\ snd (loop W H t now ud (set_input keys w1))
               = clearRect 0 0 (inject_Z W) (inject_Z H)
                 :: drawImage bg x y dw dh :: rest).
Proof.
  intros fuel env W H now0 u t now ud keys w1 Hu Hboot Hex.
  unfold boot in Hboot.
  destruct (loadLevels env u (initial_world W now0)) as [wl|e] eqn:Hload;
    [|discriminate].
  destruct (loadSprites_facts fuel env W wl w1 Hboot)
    as (_ & _ & Hst & Hld & Hla & _).
  pose proof (loadLevels_transitioning _ _ _ _ Hload) as Htr.
  change (State.transitioning (state (initial_world W now0)))
    with false in Htr.
  pose proof (loadLevels_filed _ _ _ _ Hload) as Hfiled.
  destruct (startup_seed_facts env u _ wl Hu Hload)
    as (i & _ & _ & Hli & Hi & _ & Hhome).
  rewrite <- Hst in Hli, Htr. rewrite <- Hld in Hi, Hhome.
  rewrite <- Hld, <- Hla in Hfiled.
  specialize (Hhome Hex). subst i.
  destruct (findIndex_from_some Level.isHome (levelData w1) 0 Hex)
    as (k & home & Hk & Hnth & Hp & _).
  fold (findIndex Level.isHome (levelData w1)) in Hk.
  assert (Hcur : currentLevel w1 = Some home).
  { unfold currentLevel, idx. rewrite Hli, Hk.
    destruct (Z.ltb_spec (0 + Z.of_nat k) 0); [lia|].
    now replace (Z.to_nat (0 + Z.of_nat k)) with k by lia. }
  exists home. split; [exact Hcur|]. split; [exact Hp|].
  split; [exact Hli|]. intros Hid Hsame.
  destruct (Hfiled home (nth_error_In _ _ Hnth))
    as (a & lvl2 & Hget & Hin2 & Hkey & Hbg).
  cbn [fst snd] in Hget, Hin2.
  rewrite (Hsame lvl2 Hin2 Hkey) in Hbg.
  rewrite (assetKey_truthy home Hid) in Hget.
  rewrite (loop_steady_case W H t now ud (set_input keys w1) Htr).
  set (dt := tick_dt t (lastT (set_input keys w1))).
  set (w2 := loop_steady W now dt (set_lastT t (set_input keys w1))).
  destruct (loop_draw_cmds W H dt w2) as [rest Hcmds].
  destruct (loop_steady_state W now dt (set_lastT t (set_input keys w1)))
    as (tr & until & e & Hst2 & Hld2).
  fold w2 in Hst2, Hld2.
  pose proof (loop_steady_assets W now dt (set_lastT t (set_input keys w1)))
    as Hla2.
  fold w2 in Hla2.
  assert (Hcur2 : currentLevelAssets w2 = Some a).
  { unfold currentLevelAssets, currentLevel. rewrite Hst2, Hld2, Hla2.
    cbn [State.levelIndex set_transition state levelData levelAssets
         set_lastT set_input].
    unfold currentLevel in Hcur. now rewrite Hcur. }
  exists (Assets.bgImg a).
  unfold drawBackground in Hcmds. rewrite Hcur2 in Hcmds.
  unfold drawZoomPanFollow in Hcmds. simpl app in Hcmds.
  do 5 eexists. split; [exact Hbg | exact Hcmds].
Qed.

Lemma first_frame_renders_home_witness :
  exists bg x y dw dh rest,
    Env.loadImage boot_env "bg.png" = Some bg
    /\ snd (loop 800 600 16 16 0
                 (set_input {| Input.left := false; Input.right := true |}
                            world_booted))
       = clearRect 0 0 (inject_Z 800) (inject_Z 600)
         :: drawImage bg x y dw dh :: rest.
Proof.
  destruct (first_frame_renders_home 3 boot_env 800 600 0 (1 # 2) 16 16 0
              {| Input.left := false; Input.right := true |} world_booted
              unit_draw_half world_booted_eq eq_refl)
    as (home & Hcur & _ & _ & Hdraw).
  injection Hcur as <-.
  apply Hdraw; [reflexivity|].
  intros lvl2 [<-|[<-|[]]]; [reflexivity | discriminate].
Defined.

(** C7 (startup), where the code departs from it.  A level file whose only
    level is flagged home and has no id, with its background and the hero
    frames on the server: boot succeeds, the carousel is seeded with the
    home index, the cursor is on it and it is the current level index; the
    background of the level is loaded and filed under ["(missing id)"], the
    renderer looks for it under the id of the level, which is [undefined],
    and the first frame draws the hero and nothing of the home level. *)
Theorem startup_home_without_id :
  boot 3 anon_boot_env 800 (1 # 2) (initial_world 800 0) = Ready world_anon
  /\ State.carousel (state world_anon) = [Some 0]
  /\ State.carouselPos (state world_anon) = 0
  /\ State.levelIndex (state world_anon) = Some 0
  /\ currentLevel world_anon = Some anon_level
  /\ Level.isHome anon_level = true
  /\ Level.id anon_level = None
  /\ map (fun e => (fst e, src (Assets.bgImg (snd e))))
         (levelAssets world_anon)
     = [(Some "(missing id)"%string, "bg.png"%string)]
  /\ currentLevelAssets world_anon = None
  /\ map src (drawn (snd (loop 800 600 16 16 0 world_anon)))
     = ["assets/sprites/hero_idle/frame_01.png"%string].
Proof. repeat split; vm_compute; reflexivity. Qed.
